(** * Trojita message composer: serialization and drag-and-drop decoding

    A shallow embedding of [src/Imap/Model/MessageComposer.cpp] (the
    [Composer::MessageComposer] class) together with the properties of its
    serializers ([asRawMessage], [asCatenateData]), of its header and body
    writers and of its drag-and-drop decoders.

    Byte arrays ([QByteArray]) are lists of bytes, [QIODevice::write] on the
    target appends to the bytes written so far, [QList] is [list], and the
    C++ [int]/[uint] values that travel through [QDataStream] are [Z].

    The model side of the class ([mimeData], [dropMimeData], the row
    operations) and the text edit of the composer window,
    [src/Gui/ComposerTextEdit.cpp], come after the serializers. *)

From Stdlib Require Import Strings.String Strings.Byte.
From Stdlib Require Import List Arith ZArith NArith Lia Bool.
From Equations Require Import Equations.
Import ListNotations.

Set Implicit Arguments.

(** ** Byte arrays *)

Definition bytes := list byte.

(** A C string literal as a byte array. *)
Definition B (s : string) : bytes := list_byte_of_string s.

Definition CR : byte := x0d.
Definition LF : byte := x0a.
Definition CRLF : bytes := [CR; LF].

(** [QByteArray::replace(pat, "")] for a one-character pattern. *)
Definition remove_byte (c : byte) (s : bytes) : bytes :=
  filter (fun b => negb (Byte.eqb b c)) s.

Definition isCRLF (x y : byte) : bool := Byte.eqb x CR && Byte.eqb y LF.

(** Prepend a byte to the first line of a list of lines. *)
Definition cons_head (x : byte) (ls : list bytes) : list bytes :=
  match ls with
  | l :: ls' => (x :: l) :: ls'
  | [] => [[x]]
  end.

(** The lines of a byte stream: the pieces between CRLF terminators, the
    terminators themselves excluded.  What follows the last CRLF (possibly
    nothing) is the last line. *)
Fixpoint lines (s : bytes) : list bytes :=
  match s with
  | [] => [[]]
  | x :: r =>
      match r with
      | y :: r' => if isCRLF x y then [] :: lines r' else cons_head x (lines r)
      | [] => cons_head x (lines r)
      end
  end.

(** Every line is at most [n] bytes long. *)
Definition lines_within (n : nat) (s : bytes) : Prop :=
  Forall (fun l => length l <= n) (lines s).

(** ** Base64, as [QByteArray::toBase64] produces it (RFC 4648 alphabet,
    [=] padding, no line breaks) *)

Definition b64alphabet : bytes :=
  B "ABCDEFGHIJKLMNOPQRSTUVWXYZabcdefghijklmnopqrstuvwxyz0123456789+/".

Definition b64pad : byte := "="%byte.

Definition b64digit (n : N) : byte := nth (N.to_nat n) b64alphabet b64pad.

Fixpoint toBase64 (s : bytes) : bytes :=
  match s with
  | [] => []
  | a :: r1 =>
      match r1 with
      | [] =>
          let n := Byte.to_N a in
          [b64digit (n / 4); b64digit ((n mod 4) * 16); b64pad; b64pad]
      | b :: r2 =>
          match r2 with
          | [] =>
              let n := (Byte.to_N a * 256 + Byte.to_N b)%N in
              [b64digit (n / 1024); b64digit ((n / 16) mod 64);
               b64digit ((n mod 16) * 4); b64pad]
          | c :: r3 =>
              let n := (Byte.to_N a * 65536 + Byte.to_N b * 256 + Byte.to_N c)%N in
              b64digit (n / 262144) :: b64digit ((n / 4096) mod 64)
                :: b64digit ((n / 64) mod 64) :: b64digit (n mod 64)
                :: toBase64 r3
          end
      end
  end.

(** ** Qt value types *)

(** A [QString]: its UTF-16 code units. *)
Definition QString := list N.

Definition QLatin1String (s : string) : QString :=
  map Byte.to_N (list_byte_of_string s).

Definition qCRLF : QString := [13%N; 10%N].

(** A [QDateTime], as milliseconds since the epoch. *)
Definition QDateTime := Z.

(** A nullable [QByteArray] member: [None] is the null array. *)
Definition isNull (b : option bytes) : bool :=
  match b with None => true | Some _ => false end.

Definition bytesOf (b : option bytes) : bytes :=
  match b with None => [] | Some x => x end.

Definition isEmpty {A} (l : list A) : bool :=
  match l with [] => true | _ :: _ => false end.

(** ** The composer's data model *)

Record MailAddress := mkMailAddress {
  name : QString;
  adl : QString;
  mailbox : QString;
  host : QString
}.

Inductive RecipientKind :=
| ADDRESS_TO
| ADDRESS_CC
| ADDRESS_BCC
| ADDRESS_FROM
| ADDRESS_SENDER
| ADDRESS_REPLY_TO.

Inductive ContentTransferEncoding :=
| Base64
| SevenBit
| EightBit
| Binary
| QuotedPrintable.

Inductive ContentDisposition := CDN_ATTACHMENT | CDN_INLINE.

(** Modelled from the spec: the attachment classes of
    [Composer/ComposerAttachments.h] are not among the sources.  An item is
    its descriptor (the spec's tagged union of file, remote message and remote
    message part) with the state the composer changes through it: the
    content disposition and the preload hint. *)
Inductive AttachmentSource :=
| FileAttachment (fileName : QString)
| ImapMessageAttachment (mailbox : QString) (uidValidity uid : Z)
| ImapPartAttachment (mailbox : QString) (uidValidity uid : Z) (trojitaPath : bytes).

Record AttachmentItem := mkAttachmentItem {
  source : AttachmentSource;
  contentDispositionMode : ContentDisposition;
  preloaded : bool
}.

Definition setContentDispositionMode (a : AttachmentItem) (d : ContentDisposition)
  : AttachmentItem :=
  mkAttachmentItem (source a) d (preloaded a).

Definition preload (a : AttachmentItem) : AttachmentItem :=
  mkAttachmentItem (source a) (contentDispositionMode a) true.

Inductive CatenateKind := CATENATE_TEXT | CATENATE_URL.

Definition CatenatePair := (CatenateKind * bytes)%type.

Definition CatenateKind_eqb (a b : CatenateKind) : bool :=
  match a, b with
  | CATENATE_TEXT, CATENATE_TEXT | CATENATE_URL, CATENATE_URL => true
  | _, _ => false
  end.

(** The signals of [QAbstractItemModel] that the composer emits. *)
Inductive Signal :=
| rowsAboutToBeInserted (first last : Z)
| rowsInserted (first last : Z)
| rowsAboutToBeRemoved (first last : Z)
| rowsRemoved (first last : Z).

(** What an observer gets: the signal, and the row count it reads back from
    the model while the signal is delivered. *)
Record Notification := mkNotification {
  signal : Signal;
  rowCountSeen : nat
}.

(** A change opened by [beginInsertRows]/[beginRemoveRows] and not closed yet
    (the entries of Qt's [QAbstractItemModelPrivate::changes] stack): its
    first and last row. *)
Definition Change := (Z * Z)%type.

Record MessageComposer := mkMessageComposer {
  m_from : MailAddress;
  m_recipients : list (RecipientKind * MailAddress);
  m_inReplyTo : list bytes;
  m_references : list bytes;
  m_timestamp : QDateTime;
  m_subject : QString;
  m_organization : QString;
  m_text : QString;
  m_messageId : option bytes;
  m_mimeBoundary : option bytes;
  m_attachments : list AttachmentItem;
  m_shouldPreload : bool;
  m_reportTrojitaVersions : bool;
  (* the view side of QAbstractListModel *)
  changes : list Change;
  notifications : list Notification
}.

Definition with_randomStrings (c : MessageComposer) (mid bnd : option bytes)
  : MessageComposer :=
  mkMessageComposer (m_from c) (m_recipients c) (m_inReplyTo c) (m_references c)
    (m_timestamp c) (m_subject c) (m_organization c) (m_text c)
    mid bnd (m_attachments c) (m_shouldPreload c)
    (m_reportTrojitaVersions c) (changes c) (notifications c).

Definition with_recipients (c : MessageComposer)
  (rs : list (RecipientKind * MailAddress)) : MessageComposer :=
  mkMessageComposer (m_from c) rs (m_inReplyTo c) (m_references c)
    (m_timestamp c) (m_subject c) (m_organization c) (m_text c)
    (m_messageId c) (m_mimeBoundary c) (m_attachments c) (m_shouldPreload c)
    (m_reportTrojitaVersions c) (changes c) (notifications c).

Definition with_attachments (c : MessageComposer) (l : list AttachmentItem)
  : MessageComposer :=
  mkMessageComposer (m_from c) (m_recipients c) (m_inReplyTo c) (m_references c)
    (m_timestamp c) (m_subject c) (m_organization c) (m_text c)
    (m_messageId c) (m_mimeBoundary c) l (m_shouldPreload c)
    (m_reportTrojitaVersions c) (changes c) (notifications c).

Definition with_view (c : MessageComposer) (ch : list Change)
  (ns : list Notification) : MessageComposer :=
  mkMessageComposer (m_from c) (m_recipients c) (m_inReplyTo c) (m_references c)
    (m_timestamp c) (m_subject c) (m_organization c) (m_text c)
    (m_messageId c) (m_mimeBoundary c) (m_attachments c) (m_shouldPreload c)
    (m_reportTrojitaVersions c) ch ns.

(** [rowCount(QModelIndex())] *)
Definition rowCount (c : MessageComposer) : nat := length (m_attachments c).

(** [emit sig]: observers run synchronously and see the current row count. *)
Definition emit (c : MessageComposer) (sig : Signal) : list Notification :=
  notifications c ++ [mkNotification sig (rowCount c)].

(** [QAbstractItemModel::beginInsertRows]: push the change, announce it. *)
Definition beginInsertRows (c : MessageComposer) (first last : Z) : MessageComposer :=
  with_view c ((first, last) :: changes c)
    (emit c (rowsAboutToBeInserted first last)).

(** [QAbstractItemModel::endInsertRows]: pop the change, report it done. *)
Definition endInsertRows (c : MessageComposer) : MessageComposer :=
  match changes c with
  | (first, last) :: rest => with_view c rest (emit c (rowsInserted first last))
  | [] => c
  end.

Definition beginRemoveRows (c : MessageComposer) (first last : Z) : MessageComposer :=
  with_view c ((first, last) :: changes c)
    (emit c (rowsAboutToBeRemoved first last)).

Definition endRemoveRows (c : MessageComposer) : MessageComposer :=
  match changes c with
  | (first, last) :: rest => with_view c rest (emit c (rowsRemoved first last))
  | [] => c
  end.

(** [m_attachments << item] *)
Definition appendAttachment (c : MessageComposer) (a : AttachmentItem) : MessageComposer :=
  with_attachments c (m_attachments c ++ [a]).

(** The size of the attachment list as the C++ [int] it is. *)
Definition size (c : MessageComposer) : Z := Z.of_nat (length (m_attachments c)).

(** ** What the composer takes from the rest of the program *)

(** The functions of Qt, of [Imap/Encoders.h], [Imap/Model/Utils.h],
    [Imap/Parser/MailAddress.h] and of the attachment classes that the composer
    calls and that are not among the sources. *)
Record Env := mkEnv {
  asMailHeader : MailAddress -> bytes;
  asSMTPMailbox : MailAddress -> bytes;
  toUtf8 : QString -> bytes;
  encodeRFC2047StringWithAsciiPrefix : QString -> bytes;
  dateTimeToRfc2822 : QDateTime -> QString;
  applicationVersion : QString;
  systemPlatformVersion : QString;
  quotedPrintableEncode : bytes -> bytes;
  wrapFormatFlowed : QString -> QString;
  (* [QUuid::createUuid().toByteArray()], by the number of the draw *)
  createUuid : nat -> bytes;
  (* the [AttachmentItem] interface *)
  caption : AttachmentItem -> QString;
  mimeType : AttachmentItem -> bytes;
  contentDispositionHeader : AttachmentItem -> bytes;
  suggestedCTE : AttachmentItem -> ContentTransferEncoding;
  isAvailableLocally : AttachmentItem -> bool;
  imapUrl : AttachmentItem -> bytes;
  rawData : AttachmentItem -> option bytes;
  (* [AttachmentItem::AttachmentKind], the record tags on the wire *)
  ATTACHMENT_IMAP_MESSAGE : Z;
  ATTACHMENT_IMAP_PART : Z;
  ATTACHMENT_FILE : Z
}.

(** The IMAP model ([Imap::Mailbox::Model]) as the decoders use it. *)
Record Model := mkModel {
  findMailboxByName : QString -> bool;
  messageExists : QString -> Z -> Z -> bool
}.

(** ** Exceptions *)

Inductive Exception := UnknownMessageIndex.

Inductive exc (A : Type) :=
| Val (a : A)
| Raise (e : Exception).

Arguments Val {A} a.
Arguments Raise {A} e.

Definition bind {A B} (m : exc A) (k : A -> exc B) : exc B :=
  match m with
  | Val a => k a
  | Raise e => Raise e
  end.

(** [try { body } catch (Imap::UnknownMessageIndex &) { handler }] *)
Definition try_catch {A} (body : exc A) (handler : exc A) : exc A :=
  match body with
  | Val a => Val a
  | Raise UnknownMessageIndex => handler
  end.

Notation "x <- m ;; k" := (bind m (fun x => k))
  (at level 61, m at next level, right associativity).

(** Modelled from the spec: the constructors of the attachment classes are
    not among the sources.  Construction from a remote reference fails with
    the unknown message index condition if the mailbox no longer contains
    that message; a file attachment is always constructed. *)
Definition new_FileAttachmentItem (fileName : QString) : AttachmentItem :=
  mkAttachmentItem (FileAttachment fileName) CDN_ATTACHMENT false.

Definition new_ImapMessageAttachmentItem (model : Model) (mailbox : QString)
  (uidValidity uid : Z) : exc AttachmentItem :=
  if messageExists model mailbox uidValidity uid
  then Val (mkAttachmentItem (ImapMessageAttachment mailbox uidValidity uid)
              CDN_ATTACHMENT false)
  else Raise UnknownMessageIndex.

Definition new_ImapPartAttachmentItem (model : Model) (mailbox : QString)
  (uidValidity uid : Z) (trojitaPath : bytes) : exc AttachmentItem :=
  if messageExists model mailbox uidValidity uid
  then Val (mkAttachmentItem (ImapPartAttachment mailbox uidValidity uid trojitaPath)
              CDN_ATTACHMENT false)
  else Raise UnknownMessageIndex.

(** ** [QDataStream] over a read-only byte array

    The stream is the unread rest of the device and the sticky status.  The
    wire format is the one of version [Qt_4_6]: integers big-endian, a
    [QString] as its byte length and UTF-16 code units, a [QByteArray] as its
    length and bytes, a [QList] as its count and elements. *)

Inductive Status := Ok | ReadPastEnd | ReadCorruptData | WriteFailed.

Definition Status_isOk (st : Status) : bool :=
  match st with Ok => true | _ => false end.

Record QDataStream := mkStream {
  device : bytes;
  q_status : Status
}.

Definition atEnd (s : QDataStream) : bool := isEmpty (device s).

Definition status (s : QDataStream) : Status := q_status s.

(** [QDataStream::setStatus]: the first error sticks. *)
Definition setStatus (s : QDataStream) (st : Status) : QDataStream :=
  if Status_isOk (q_status s) then mkStream (device s) st else s.

Definition resetStatus (s : QDataStream) : QDataStream := mkStream (device s) Ok.

(** [QDataStream::readBlock]: the device hands out what it has; a short read
    sets [ReadPastEnd]. *)
Definition readBlock (len : nat) (s : QDataStream) : option bytes * QDataStream :=
  if len <=? length (device s)
  then (Some (firstn len (device s)), mkStream (skipn len (device s)) (q_status s))
  else (None, setStatus (mkStream [] (q_status s)) ReadPastEnd).

Definition be_decode (bs : bytes) : Z :=
  fold_left (fun acc b => (acc * 256 + Z.of_N (Byte.to_N b))%Z) bs 0%Z.

(** [stream >> quint32] *)
Definition readUInt32 (s : QDataStream) : Z * QDataStream :=
  match readBlock 4 s with
  | (Some bs, s') => (be_decode bs, s')
  | (None, s') => (0%Z, s')
  end.

(** [stream >> qint32] *)
Definition readInt32 (s : QDataStream) : Z * QDataStream :=
  let (u, s') := readUInt32 s in
  ((if u <? 2147483648 then u else u - 4294967296)%Z, s').

Fixpoint utf16be (bs : bytes) : QString :=
  match bs with
  | hi :: r =>
      match r with
      | lo :: r' => (Byte.to_N hi * 256 + Byte.to_N lo)%N :: utf16be r'
      | [] => []
      end
  | [] => []
  end.

(** [stream >> QString] *)
Definition readQString (s : QDataStream) : QString * QDataStream :=
  let (nbytes, s) := readUInt32 s in
  if (nbytes =? 4294967295)%Z then ([], s)
  else if (0 <? nbytes)%Z then
    if Z.odd nbytes then ([], setStatus s ReadCorruptData)
    else
      match readBlock (Z.to_nat nbytes) s with
      | (Some bs, s') => (utf16be bs, s')
      | (None, s') => ([], s')
      end
  else ([], s).

(** [stream >> QByteArray] *)
Definition readQByteArray (s : QDataStream) : bytes * QDataStream :=
  let (len, s) := readUInt32 s in
  if (len =? 4294967295)%Z then ([], s)
  else
    match readBlock (Z.to_nat len) s with
    | (Some bs, s') => (bs, s')
    | (None, s') => ([], s')
    end.

(** The element loop of [stream >> QList<uint>]: it stops, and clears the
    list, at the first element that fails. *)
Fixpoint readUIntElements (n : nat) (s : QDataStream) (acc : list Z)
  : list Z * QDataStream :=
  match n with
  | O => (acc, s)
  | S k =>
      let (t, s') := readUInt32 s in
      if Status_isOk (status s') then readUIntElements k s' (acc ++ [t])
      else ([], s')
  end.

(** [stream >> QList<uint>]: the status is reset while the container is read
    and an earlier error is put back afterwards. *)
Definition readUIntList (s : QDataStream) : list Z * QDataStream :=
  let oldStatus := status s in
  let s := resetStatus s in
  let (n, s) := readUInt32 s in
  let (l, s) := readUIntElements (Z.to_nat n) s [] in
  (l, if Status_isOk oldStatus then s else mkStream (device s) oldStatus).

(** ** Serialization *)

(** The outcome of a writer: [false] comes with the error message it stored
    through its [QString *errorMessage]. *)
Inductive ErrorMessage :=
| AttachmentNotAvailable (caption : QString)
| AttachmentDisappeared (caption : QString).

Inductive Result :=
| Success
| Failure (errorMessage : ErrorMessage).

Definition succeeded (r : Result) : bool :=
  match r with Success => true | Failure _ => false end.

(** The number of bytes read per Base64 line. *)
Definition base64ChunkSize : nat := 76 * 6 / 8.

Section Serialization.

Variable env : Env.

(** [MessageComposer::ensureRandomStrings]; [seed] counts the UUIDs drawn so
    far by the process. *)
Definition ensureRandomStrings (c : MessageComposer) (seed : nat)
  : MessageComposer * nat :=
  let '(messageId, seed) :=
    if isNull (m_messageId c) then
      let domain := toUtf8 env (host (m_from c)) in
      let domain := if isEmpty domain then B "localhost" else domain in
      (Some (remove_byte "}" (remove_byte "{" (createUuid env seed)) ++ B "@" ++ domain),
       S seed)
    else (m_messageId c, seed) in
  let '(mimeBoundary, seed) :=
    if isNull (m_mimeBoundary c) then
      (Some (B "trojita=_" ++ remove_byte "}" (remove_byte "{" (createUuid env seed))),
       S seed)
    else (m_mimeBoundary c, seed) in
  (with_randomStrings c messageId mimeBoundary, seed).

(** [MessageComposer::encodeHeaderField] *)
Definition encodeHeaderField (text : QString) : bytes :=
  encodeRFC2047StringWithAsciiPrefix env text.

(** [processListOfRecipientsIntoHeader] *)
Definition processListOfRecipientsIntoHeader (prefix : bytes) (addresses : list bytes)
  (out : bytes) : bytes :=
  if negb (isEmpty addresses) then
    let out := out ++ prefix in
    let out :=
      fold_left (fun out a => out ++ a ++ B "," ++ CRLF ++ B " ")
        (firstn (length addresses - 1) addresses) out in
    out ++ last addresses [] ++ CRLF
  else out.

(** The loop of [writeHeaderWithMsgIds] from index [i] on. *)
Fixpoint writeMsgIds (i : nat) (messageIds : list bytes) (charCount : nat)
  (target : bytes) : bytes :=
  match messageIds with
  | [] => target
  | id :: rest =>
      let wrap :=
        negb (i =? 0) && negb (charCount =? 0) && (78 - 3 <? charCount + length id) in
      let charCount := if wrap then 0 else charCount in
      let target := if wrap then target ++ CRLF else target in
      let target := target ++ B " <" ++ id ++ B ">" in
      writeMsgIds (S i) rest (charCount + (length id + 3)) target
  end.

(** [MessageComposer::writeHeaderWithMsgIds] *)
Definition writeHeaderWithMsgIds (target : bytes) (headerName : bytes)
  (messageIds : list bytes) : bytes :=
  if isEmpty messageIds then target
  else
    let target := target ++ headerName ++ B ":" in
    let target := writeMsgIds 0 messageIds (length headerName + 1) target in
    target ++ CRLF.

(** The grouping loop of [writeCommonMessageBeginning]: the [To] and the [Cc]
    addresses.  The three kinds the composer never produces hit a
    [Q_ASSERT(false)], which a release build compiles out. *)
Definition groupRecipients (rs : list (RecipientKind * MailAddress))
  : list bytes * list bytes :=
  fold_left
    (fun (acc : list bytes * list bytes) (it : RecipientKind * MailAddress) =>
       let (rcptTo, rcptCc) := acc in
       match fst it with
       | ADDRESS_TO => (rcptTo ++ [asMailHeader env (snd it)], rcptCc)
       | ADDRESS_CC => (rcptTo, rcptCc ++ [asMailHeader env (snd it)])
       | ADDRESS_BCC => (rcptTo, rcptCc)
       | ADDRESS_FROM | ADDRESS_SENDER | ADDRESS_REPLY_TO => (rcptTo, rcptCc)
       end)
    rs ([], []).

(** [MessageComposer::writeCommonMessageBeginning] *)
Definition writeCommonMessageBeginning (c : MessageComposer) (target : bytes) : bytes :=
  let target := target ++ B "From: " ++ asMailHeader env (m_from c) ++ CRLF in
  let (rcptTo, rcptCc) := groupRecipients (m_recipients c) in
  let recipientHeaders := processListOfRecipientsIntoHeader (B "To: ") rcptTo [] in
  let recipientHeaders :=
    processListOfRecipientsIntoHeader (B "Cc: ") rcptCc recipientHeaders in
  let target := target ++ recipientHeaders in
  let target :=
    target ++ encodeHeaderField (QLatin1String "Subject: " ++ m_subject c) ++ CRLF
      ++ B "Date: " ++ toUtf8 env (dateTimeToRfc2822 env (m_timestamp c)) ++ CRLF
      ++ B "MIME-Version: 1.0" ++ CRLF in
  let target := target ++ B "Message-ID: <" ++ bytesOf (m_messageId c) ++ B ">" ++ CRLF in
  let target := writeHeaderWithMsgIds target (B "In-Reply-To") (m_inReplyTo c) in
  let target := writeHeaderWithMsgIds target (B "References") (m_references c) in
  let target :=
    if negb (isEmpty (m_organization c))
    then target ++ encodeHeaderField (QLatin1String "Organization: " ++ m_organization c)
           ++ CRLF
    else target in
  let target :=
    if m_reportTrojitaVersions c
    then target ++ toUtf8 env (QLatin1String "User-Agent: Trojita/"
                                 ++ applicationVersion env ++ QLatin1String "; "
                                 ++ systemPlatformVersion env ++ qCRLF)
    else target ++ B "User-Agent: Trojita" ++ CRLF in
  let target :=
    if negb (isEmpty (m_attachments c))
    then target ++ B "Content-Type: multipart/mixed;" ++ CRLF
           ++ [x09] ++ B "boundary=" ++ [x22] ++ bytesOf (m_mimeBoundary c) ++ [x22] ++ CRLF
           ++ CRLF ++ B "This is a multipart/mixed message in MIME format." ++ CRLF ++ CRLF
           ++ B "--" ++ bytesOf (m_mimeBoundary c) ++ CRLF
    else target in
  let target :=
    target ++ B "Content-Type: text/plain; charset=utf-8; format=flowed" ++ CRLF
      ++ B "Content-Transfer-Encoding: quoted-printable" ++ CRLF
      ++ CRLF in
  target ++ quotedPrintableEncode env (toUtf8 env (wrapFormatFlowed env (m_text c))).

(** [MessageComposer::writeAttachmentHeader] *)
Definition writeAttachmentHeader (c : MessageComposer) (target : bytes)
  (attachment : AttachmentItem) : Result * bytes :=
  if negb (isAvailableLocally env attachment) && isEmpty (imapUrl env attachment)
  then (Failure (AttachmentNotAvailable (caption env attachment)), target)
  else
    let target :=
      target ++ CRLF ++ B "--" ++ bytesOf (m_mimeBoundary c) ++ CRLF
        ++ B "Content-Type: " ++ mimeType env attachment ++ CRLF in
    let target := target ++ contentDispositionHeader env attachment in
    let target :=
      match suggestedCTE env attachment with
      | Base64 => target ++ B "Content-Transfer-Encoding: base64" ++ CRLF
      | SevenBit => target ++ B "Content-Transfer-Encoding: 7bit" ++ CRLF
      | EightBit => target ++ B "Content-Transfer-Encoding: 8bit" ++ CRLF
      | Binary => target ++ B "Content-Transfer-Encoding: binary" ++ CRLF
      | QuotedPrintable => target ++ B "Content-Transfer-Encoding: quoted-printable" ++ CRLF
      end in
    (Success, target ++ CRLF).

(** The [while (!io->atEnd())] loop of [writeAttachmentBody]; [io] is what
    the device (a file or a buffer) has not handed out yet: [read(n)] hands
    out [n] bytes, or all that is left if that is less, and [readAll] all
    that is left. *)
Equations? copyEncoded (cte : ContentTransferEncoding) (io : bytes) (target : bytes)
  : bytes by wf (length io) lt :=
  copyEncoded cte [] target := target;
  copyEncoded Base64 (x :: r) target :=
    copyEncoded Base64 (skipn base64ChunkSize (x :: r))
      (target ++ toBase64 (firstn base64ChunkSize (x :: r)) ++ CRLF);
  copyEncoded QuotedPrintable (x :: r) target :=
    copyEncoded QuotedPrintable [] (target ++ quotedPrintableEncode env (x :: r));
  copyEncoded cte (x :: r) target := copyEncoded cte [] (target ++ x :: r).
Proof.
  all: try (simpl; lia).
  change (length (skipn 56 r) < S (length r)).
  rewrite length_skipn. lia.
Qed.

(** [MessageComposer::writeAttachmentBody] *)
Definition writeAttachmentBody (target : bytes) (attachment : AttachmentItem)
  : Result * bytes :=
  if negb (isAvailableLocally env attachment)
  then (Failure (AttachmentNotAvailable (caption env attachment)), target)
  else
    match rawData env attachment with
    | None => (Failure (AttachmentDisappeared (caption env attachment)), target)
    | Some io => (Success, copyEncoded (suggestedCTE env attachment) io target)
    end.

(** The attachment loop of [asRawMessage]. *)
Fixpoint rawAttachments (c : MessageComposer) (attachments : list AttachmentItem)
  (target : bytes) : Result * bytes :=
  match attachments with
  | [] => (Success, target)
  | attachment :: rest =>
      match writeAttachmentHeader c target attachment with
      | (Failure e, target) => (Failure e, target)
      | (Success, target) =>
          match writeAttachmentBody target attachment with
          | (Failure e, target) => (Failure e, target)
          | (Success, target) => rawAttachments c rest target
          end
      end
  end.

(** [asRawMessage] after [ensureRandomStrings]. *)
Definition rawMessage (c : MessageComposer) (target : bytes) : Result * bytes :=
  let target := writeCommonMessageBeginning c target in
  if negb (isEmpty (m_attachments c)) then
    match rawAttachments c (m_attachments c) target with
    | (Failure e, target) => (Failure e, target)
    | (Success, target) =>
        (Success, target ++ CRLF ++ B "--" ++ bytesOf (m_mimeBoundary c) ++ B "--" ++ CRLF)
    end
  else (Success, target).

(** [MessageComposer::asRawMessage]: the outcome, the target device, the
    composer with its cached random strings, and the UUID counter. *)
Definition asRawMessage (c : MessageComposer) (seed : nat) (target : bytes)
  : Result * bytes * MessageComposer * nat :=
  let (c, seed) := ensureRandomStrings c seed in
  (rawMessage c target, c, seed).

(** [target.back().first] *)
Definition backKind (target : list CatenatePair) : CatenateKind :=
  fst (last target (CATENATE_TEXT, [])).

(** The byte array behind [QBuffer io(&target.back().second)]. *)
Definition backBuffer (target : list CatenatePair) : bytes :=
  snd (last target (CATENATE_TEXT, [])).

(** Writing through that buffer replaces the array of the last fragment. *)
Definition setBackBuffer (target : list CatenatePair) (buf : bytes)
  : list CatenatePair :=
  removelast target ++ [(backKind target, buf)].

Definition ensureBackIsText (target : list CatenatePair) : list CatenatePair :=
  if negb (CatenateKind_eqb (backKind target) CATENATE_TEXT)
  then target ++ [(CATENATE_TEXT, [])]
  else target.

(** The attachment loop of [asCatenateData]. *)
Fixpoint catenateAttachments (c : MessageComposer) (attachments : list AttachmentItem)
  (target : list CatenatePair) : Result * list CatenatePair :=
  match attachments with
  | [] => (Success, target)
  | attachment :: rest =>
      let target := ensureBackIsText target in
      match writeAttachmentHeader c (backBuffer target) attachment with
      | (Failure e, io) => (Failure e, setBackBuffer target io)
      | (Success, io) =>
          let target := setBackBuffer target io in
          let url := imapUrl env attachment in
          if isEmpty url then
            match writeAttachmentBody (backBuffer target) attachment with
            | (Failure e, io) => (Failure e, setBackBuffer target io)
            | (Success, io) => catenateAttachments c rest (setBackBuffer target io)
            end
          else catenateAttachments c rest (target ++ [(CATENATE_URL, url)])
      end
  end.

(** [asCatenateData] after [ensureRandomStrings]. *)
Definition catenateData (c : MessageComposer) : Result * list CatenatePair :=
  let target := [(CATENATE_TEXT, [])] in
  let target := setBackBuffer target (writeCommonMessageBeginning c (backBuffer target)) in
  if negb (isEmpty (m_attachments c)) then
    match catenateAttachments c (m_attachments c) target with
    | (Failure e, target) => (Failure e, target)
    | (Success, target) =>
        let target := ensureBackIsText target in
        (Success,
         setBackBuffer target
           (backBuffer target ++ CRLF ++ B "--" ++ bytesOf (m_mimeBoundary c) ++ B "--" ++ CRLF))
    end
  else (Success, target).

(** [MessageComposer::asCatenateData]; the [target] list is cleared first, so
    it is a result only. *)
Definition asCatenateData (c : MessageComposer) (seed : nat)
  : Result * list CatenatePair * MessageComposer * nat :=
  let (c, seed) := ensureRandomStrings c seed in
  (catenateData c, c, seed).

(** [MessageComposer::isReadyForSerialization] *)
Definition isReadyForSerialization (c : MessageComposer) : bool :=
  forallb (isAvailableLocally env) (m_attachments c).

(** [MessageComposer::rawRecipientAddresses] *)
Definition rawRecipientAddresses (c : MessageComposer) : list bytes :=
  map (fun it => asSMTPMailbox env (snd it)) (m_recipients c).

(** ** Changing the attachment list *)

(** [MessageComposer::addFileAttachment] *)
Definition addFileAttachment (c : MessageComposer) (path : QString)
  : bool * MessageComposer :=
  let c := beginInsertRows c (size c) (size c) in
  let attachment := new_FileAttachmentItem path in
  if negb (isAvailableLocally env attachment) then (false, c)
  else
    let attachment := if m_shouldPreload c then preload attachment else attachment in
    let c := appendAttachment c attachment in
    let c := endInsertRows c in
    (true, c).

(** A [QModelIndex]: whether it has a model, its row and its column. *)
Record QModelIndex := mkIndex {
  hasModel : bool;
  row : Z;
  column : Z
}.

(** [QModelIndex::isValid]: [(r >= 0) && (c >= 0) && (m != nullptr)]. *)
Definition isValid (index : QModelIndex) : bool :=
  (0 <=? row index)%Z && (0 <=? column index)%Z && hasModel index.

(** [QList::takeAt] *)
Definition takeAt {A} (l : list A) (i : nat) : list A := firstn i l ++ skipn (S i) l.

(** [MessageComposer::removeAttachment] *)
Definition removeAttachment (c : MessageComposer) (index : QModelIndex) : MessageComposer :=
  if negb (isValid index) || negb (column index =? 0)%Z || (row index <? 0)%Z
     || (size c <=? row index)%Z
  then c
  else
    let c := beginRemoveRows c (row index) (row index) in
    let c := with_attachments c (takeAt (m_attachments c) (Z.to_nat (row index))) in
    endRemoveRows c.

(** ** Drag-and-drop decoding *)

Variable m_model : Model.

(** [MessageComposer::validateDropImapMessage] *)
Definition validateDropImapMessage (stream : QDataStream) (mailbox : QString)
  (uidValidity : Z) (uids : list Z) : bool :=
  if negb (Status_isOk (status stream)) then false
  else if negb (findMailboxByName m_model mailbox) then false
  else if length uids <? 1 then false
  else if (uidValidity =? 0)%Z then false
  else true.

(** The fields [validateDropImapPart] reads into its reference arguments. *)
Record PartReference := mkPartReference {
  part_mailbox : QString;
  part_uidValidity : Z;
  part_uid : Z;
  part_trojitaPath : bytes
}.

(** [MessageComposer::validateDropImapPart] *)
Definition validateDropImapPart (stream : QDataStream)
  : bool * QDataStream * PartReference :=
  let (mailbox, stream) := readQString stream in
  let (uidValidity, stream) := readUInt32 stream in
  let (uid, stream) := readUInt32 stream in
  let (trojitaPath, stream) := readQByteArray stream in
  let ref := mkPartReference mailbox uidValidity uid trojitaPath in
  if negb (Status_isOk (status stream)) then (false, stream, ref)
  else if negb (findMailboxByName m_model mailbox) then (false, stream, ref)
  else if (uidValidity =? 0)%Z || (uid =? 0)%Z || isEmpty trojitaPath
  then (false, stream, ref)
  else (true, stream, ref).

(** [CHECK_STREAM_OK_AT_END]: [true] when the macro lets the decoder go on. *)
Definition CHECK_STREAM_OK_AT_END (stream : QDataStream) : bool :=
  if negb (atEnd stream) then false
  else if negb (Status_isOk (status stream)) then false
  else true.

(** One turn of the record loop of [dropAttachmentList] either goes on with
    the stream and the items built so far, or leaves the function with
    [return false]. *)
Inductive LoopStep :=
| Continue (stream : QDataStream) (items : list AttachmentItem)
| ReturnFalse.

(** The [switch (kind)] of the record loop of [dropAttachmentList]. *)
Definition decodeRecord (kind : Z) (stream : QDataStream) (items : list AttachmentItem)
  : exc LoopStep :=
  if (kind =? ATTACHMENT_IMAP_MESSAGE env)%Z then
    let (mailbox, stream) := readQString stream in
    let (uidValidity, stream) := readUInt32 stream in
    let (uids, stream) := readUIntList stream in
    if negb (validateDropImapMessage stream mailbox uidValidity uids) then Val ReturnFalse
    else if negb (length uids =? 1) then Val ReturnFalse
    else
      try_catch
        (item <- new_ImapMessageAttachmentItem m_model mailbox uidValidity (hd 0%Z uids) ;;
         Val (Continue stream (items ++ [item])))
        (Val ReturnFalse)
  else if (kind =? ATTACHMENT_IMAP_PART env)%Z then
    let '(valid, stream, ref) := validateDropImapPart stream in
    if negb valid then Val ReturnFalse
    else
      try_catch
        (item <- new_ImapPartAttachmentItem m_model (part_mailbox ref)
                   (part_uidValidity ref) (part_uid ref) (part_trojitaPath ref) ;;
         Val (Continue stream (items ++ [item])))
        (Val ReturnFalse)
  else if (kind =? ATTACHMENT_FILE env)%Z then
    let (fileName, stream) := readQString stream in
    Val (Continue stream (items ++ [new_FileAttachmentItem fileName]))
  else Val ReturnFalse.

(** The body of the record loop of [dropAttachmentList]: [stream >> kind],
    then the switch. *)
Definition decodeAttachment (stream : QDataStream) (items : list AttachmentItem)
  : exc LoopStep :=
  let (kind, stream) := readInt32 stream in
  decodeRecord kind stream items.

(** The record loop of [dropAttachmentList], [num - i] turns to go. *)
Fixpoint decodeAttachments (turns : nat) (stream : QDataStream)
  (items : list AttachmentItem) : exc LoopStep :=
  match turns with
  | O => Val (Continue stream items)
  | S turns' =>
      step <- decodeAttachment stream items ;;
      match step with
      | Continue stream items => decodeAttachments turns' stream items
      | ReturnFalse => Val ReturnFalse
      end
  end.

(** The insertion loop shared by the list decoders: preload if asked to,
    then append. *)
Definition insertItems (c : MessageComposer) (items : list AttachmentItem)
  : MessageComposer :=
  fold_left
    (fun c attachment =>
       appendAttachment c (if m_shouldPreload c then preload attachment else attachment))
    items c.

(** [MessageComposer::dropAttachmentList] *)
Definition dropAttachmentList (c : MessageComposer) (stream : QDataStream)
  : exc (bool * MessageComposer) :=
  if atEnd stream then Val (false, c)
  else
    let (num, stream) := readInt32 stream in
    if negb (Status_isOk (status stream)) then Val (false, c)
    else if (num <? 0)%Z then Val (false, c)
    else
      step <- decodeAttachments (Z.to_nat num) stream [] ;;
      match step with
      | ReturnFalse => Val (false, c)
      | Continue stream items =>
          if negb (CHECK_STREAM_OK_AT_END stream) then Val (false, c)
          else
            let c := beginInsertRows c (size c) (size c + Z.of_nat (length items) - 1) in
            let c := insertItems c items in
            let c := endInsertRows c in
            Val (true, c)
      end.

(** The construction loop of [dropImapMessage]; [None] is its [return false]. *)
Fixpoint newMessageItems (mailbox : QString) (uidValidity : Z) (uids : list Z)
  (items : list AttachmentItem) : exc (option (list AttachmentItem)) :=
  match uids with
  | [] => Val (Some items)
  | uid :: rest =>
      r <- try_catch
             (item <- new_ImapMessageAttachmentItem m_model mailbox uidValidity uid ;;
              Val (Some (items ++ [item])))
             (Val None) ;;
      match r with
      | None => Val None
      | Some items =>
          let items :=
            removelast items
              ++ [setContentDispositionMode (last items (new_FileAttachmentItem []))
                    CDN_INLINE] in
          newMessageItems mailbox uidValidity rest items
      end
  end.

(** [MessageComposer::dropImapMessage] *)
Definition dropImapMessage (c : MessageComposer) (stream : QDataStream)
  : exc (bool * MessageComposer) :=
  if atEnd stream then Val (false, c)
  else
    let (mailbox, stream) := readQString stream in
    let (uidValidity, stream) := readUInt32 stream in
    let (uids, stream) := readUIntList stream in
    if negb (validateDropImapMessage stream mailbox uidValidity uids) then Val (false, c)
    else if negb (CHECK_STREAM_OK_AT_END stream) then Val (false, c)
    else
      r <- newMessageItems mailbox uidValidity uids [] ;;
      match r with
      | None => Val (false, c)
      | Some items =>
          let c := beginInsertRows c (size c) (size c + Z.of_nat (length uids) - 1) in
          let c := insertItems c items in
          let c := endInsertRows c in
          Val (true, c)
      end.

(** [MessageComposer::dropImapPart] *)
Definition dropImapPart (c : MessageComposer) (stream : QDataStream)
  : exc (bool * MessageComposer) :=
  if atEnd stream then Val (false, c)
  else
    let '(valid, stream, ref) := validateDropImapPart stream in
    if negb valid then Val (false, c)
    else if negb (CHECK_STREAM_OK_AT_END stream) then Val (false, c)
    else
      r <- try_catch
             (item <- new_ImapPartAttachmentItem m_model (part_mailbox ref)
                        (part_uidValidity ref) (part_uid ref) (part_trojitaPath ref) ;;
              Val (Some item))
             (Val None) ;;
      match r with
      | None => Val (false, c)
      | Some item =>
          let c := beginInsertRows c (size c) (size c) in
          let c := appendAttachment c item in
          let c :=
            if m_shouldPreload c
            then with_attachments c
                   (removelast (m_attachments c)
                      ++ [preload (last (m_attachments c) item)])
            else c in
          let c := endInsertRows c in
          Val (true, c)
      end.

(** The three payload formats of [dropMimeData] that carry attachments. *)
Inductive DropFormat :=
| xTrojitaAttachmentList
| xTrojitaMessageList
| xTrojitaImapPart.

(** The dispatch of [dropMimeData] on the format of the dropped data. *)
Definition dropEncoded (format : DropFormat) (c : MessageComposer) (stream : QDataStream)
  : exc (bool * MessageComposer) :=
  match format with
  | xTrojitaAttachmentList => dropAttachmentList c stream
  | xTrojitaMessageList => dropImapMessage c stream
  | xTrojitaImapPart => dropImapPart c stream
  end.

End Serialization.

(** ** Notions the properties are stated with *)

(** A cutting of a byte stream into reads of [n] bytes: every chunk that
    another one follows holds exactly [n] bytes, and the last one holds what
    was left, at least one byte and at most [n]. *)
Fixpoint wellChunked (n : nat) (chunks : list bytes) : Prop :=
  match chunks with
  | [] => True
  | ch :: rest =>
      match rest with
      | [] => 1 <= length ch <= n
      | _ :: _ => length ch = n /\ wellChunked n rest
      end
  end.

(** One Base64 line of an attachment body. *)
Definition base64Line (chunk : bytes) : bytes := toBase64 chunk ++ CRLF.

(** The signals in the order the observers got them. *)
Definition signals (c : MessageComposer) : list Signal := map signal (notifications c).

(** The bytes [asRawMessage] writes for the body of an attachment. *)
Definition inlinedBody (env : Env) (attachment : AttachmentItem) : bytes :=
  snd (writeAttachmentBody env [] attachment).

(** The attachments that have an IMAP URL: those [asCatenateData] refers to
    instead of inlining them. *)
Definition remoteAttachments (env : Env) (attachments : list AttachmentItem)
  : list AttachmentItem :=
  filter (fun a => negb (isEmpty (imapUrl env a))) attachments.

(** The bodies behind the [CATENATE_URL] fragments, in the order of the
    fragments. *)
Definition remoteBodies (env : Env) (attachments : list AttachmentItem) : list bytes :=
  map (inlinedBody env) (remoteAttachments env attachments).

(** The URLs of the [CATENATE_URL] fragments, in order. *)
Definition remoteUrls (fragments : list CatenatePair) : list bytes :=
  map snd (filter (fun f => CatenateKind_eqb (fst f) CATENATE_URL) fragments).

(** The byte stream a list of fragments stands for, once each
    [CATENATE_URL] fragment is replaced by the bytes it refers to. *)
Fixpoint resolveFragments (fragments : list CatenatePair) (bodies : list bytes) : bytes :=
  match fragments with
  | [] => []
  | (CATENATE_TEXT, text) :: rest => text ++ resolveFragments rest bodies
  | (CATENATE_URL, _) :: rest =>
      match bodies with
      | body :: bodies' => body ++ resolveFragments rest bodies'
      | [] => resolveFragments rest []
      end
  end.

(** No two neighbours of a fragment list have the same kind. *)
Fixpoint alternatingKinds (kinds : list CatenateKind) : Prop :=
  match kinds with
  | [] => True
  | k :: rest =>
      match rest with
      | [] => True
      | k' :: _ => k <> k' /\ alternatingKinds rest
      end
  end.

Definition alternating (fragments : list CatenatePair) : Prop :=
  alternatingKinds (map fst fragments).

(** The number of [CATENATE_URL] fragments. *)
Definition countUrls (fragments : list CatenatePair) : nat :=
  length (filter (fun f => CatenateKind_eqb (fst f) CATENATE_URL) fragments).

(** The first fragment keeps its kind and only grows. *)
Definition extendsFirst (before after : list CatenatePair) : Prop :=
  match before, after with
  | (k, b) :: _, (k', b') :: _ => k = k' /\ exists more, b' = b ++ more
  | _, _ => False
  end.

(** What [ensureBackIsText] makes of a list that ends with [(k, buf)]: the
    fragments before the last text fragment, and that fragment's bytes. *)
Definition beforeText (pre : list CatenatePair) (k : CatenateKind) (buf : bytes)
  : list CatenatePair :=
  match k with
  | CATENATE_TEXT => pre
  | CATENATE_URL => pre ++ [(CATENATE_URL, buf)]
  end.

Definition textBuffer (k : CatenateKind) (buf : bytes) : bytes :=
  match k with
  | CATENATE_TEXT => buf
  | CATENATE_URL => []
  end.

(** The fragments stand for the bytes [out] when their [CATENATE_URL]
    fragments are replaced, one for one, by [bodies]. *)
Definition Resolves (fragments : list CatenatePair) (bodies : list bytes) (out : bytes)
  : Prop :=
  countUrls fragments = length bodies /\ resolveFragments fragments bodies = out.

(** The bytes [writeAttachmentHeader] writes for an attachment. *)
Definition attachmentHeader (env : Env) (c : MessageComposer) (attachment : AttachmentItem)
  : bytes :=
  snd (writeAttachmentHeader env c [] attachment).

Definition isBcc (it : RecipientKind * MailAddress) : bool :=
  match fst it with ADDRESS_BCC => true | _ => false end.

(** The lines [ls], each one followed by its CRLF. *)
Definition terminated (ls : list bytes) : bytes :=
  concat (map (fun l => l ++ CRLF) ls).

(** A message-id of a header, with the blank before it and its brackets. *)
Definition bracketed (id : bytes) : bytes := B " <" ++ id ++ B ">".


(** The stream has met an error. *)
Definition failed (s : QDataStream) : Prop := Status_isOk (status s) = false.

(** A turn, or a run of turns, of the record loop that cannot end in an
    insertion any more: it has returned [false], or it goes on with a
    stream that has met an error. *)
Definition failing (r : exc LoopStep) : Prop :=
  r = Val ReturnFalse \/ exists s items, r = Val (Continue s items) /\ failed s.

(** An insertion that the observers have seen bracketed: [c'] is [c] with
    [items] appended, no change is left open, and the observers got the
    announcement of the new rows while they still saw the old row count, and
    then the confirmation while they saw the new one. *)
Definition insertedRows (c c' : MessageComposer) (items : list AttachmentItem) : Prop :=
  m_attachments c' = m_attachments c ++ items /\
  changes c' = changes c /\
  notifications c'
    = notifications c
        ++ [mkNotification
              (rowsAboutToBeInserted (size c) (size c + Z.of_nat (length items) - 1))
              (rowCount c);
            mkNotification
              (rowsInserted (size c) (size c + Z.of_nat (length items) - 1))
              (rowCount c')].

(** The same for the removal of row [i]. *)
Definition removedRow (c c' : MessageComposer) (i : nat) : Prop :=
  m_attachments c' = takeAt (m_attachments c) i /\
  changes c' = changes c /\
  notifications c'
    = notifications c
        ++ [mkNotification (rowsAboutToBeRemoved (Z.of_nat i) (Z.of_nat i)) (rowCount c);
            mkNotification (rowsRemoved (Z.of_nat i) (Z.of_nat i)) (rowCount c')].

(** *** Payloads the decoders refuse *)

Section DecoderNotions.

Variable env : Env.
Variable m_model : Model.

(** The kind tag a record starts with, and the stream after it. *)
Definition recordKind (s : QDataStream) : Z := fst (readInt32 s).

Definition recordBody (s : QDataStream) : QDataStream := snd (readInt32 s).

(** The fields [stream >> mailbox >> uidValidity >> uids] reads. *)
Definition readMessageList (s : QDataStream) : QString * Z * list Z * QDataStream :=
  let (mailbox, s) := readQString s in
  let (uidValidity, s) := readUInt32 s in
  let (uids, s) := readUIntList s in
  (mailbox, uidValidity, uids, s).

(** The declared count of an attachment list and the stream after it. *)
Definition declaredCount (stream : QDataStream) : Z := fst (readInt32 stream).

Definition afterCount (stream : QDataStream) : QDataStream := snd (readInt32 stream).

(** After [turns] records of the list have been decoded, the loop of
    [dropAttachmentList] stands at [s] with [items] built. *)
Definition standsAt (stream : QDataStream) (turns : nat) (s : QDataStream)
  (items : list AttachmentItem) : Prop :=
  decodeAttachments env m_model turns (afterCount stream) [] = Val (Continue s items).

(** The ways in which a byte stream fails to be an attachment-list payload. *)
Inductive Malformed (stream : QDataStream) : Prop :=
| Malformed_empty :
    atEnd stream = true -> Malformed stream
| Malformed_count_unreadable :
    Status_isOk (status (afterCount stream)) = false -> Malformed stream
| Malformed_negative_count :
    (declaredCount stream < 0)%Z -> Malformed stream
| Malformed_read_error turns s items :
    turns <= Z.to_nat (declaredCount stream) ->
    standsAt stream turns s items ->
    Status_isOk (status s) = false -> Malformed stream
| Malformed_records_missing turns s items :
    turns < Z.to_nat (declaredCount stream) ->
    standsAt stream turns s items ->
    atEnd s = true -> Malformed stream
| Malformed_unknown_kind turns s items :
    turns < Z.to_nat (declaredCount stream) ->
    standsAt stream turns s items ->
    recordKind s <> ATTACHMENT_IMAP_MESSAGE env ->
    recordKind s <> ATTACHMENT_IMAP_PART env ->
    recordKind s <> ATTACHMENT_FILE env -> Malformed stream
| Malformed_invalid_message turns s items mailbox uidValidity uids s' :
    turns < Z.to_nat (declaredCount stream) ->
    standsAt stream turns s items ->
    recordKind s = ATTACHMENT_IMAP_MESSAGE env ->
    readMessageList (recordBody s) = (mailbox, uidValidity, uids, s') ->
    validateDropImapMessage m_model s' mailbox uidValidity uids = false
      \/ length uids <> 1 ->
    Malformed stream
| Malformed_invalid_part turns s items :
    turns < Z.to_nat (declaredCount stream) ->
    standsAt stream turns s items ->
    recordKind s <> ATTACHMENT_IMAP_MESSAGE env ->
    recordKind s = ATTACHMENT_IMAP_PART env ->
    fst (fst (validateDropImapPart m_model (recordBody s))) = false ->
    Malformed stream
| Malformed_leftover s items :
    standsAt stream (Z.to_nat (declaredCount stream)) s items ->
    atEnd s = false -> Malformed stream.

(** A payload that decodes up to a reference to a message the model does not
    hold any more, so that the constructor of the attachment raises
    [UnknownMessageIndex]. *)
Inductive RefersToUnknownMessage : DropFormat -> QDataStream -> Prop :=
| Unknown_message_in_list stream turns s items mailbox uidValidity uid s' :
    turns < Z.to_nat (declaredCount stream) ->
    standsAt stream turns s items ->
    recordKind s = ATTACHMENT_IMAP_MESSAGE env ->
    readMessageList (recordBody s) = (mailbox, uidValidity, [uid], s') ->
    validateDropImapMessage m_model s' mailbox uidValidity [uid] = true ->
    messageExists m_model mailbox uidValidity uid = false ->
    RefersToUnknownMessage xTrojitaAttachmentList stream
| Unknown_part_in_list stream turns s items s' ref :
    turns < Z.to_nat (declaredCount stream) ->
    standsAt stream turns s items ->
    recordKind s <> ATTACHMENT_IMAP_MESSAGE env ->
    recordKind s = ATTACHMENT_IMAP_PART env ->
    validateDropImapPart m_model (recordBody s) = (true, s', ref) ->
    messageExists m_model (part_mailbox ref) (part_uidValidity ref) (part_uid ref) = false ->
    RefersToUnknownMessage xTrojitaAttachmentList stream
| Unknown_message stream mailbox uidValidity uids s' uid :
    readMessageList stream = (mailbox, uidValidity, uids, s') ->
    validateDropImapMessage m_model s' mailbox uidValidity uids = true ->
    CHECK_STREAM_OK_AT_END s' = true ->
    In uid uids ->
    messageExists m_model mailbox uidValidity uid = false ->
    RefersToUnknownMessage xTrojitaMessageList stream
| Unknown_part stream s' ref :
    validateDropImapPart m_model stream = (true, s', ref) ->
    CHECK_STREAM_OK_AT_END s' = true ->
    messageExists m_model (part_mailbox ref) (part_uidValidity ref) (part_uid ref) = false ->
    RefersToUnknownMessage xTrojitaImapPart stream.

End DecoderNotions.

(** ** A small world to run the definitions in *)

Definition narrow (s : QString) : bytes :=
  map (fun n => match Byte.of_N n with Some b => b | None => "?"%byte end) s.

Definition demoMailHeader (a : MailAddress) : bytes :=
  narrow (mailbox a) ++ B "@" ++ narrow (host a).

(** Files with an empty name cannot be read; remote messages and parts have
    an IMAP URL and their data at hand. *)
Definition demoEnv : Env :=
  {| asMailHeader := demoMailHeader;
     asSMTPMailbox := demoMailHeader;
     toUtf8 := narrow;
     encodeRFC2047StringWithAsciiPrefix := narrow;
     dateTimeToRfc2822 := fun _ => QLatin1String "Thu, 01 Jan 1970 00:00:00 +0000";
     applicationVersion := QLatin1String "0.7";
     systemPlatformVersion := QLatin1String "Linux";
     quotedPrintableEncode := fun b => b;
     wrapFormatFlowed := fun t => t;
     createUuid := fun n => B "{uuid-" ++ repeat "i"%byte n ++ B "}";
     caption := fun a =>
       match source a with
       | FileAttachment f => f
       | ImapMessageAttachment m _ _ => m
       | ImapPartAttachment m _ _ _ => m
       end;
     mimeType := fun _ => B "application/octet-stream";
     contentDispositionHeader := fun _ => B "Content-Disposition: attachment" ++ CRLF;
     suggestedCTE := fun a =>
       match source a with
       | FileAttachment _ => Base64
       | ImapMessageAttachment _ _ _ => SevenBit
       | ImapPartAttachment _ _ _ _ => QuotedPrintable
       end;
     isAvailableLocally := fun a =>
       match source a with
       | FileAttachment f => negb (isEmpty f)
       | _ => true
       end;
     imapUrl := fun a =>
       match source a with
       | FileAttachment _ => []
       | ImapMessageAttachment m _ _ => B "/" ++ narrow m ++ B ";UID"
       | ImapPartAttachment m _ _ p => B "/" ++ narrow m ++ B ";SECTION=" ++ p
       end;
     rawData := fun a =>
       match source a with
       | FileAttachment f => Some (narrow f ++ repeat "x"%byte 60)
       | ImapMessageAttachment m _ _ => Some (B "message in " ++ narrow m)
       | ImapPartAttachment _ _ _ p => Some (B "part " ++ p)
       end;
     ATTACHMENT_IMAP_MESSAGE := 0;
     ATTACHMENT_IMAP_PART := 1;
     ATTACHMENT_FILE := 2 |}.

(** One mailbox, INBOX, holding the messages with a UID below 100. *)
Definition demoModel : Model :=
  {| findMailboxByName := fun m => if list_eq_dec N.eq_dec m (QLatin1String "INBOX")
                                   then true else false;
     messageExists := fun m _ uid =>
       (if list_eq_dec N.eq_dec m (QLatin1String "INBOX") then true else false)
       && (uid <? 100)%Z |}.

Definition demoAddress (user domain : string) : MailAddress :=
  mkMailAddress [] [] (QLatin1String user) (QLatin1String domain).

Definition demoComposer : MessageComposer :=
  {| m_from := demoAddress "a" "x.com";
     m_recipients := [(ADDRESS_TO, demoAddress "b" "y.com")];
     m_inReplyTo := [];
     m_references := [];
     m_timestamp := 0%Z;
     m_subject := QLatin1String "Hi";
     m_organization := [];
     m_text := QLatin1String "hello";
     m_messageId := None;
     m_mimeBoundary := None;
     m_attachments := [];
     m_shouldPreload := false;
     m_reportTrojitaVersions := false;
     changes := [];
     notifications := [] |}.

Definition demoFile : AttachmentItem := new_FileAttachmentItem (QLatin1String "report.pdf").

Definition demoMessage : AttachmentItem :=
  mkAttachmentItem (ImapMessageAttachment (QLatin1String "INBOX") 1 42) CDN_INLINE false.

Definition demoPart : AttachmentItem :=
  mkAttachmentItem (ImapPartAttachment (QLatin1String "INBOX") 1 42 (B "/0/1"))
    CDN_ATTACHMENT false.

(** The composer of above with a file, a remote message and a remote part. *)
Definition demoAttached : MessageComposer :=
  with_attachments demoComposer [demoFile; demoMessage; demoPart].

(** [QDataStream << qint32]/[quint32], for building payloads. *)
Definition be32 (n : Z) : bytes :=
  map (fun k => match Byte.of_N (Z.to_N ((n / 256 ^ k) mod 256)) with
                | Some b => b
                | None => x00
                end)
    [3; 2; 1; 0]%Z.

(** [QDataStream << QString] for a Latin-1 text. *)
Definition wireQString (s : string) : bytes :=
  be32 (2 * Z.of_nat (length (list_byte_of_string s)))
    ++ flat_map (fun b => [x00; b]) (list_byte_of_string s).

Definition streamOf (payload : bytes) : QDataStream := mkStream payload Ok.

(** A list that declares three attachments and holds two files. *)
Definition truncatedPayload : bytes :=
  be32 3 ++ be32 2 ++ wireQString "a.txt" ++ be32 2 ++ wireQString "b.txt".

(** A list of a file and of message 500 of INBOX, which is not there. *)
Definition stalePayload : bytes :=
  be32 2 ++ be32 2 ++ wireQString "a.txt"
    ++ be32 0 ++ wireQString "INBOX" ++ be32 7 ++ be32 1 ++ be32 500.

(** The same list with message 42, which is there. *)
Definition goodPayload : bytes :=
  be32 2 ++ be32 2 ++ wireQString "a.txt"
    ++ be32 0 ++ wireQString "INBOX" ++ be32 7 ++ be32 1 ++ be32 42.

(** ** Further notions, for the properties of the code around the claims *)

(** The attachment can be written into a raw message: it is at hand and its
    data source opens. *)
Definition serializable (env : Env) (a : AttachmentItem) : bool :=
  isAvailableLocally env a && match rawData env a with Some _ => true | None => false end.

(** The attachment can go into a list of fragments: by its IMAP URL, or
    inlined. *)
Definition catenable (env : Env) (a : AttachmentItem) : bool :=
  negb (isEmpty (imapUrl env a)) || serializable env a.

(** The MIME part of an attachment in a raw message. *)
Definition attachmentPart (env : Env) (c : MessageComposer) (a : AttachmentItem) : bytes :=
  attachmentHeader env c a ++ inlinedBody env a.

(** The last boundary line of a multipart message. *)
Definition closingBoundary (c : MessageComposer) : bytes :=
  CRLF ++ B "--" ++ bytesOf (m_mimeBoundary c) ++ B "--" ++ CRLF.

(** The error [asRawMessage] reports for an attachment it cannot write. *)
Definition serializationError (env : Env) (a : AttachmentItem) : ErrorMessage :=
  if isAvailableLocally env a then AttachmentDisappeared (caption env a)
  else AttachmentNotAvailable (caption env a).

(** The composer of above with a file that cannot be read in the middle. *)
Definition demoBroken : MessageComposer :=
  with_attachments demoComposer [demoFile; new_FileAttachmentItem []; demoMessage].

Definition RecipientKind_eqb (a b : RecipientKind) : bool :=
  match a, b with
  | ADDRESS_TO, ADDRESS_TO | ADDRESS_CC, ADDRESS_CC | ADDRESS_BCC, ADDRESS_BCC
  | ADDRESS_FROM, ADDRESS_FROM | ADDRESS_SENDER, ADDRESS_SENDER
  | ADDRESS_REPLY_TO, ADDRESS_REPLY_TO => true
  | _, _ => false
  end.

(** The header form of the recipients of one kind, in the order they have
    in the list. *)
Definition addressesOf (env : Env) (kind : RecipientKind)
  (rs : list (RecipientKind * MailAddress)) : list bytes :=
  map (fun it => asMailHeader env (snd it))
    (filter (fun it => RecipientKind_eqb (fst it) kind) rs).

(** A header with a list of addresses, one address per line. *)
Definition addressHeader (prefix : bytes) (addresses : list bytes) : bytes :=
  match addresses with
  | [] => []
  | a :: rest =>
      prefix ++ a ++ concat (map (fun x => B "," ++ CRLF ++ B " " ++ x) rest) ++ CRLF
  end.

(** A line of a message-id header: what it starts with and the ids on it. *)
Definition idLine (prefix : bytes) (group : list bytes) : bytes :=
  prefix ++ concat (map bracketed group).

(** A line holds at least one id, and holds to the 78 characters unless it
    holds one id only. *)
Definition fitsOrSingle (prefix : bytes) (group : list bytes) : Prop :=
  group <> [] /\ (length (idLine prefix group) <= 78 \/ length group = 1).

(** Every line break was needed: the first id of the next line would have
    taken the line before it over 78 characters. *)
Fixpoint breaksNeeded (line : bytes) (groups : list (list bytes)) : Prop :=
  match groups with
  | [] => True
  | g :: rest =>
      78 < length line + length (bracketed (hd [] g)) /\ breaksNeeded (idLine [] g) rest
  end.

(** A UUID as the composer uses it: [toByteArray()] without its braces. *)
Definition bareUuid (env : Env) (draw : nat) : bytes :=
  remove_byte "}" (remove_byte "{" (createUuid env draw)).

(** The attachment refers to something the model knows: nothing is asked of
    a file; a message or a part is in a mailbox the model finds, with a
    UIDVALIDITY that is not zero, and the model holds the message; a part
    has a UID and a path as well. *)
Definition referenceKnown (m : Model) (a : AttachmentItem) : bool :=
  match source a with
  | FileAttachment _ => true
  | ImapMessageAttachment mailbox uidValidity uid =>
      findMailboxByName m mailbox && negb (uidValidity =? 0)%Z
        && messageExists m mailbox uidValidity uid
  | ImapPartAttachment mailbox uidValidity uid trojitaPath =>
      findMailboxByName m mailbox && negb (uidValidity =? 0)%Z && negb (uid =? 0)%Z
        && negb (isEmpty trojitaPath) && messageExists m mailbox uidValidity uid
  end.

(** The attachment [dropImapMessage] makes of a UID. *)
Definition droppedMessage (mailbox : QString) (uidValidity : Z) (preloaded : bool) (uid : Z)
  : AttachmentItem :=
  mkAttachmentItem (ImapMessageAttachment mailbox uidValidity uid) CDN_INLINE preloaded.

(** A message list: messages 42 and 7 of INBOX. *)
Definition messagesPayload : bytes :=
  wireQString "INBOX" ++ be32 7 ++ be32 2 ++ be32 42 ++ be32 7.

(** The stream has met no error. *)
Definition intact (s : QDataStream) : Prop := Status_isOk (status s) = true.

(** The same stream over a device that holds [rest] after what [s] has. *)
Definition more (s : QDataStream) (rest : bytes) : QDataStream :=
  mkStream (device s ++ rest) (q_status s).

(** ** [MessageComposer::dropMimeData] and what it is given *)

(** [Qt::DropAction] *)
Inductive DropAction :=
| IgnoreAction
| CopyAction
| MoveAction
| LinkAction
| TargetMoveAction.

Definition isIgnoreAction (action : DropAction) : bool :=
  match action with IgnoreAction => true | _ => false end.

(** What the composer asks of a [QUrl]. *)
Record QUrl := mkUrl {
  url_isLocalFile : bool;
  url_path : QString
}.

(** What the composer asks of the dropped [QMimeData]: the data it holds in
    each of the three formats, if any, and its URLs. *)
Record QMimeData := mkMimeData {
  formatData : DropFormat -> option bytes;
  urls : list QUrl
}.

Definition hasUrls (data : QMimeData) : bool := negb (isEmpty (urls data)).

(** The loop of [dropMimeData] over the dropped URLs. *)
Fixpoint dropUrls (env : Env) (c : MessageComposer) (us : list QUrl) (attached : bool)
  : bool * MessageComposer :=
  match us with
  | [] => (attached, c)
  | url :: rest =>
      if url_isLocalFile url then
        let (added, c) := addFileAttachment env c (url_path url) in
        dropUrls env c rest (added || attached)
      else dropUrls env c rest attached
  end.

(** [MessageComposer::dropMimeData]; [m_model] is the pointer the composer
    holds, which may be null. *)
Definition dropMimeData (env : Env) (m_model : option Model) (c : MessageComposer)
  (data : QMimeData) (action : DropAction) (column : Z) : exc (bool * MessageComposer) :=
  if isIgnoreAction action then Val (true, c)
  else if (0 <? column)%Z then Val (false, c)
  else
    match m_model with
    | None => Val (false, c)
    | Some model =>
        match formatData data xTrojitaAttachmentList with
        | Some encodedData => dropAttachmentList env model c (mkStream encodedData Ok)
        | None =>
            match formatData data xTrojitaMessageList with
            | Some encodedData => dropImapMessage model c (mkStream encodedData Ok)
            | None =>
                match formatData data xTrojitaImapPart with
                | Some encodedData => dropImapPart model c (mkStream encodedData Ok)
                | None =>
                    if hasUrls data then Val (dropUrls env c (urls data) false)
                    else Val (false, c)
                end
            end
        end
    end.

(** A dropped URL that becomes an attachment: a local file that can be
    read; and one that is tried and given up. *)
Definition attachable (env : Env) (url : QUrl) : bool :=
  url_isLocalFile url && isAvailableLocally env (new_FileAttachmentItem (url_path url)).

Definition givenUp (env : Env) (url : QUrl) : bool :=
  url_isLocalFile url && negb (isAvailableLocally env (new_FileAttachmentItem (url_path url))).

(** The attachment made of the file at a URL. *)
Definition droppedFile (preloaded : bool) (url : QUrl) : AttachmentItem :=
  mkAttachmentItem (FileAttachment (url_path url)) CDN_ATTACHMENT preloaded.

(** Data that holds nothing but URLs. *)
Definition urlsOnly (us : list QUrl) : QMimeData := mkMimeData (fun _ => None) us.

Definition demoUrls : list QUrl :=
  [mkUrl true (QLatin1String "a.txt"); mkUrl false (QLatin1String "http://x/");
   mkUrl true []; mkUrl true (QLatin1String "b.txt")].

(** An attachment list that declares no attachment at all. *)
Definition emptyListPayload : bytes := be32 0.

(** ** The text edit of the composer, [src/Gui/ComposerTextEdit.cpp]

    The widget is the notification it shows over the text, its single-shot
    timer ([None] once it is stopped, and otherwise the interval that
    [QTimer::start(int)] was last called with) and the repaints it has asked
    of its viewport. *)









(** What [insertFromMimeData] does with the data. *)
Inductive InsertAction :=
| emit_urlsAdded (us : list QUrl)
| QTextEdit_insertFromMimeData.

(** The loop of [insertFromMimeData] over the URLs that are left. *)
Fixpoint insertFromUrls (all left : list QUrl) : InsertAction :=
  match left with
  | [] => QTextEdit_insertFromMimeData
  | url :: rest => if url_isLocalFile url then emit_urlsAdded all else insertFromUrls all rest
  end.

(** [ComposerTextEdit::insertFromMimeData] *)
Definition insertFromMimeData (source : QMimeData) : InsertAction :=
  insertFromUrls (urls source) (urls source).

(** [ComposerTextEdit::canInsertFromMimeData], over what
    [QTextEdit::canInsertFromMimeData] says of the data. *)
Fixpoint canInsertFromUrls (QTextEdit_canInsert : bool) (left : list QUrl) : bool :=
  match left with
  | [] => QTextEdit_canInsert
  | url :: rest =>
      if url_isLocalFile url then true else canInsertFromUrls QTextEdit_canInsert rest
  end.

Definition canInsertFromMimeData (QTextEdit_canInsertFromMimeData : QMimeData -> bool)
  (source : QMimeData) : bool :=
  canInsertFromUrls (QTextEdit_canInsertFromMimeData source) (urls source).

(** ** [MessageComposer::mimeData] *)

(** An index as [mimeData] looks at it: whether [index.model()] is this
    model, whether [index.parent()] is valid, and the index itself. *)
Record DraggedIndex := mkDraggedIndex {
  ofThisModel : bool;
  parentIsValid : bool;
  modelIndex : QModelIndex
}.

(** The first loop of [mimeData]: the attachments the indexes select. *)
Definition selectedItems (c : MessageComposer) (indexes : list DraggedIndex)
  : list AttachmentItem :=
  flat_map
    (fun index =>
       if negb (ofThisModel index) || negb (isValid (modelIndex index))
          || negb (column (modelIndex index) =? 0)%Z || parentIsValid index
       then []
       else if (row (modelIndex index) <? 0)%Z || (size c <=? row (modelIndex index))%Z
       then []
       else
         match nth_error (m_attachments c) (Z.to_nat (row (modelIndex index))) with
         | Some attachment => [attachment]
         | None => []
         end)
    indexes.

(** [MessageComposer::mimeData]: [None] is the null pointer, and otherwise
    the result is the data set for the attachment list format.
    [asDroppableMimeData] is what the attachment writes to the stream. *)
Definition mimeData (asDroppableMimeData : AttachmentItem -> bytes) (c : MessageComposer)
  (indexes : list DraggedIndex) : option bytes :=
  let items := selectedItems c indexes in
  if isEmpty items then None
  else Some (be32 (Z.of_nat (length items)) ++ concat (map asDroppableMimeData items)).

(** The record of an attachment is one [dropAttachmentList] reads back, on
    its own, as an attachment of the same source. *)
Definition readsBack (env : Env) (m : Model) (asDroppableMimeData : AttachmentItem -> bytes)
  (a : AttachmentItem) : Prop :=
  exists a',
    decodeAttachment env m (streamOf (asDroppableMimeData a)) []
      = Val (Continue (mkStream [] Ok) [a']) /\
    source a' = source a.

(** [QDataStream <<] for a [QString], a [QByteArray] and a [QList<uint>]. *)
Definition writeQString (s : QString) : bytes :=
  be32 (2 * Z.of_nat (length s))
    ++ flat_map (fun n => match Byte.of_N (n / 256), Byte.of_N (n mod 256) with
                          | Some hi, Some lo => [hi; lo]
                          | _, _ => [x00; x00]
                          end) s.

Definition writeQByteArray (b : bytes) : bytes := be32 (Z.of_nat (length b)) ++ b.

Definition writeUIntList (l : list Z) : bytes :=
  be32 (Z.of_nat (length l)) ++ flat_map be32 l.

(** Records in the format the decoders read, tagged as in [demoEnv]. *)
Definition demoDroppableMimeData (a : AttachmentItem) : bytes :=
  match source a with
  | FileAttachment fileName => be32 2 ++ writeQString fileName
  | ImapMessageAttachment mailbox uidValidity uid =>
      be32 0 ++ writeQString mailbox ++ be32 uidValidity ++ writeUIntList [uid]
  | ImapPartAttachment mailbox uidValidity uid trojitaPath =>
      be32 1 ++ writeQString mailbox ++ be32 uidValidity ++ be32 uid
        ++ writeQByteArray trojitaPath
  end.

Definition demoRow (r : Z) : DraggedIndex := mkDraggedIndex true false (mkIndex true r 0).

(** A drag of the third row, a row that does not exist, and the first row. *)
Definition demoDragged : list DraggedIndex := [demoRow 2; demoRow 7; demoRow 0].

(** ** [MessageComposer::mimeData] as it was in 2012

    The source file holds the revision of 2012 before the one of 2014.  Its
    [mimeData] differs in the test of the row,
    [index.row() < 0 > index.row() >= m_attachments.size()], which C++ reads
    from the left, each comparison giving the [int] 0 or 1 to the next. *)

Definition int_of_bool (b : bool) : Z := if b then 1%Z else 0%Z.

Definition skipsRow_2012 (row size : Z) : bool :=
  (int_of_bool (int_of_bool (row <? 0)%Z >? row)%Z >=? size)%Z.

(** The test before it, which both revisions have. *)
Definition skipsIndex (index : DraggedIndex) : bool :=
  negb (ofThisModel index) || negb (isValid (modelIndex index))
    || negb (column (modelIndex index) =? 0)%Z || parentIsValid index.

(** The rows at which the first loop of the [mimeData] of 2012 evaluates
    [m_attachments[index.row()]]. *)
Definition accessedRows_2012 (c : MessageComposer) (indexes : list DraggedIndex) : list Z :=
  flat_map
    (fun index =>
       if skipsIndex index then []
       else if skipsRow_2012 (row (modelIndex index)) (size c) then []
       else [row (modelIndex index)])
    indexes.

(** * Properties *)

(** ** Lines *)

Lemma list_ind2 {A} (P : list A -> Prop) :
  P [] -> (forall x, P [x]) ->
  (forall x y r, P r -> P (y :: r) -> P (x :: y :: r)) ->
  forall l, P l.
Proof.
  intros H0 H1 H2 l.
  enough (P l /\ forall x, P (x :: l)) by tauto.
  induction l as [|y r [IH1 IH2]]; split; auto.
Qed.

Lemma list_ind3 {A} (P : list A -> Prop) :
  P [] -> (forall x, P [x]) -> (forall x y, P [x; y]) ->
  (forall x y z r, P r -> P (x :: y :: z :: r)) ->
  forall l, P l.
Proof.
  intros H0 H1 H2 H3 l.
  enough (P l /\ (forall x, P (x :: l)) /\ forall x y, P (x :: y :: l)) by tauto.
  induction l as [|z r (IH1 & IH2 & IH3)]; repeat split; auto.
Qed.

Lemma lines_cons2 x y r :
  lines (x :: y :: r) = if isCRLF x y then [] :: lines r else cons_head x (lines (y :: r)).
Proof. reflexivity. Qed.

Lemma lines_not_nil s : lines s <> [].
Proof.
  induction s as [| x | x y r IHr IHyr] using list_ind2; try discriminate.
  rewrite lines_cons2. destruct (isCRLF x y); [discriminate|].
  destruct (lines (y :: r)); [contradiction | discriminate].
Qed.

Lemma cons_head_app x l1 l2 : l1 <> [] -> cons_head x (l1 ++ l2) = cons_head x l1 ++ l2.
Proof. destruct l1; [contradiction | reflexivity]. Qed.

Lemma lines_app_CRLF a b : lines (a ++ CR :: LF :: b) = lines a ++ lines b.
Proof.
  induction a as [| x | x y r IHr IHyr] using list_ind2.
  - reflexivity.
  - change (lines ([x] ++ CR :: LF :: b)) with (lines (x :: CR :: LF :: b)).
    rewrite lines_cons2. unfold isCRLF at 1.
    replace (Byte.eqb CR LF) with false by reflexivity.
    rewrite andb_false_r. rewrite lines_cons2. reflexivity.
  - change ((x :: y :: r) ++ CR :: LF :: b) with (x :: y :: (r ++ CR :: LF :: b)).
    rewrite !lines_cons2. destruct (isCRLF x y).
    + rewrite IHr. reflexivity.
    + change (y :: r ++ CR :: LF :: b) with ((y :: r) ++ CR :: LF :: b).
      rewrite IHyr. apply cons_head_app, lines_not_nil.
Qed.

Lemma Forall_cons_head (n : nat) x ls :
  Forall (fun l : bytes => length l <= n) ls ->
  Forall (fun l : bytes => length l <= S n) (cons_head x ls).
Proof.
  intros H. destruct H as [| l ls Hl Hls]; simpl.
  - constructor; [simpl; lia | constructor].
  - constructor; [simpl; lia |].
    eapply Forall_impl; [| exact Hls]. simpl. intros; lia.
Qed.

(** No line is longer than the stream it is cut from. *)
Lemma lines_length_le s : lines_within (length s) s.
Proof.
  unfold lines_within.
  induction s as [| x | x y r IHr IHyr] using list_ind2.
  - repeat constructor.
  - repeat constructor.
  - rewrite lines_cons2. destruct (isCRLF x y).
    + constructor; [simpl; lia |].
      eapply Forall_impl; [| exact IHr]. simpl. intros; lia.
    + apply (Forall_cons_head (n := length (y :: r))). exact IHyr.
Qed.

Lemma lines_within_mono n m s : n <= m -> lines_within n s -> lines_within m s.
Proof.
  unfold lines_within. intros Hnm H.
  eapply Forall_impl; [| exact H]. simpl. intros; lia.
Qed.

Lemma lines_within_nil n : lines_within n [].
Proof. repeat constructor. simpl. lia. Qed.

(** A piece of at most [n] bytes, its CRLF, and lines within [n] after it. *)
Lemma lines_within_app_CRLF n a b :
  length a <= n -> lines_within n b -> lines_within n (a ++ CRLF ++ b).
Proof.
  intros Ha Hb. unfold lines_within.
  change (a ++ CRLF ++ b) with (a ++ CR :: LF :: b).
  rewrite lines_app_CRLF. apply Forall_app. split; [| exact Hb].
  exact (lines_within_mono Ha (lines_length_le a)).
Qed.

Lemma terminated_within n ls :
  Forall (fun l => length l <= n) ls -> lines_within n (terminated ls).
Proof.
  induction 1 as [| l rest Hl Hrest IH]; unfold terminated; simpl.
  - apply lines_within_nil.
  - rewrite <- app_assoc. apply lines_within_app_CRLF; assumption.
Qed.

Lemma terminated_app ls1 ls2 : terminated (ls1 ++ ls2) = terminated ls1 ++ terminated ls2.
Proof. unfold terminated. rewrite map_app, concat_app. reflexivity. Qed.

Lemma terminated_single l : terminated [l] = l ++ CRLF.
Proof. unfold terminated. simpl. apply app_nil_r. Qed.


(** ** Base64 bodies *)

Lemma toBase64_length s : length (toBase64 s) = 4 * ((length s + 2) / 3).
Proof.
  induction s as [| x | x y | x y z r IH] using list_ind3; try reflexivity.
  change (length (toBase64 (x :: y :: z :: r))) with (4 + length (toBase64 r)).
  rewrite IH.
  replace (length (x :: y :: z :: r) + 2) with ((length r + 2) + 1 * 3) by (simpl; lia).
  rewrite Nat.div_add by lia. lia.
Qed.

Lemma toBase64_chunk_length chunk :
  length chunk <= base64ChunkSize -> length (toBase64 chunk) <= 76.
Proof.
  intros H. rewrite toBase64_length.
  change base64ChunkSize with 57 in H.
  assert ((length chunk + 2) / 3 <= (57 + 2) / 3) by (apply Nat.Div0.div_le_mono; lia).
  change ((57 + 2) / 3) with 19 in *. lia.
Qed.

Lemma wellChunked_bound n chunks :
  wellChunked n chunks -> Forall (fun ch => length ch <= n) chunks.
Proof.
  induction chunks as [| ch rest IH]; intros H; [constructor |].
  destruct rest as [| ch' rest'].
  - constructor; [simpl in H; lia | constructor].
  - destruct H as [Hn H]. constructor; [lia | auto].
Qed.

Lemma base64Lines_within chunks :
  Forall (fun ch => length ch <= base64ChunkSize) chunks ->
  lines_within 76 (concat (map base64Line chunks)).
Proof.
  intros H.
  replace (concat (map base64Line chunks)) with (terminated (map toBase64 chunks))
    by (unfold terminated; rewrite map_map; reflexivity).
  apply terminated_within. apply Forall_map.
  eapply Forall_impl; [| exact H]. apply toBase64_chunk_length.
Qed.

Section BodyProperties.

Variable env : Env.

(** The Base64 loop reads the device in chunks of 57 bytes and writes one
    line for each. *)
Lemma copyEncoded_Base64 io :
  forall target,
  exists chunks,
    concat chunks = io /\ (io = [] -> chunks = []) /\
    wellChunked base64ChunkSize chunks /\
    copyEncoded env Base64 io target = target ++ concat (map base64Line chunks).
Proof.
  induction io as [io IH] using (induction_ltof1 _ (@length byte)).
  intros target. destruct io as [| x r].
  - exists []. simp copyEncoded. simpl. rewrite app_nil_r. auto.
  - simp copyEncoded.
    set (chunk := firstn base64ChunkSize (x :: r)).
    set (rest := skipn base64ChunkSize (x :: r)).
    assert (Hsplit : chunk ++ rest = x :: r) by apply firstn_skipn.
    assert (Hlen : length chunk = Nat.min 57 (S (length r)))
      by apply length_firstn.
    assert (Hrest : length rest = S (length r) - 57)
      by apply length_skipn.
    destruct (IH rest) with (target := target ++ toBase64 chunk ++ CRLF)
      as (chunks & Hcat & Hnil & Hwf & Heq).
    { unfold ltof. simpl length. lia. }
    exists (chunk :: chunks). repeat split.
    + simpl. rewrite Hcat. exact Hsplit.
    + discriminate.
    + destruct chunks as [| ch' chunks'].
      * change (1 <= length chunk <= 57). lia.
      * split; [| exact Hwf].
        assert (rest <> []) by (intros E; specialize (Hnil E); discriminate).
        assert (0 < length rest) by (destruct rest; [contradiction | simpl; lia]).
        change base64ChunkSize with 57. lia.
    + rewrite Heq. simpl. unfold base64Line at 2. rewrite <- !app_assoc. reflexivity.
Qed.

(** C6: when the attachment asks for Base64, [writeAttachmentBody] reads its
    data in chunks of 57 bytes (the last read returns what is left), writes
    the Base64 of each chunk followed by CRLF, and so every line of the body,
    CRLF excluded, has at most 76 characters. *)
Theorem writeAttachmentBody_base64_lines target attachment data :
  suggestedCTE env attachment = Base64 ->
  isAvailableLocally env attachment = true ->
  rawData env attachment = Some data ->
  exists chunks,
    concat chunks = data /\
    wellChunked (76 * 6 / 8) chunks /\ 76 * 6 / 8 = 57 /\
    writeAttachmentBody env target attachment
      = (Success, target ++ concat (map base64Line chunks)) /\
    lines_within 76 (concat (map base64Line chunks)).
Proof.
  intros Hcte Havail Hdata.
  destruct (copyEncoded_Base64 data target) as (chunks & Hcat & _ & Hwf & Heq).
  exists chunks. split; [exact Hcat |]. split; [exact Hwf |].
  split; [reflexivity |]. split.
  - unfold writeAttachmentBody. rewrite Havail, Hdata, Hcte. simpl. rewrite Heq.
    reflexivity.
  - apply base64Lines_within, wellChunked_bound, Hwf.
Qed.

End BodyProperties.

Lemma writeAttachmentBody_base64_lines_witness :
  exists chunks,
    concat chunks = B "report.pdf" ++ repeat "x"%byte 60 /\
    wellChunked (76 * 6 / 8) chunks /\ 76 * 6 / 8 = 57 /\
    writeAttachmentBody demoEnv [] demoFile
      = (Success, [] ++ concat (map base64Line chunks)) /\
    lines_within 76 (concat (map base64Line chunks)).
Proof.
  apply (@writeAttachmentBody_base64_lines demoEnv [] demoFile); reflexivity.
Defined.

(** ** Headers holding message-ids *)

Lemma bracketed_length id : length (bracketed id) = length id + 3.
Proof. unfold bracketed. rewrite !length_app. simpl. lia. Qed.

Lemma idLine_snoc prefix group id :
  idLine prefix (group ++ [id]) = idLine prefix group ++ bracketed id.
Proof.
  unfold idLine. rewrite map_app, concat_app. cbn [map concat].
  rewrite app_nil_r, <- app_assoc. reflexivity.
Qed.

Lemma idLine_length_ge prefix group :
  group <> [] -> 3 <= length (idLine prefix group).
Proof.
  destruct group as [| id rest]; [contradiction |]. intros _.
  unfold idLine. cbn [map concat]. rewrite !length_app, bracketed_length. lia.
Qed.

Lemma writeMsgIds_groups ids :
  forall i prefix cur target,
    i <> 0 -> cur <> [] ->
    exists g groups,
      g ++ concat groups = cur ++ ids /\
      (exists more, g = cur ++ more) /\
      writeMsgIds i ids (length (idLine prefix cur)) (target ++ idLine prefix cur) ++ CRLF
        = target ++ terminated (idLine prefix g :: map (idLine []) groups) /\
      (length (idLine prefix cur) <= 78 \/ length cur = 1 ->
       length (idLine prefix g) <= 78 \/ length g = 1) /\
      Forall (fitsOrSingle []) groups /\
      breaksNeeded (idLine prefix g) groups.
Proof.
  induction ids as [| id rest IH]; intros i prefix cur target Hi Hcur.
  - exists cur, []. split; [reflexivity |].
    split; [exists []; symmetry; apply app_nil_r |].
    split; [cbn [writeMsgIds map]; rewrite terminated_single, <- app_assoc; reflexivity |].
    split; [auto |]. split; [constructor | exact I].
  - cbn [writeMsgIds].
    pose proof (idLine_length_ge prefix Hcur) as Hge.
    destruct (negb (i =? 0) && negb (length (idLine prefix cur) =? 0)
              && (78 - 3 <? length (idLine prefix cur) + length id)) eqn:Hwrap.
    + apply andb_true_iff in Hwrap. destruct Hwrap as [_ Hover].
      apply Nat.ltb_lt in Hover.
      destruct (IH (S i) [] [id] (target ++ idLine prefix cur ++ CRLF))
        as (g & groups & Hcat & [more Hg] & Heq & Hfit & Hall & Hbreaks);
        [lia | discriminate |].
      exists cur, (g :: groups). split; [| split; [| split; [| split; [| split]]]].
      * cbn [concat]. rewrite Hcat. reflexivity.
      * exists []. symmetry. apply app_nil_r.
      * replace (((target ++ idLine prefix cur) ++ CRLF) ++ B " <" ++ id ++ B ">")
          with ((target ++ idLine prefix cur ++ CRLF) ++ idLine [] [id])
          by (unfold idLine, bracketed; cbn [map concat app];
              rewrite app_nil_r, <- !app_assoc; reflexivity).
        replace (0 + (length id + 3)) with (length (idLine [] [id]))
          by (unfold idLine; cbn [map concat app];
              rewrite app_nil_r, bracketed_length; reflexivity).
        rewrite Heq. unfold terminated. cbn [map concat].
        rewrite <- !app_assoc. reflexivity.
      * auto.
      * constructor; [| exact Hall]. split.
        -- subst g. discriminate.
        -- apply Hfit. right. reflexivity.
      * cbn [breaksNeeded]. split; [| exact Hbreaks].
        subst g. cbn [app hd]. rewrite bracketed_length. lia.
    + assert (Hfits : length (idLine prefix cur) + (length id + 3) <= 78).
      { apply andb_false_iff in Hwrap. destruct Hwrap as [Hwrap | Hwrap].
        - apply andb_false_iff in Hwrap. destruct Hwrap as [Hwrap | Hwrap].
          + apply negb_false_iff, Nat.eqb_eq in Hwrap. contradiction.
          + apply negb_false_iff, Nat.eqb_eq in Hwrap. lia.
        - apply Nat.ltb_ge in Hwrap. lia. }
      destruct (IH (S i) prefix (cur ++ [id]) target)
        as (g & groups & Hcat & [more Hg] & Heq & Hfit & Hall & Hbreaks);
        [lia | destruct cur; discriminate |].
      exists g, groups. split; [| split; [| split; [| split; [| split]]]].
      * rewrite Hcat, <- app_assoc. reflexivity.
      * exists ([id] ++ more). rewrite Hg, <- app_assoc. reflexivity.
      * rewrite <- Heq. rewrite idLine_snoc, length_app, bracketed_length.
        unfold bracketed. rewrite <- !app_assoc. reflexivity.
      * intros _. apply Hfit. left.
        rewrite idLine_snoc, length_app, bracketed_length. exact Hfits.
      * exact Hall.
      * exact Hbreaks.
Qed.






(** ** Recipients *)

Section HeaderProperties.

Variable env : Env.

Lemma groupRecipients_fold rs :
  forall acc,
    fold_left
      (fun (acc : list bytes * list bytes) (it : RecipientKind * MailAddress) =>
         let (rcptTo, rcptCc) := acc in
         match fst it with
         | ADDRESS_TO => (rcptTo ++ [asMailHeader env (snd it)], rcptCc)
         | ADDRESS_CC => (rcptTo, rcptCc ++ [asMailHeader env (snd it)])
         | ADDRESS_BCC => (rcptTo, rcptCc)
         | ADDRESS_FROM | ADDRESS_SENDER | ADDRESS_REPLY_TO => (rcptTo, rcptCc)
         end)
      (filter (fun it => negb (isBcc it)) rs) acc
    = fold_left
        (fun (acc : list bytes * list bytes) (it : RecipientKind * MailAddress) =>
           let (rcptTo, rcptCc) := acc in
           match fst it with
           | ADDRESS_TO => (rcptTo ++ [asMailHeader env (snd it)], rcptCc)
           | ADDRESS_CC => (rcptTo, rcptCc ++ [asMailHeader env (snd it)])
           | ADDRESS_BCC => (rcptTo, rcptCc)
           | ADDRESS_FROM | ADDRESS_SENDER | ADDRESS_REPLY_TO => (rcptTo, rcptCc)
           end)
        rs acc.
Proof.
  induction rs as [| [kind a] rs IH]; intros [rcptTo rcptCc]; [reflexivity |].
  destruct kind; simpl; apply IH.
Qed.

(** The grouped addresses do not depend on the Bcc recipients. *)
Lemma groupRecipients_without_bcc rs :
  groupRecipients env (filter (fun it => negb (isBcc it)) rs) = groupRecipients env rs.
Proof. unfold groupRecipients. apply groupRecipients_fold. Qed.

(** C5: two composers that differ only in their Bcc recipients write the
    same header block, so no byte of it depends on a Bcc address; and
    [rawRecipientAddresses] is the SMTP mailbox of every recipient, in order,
    those of the Bcc recipients included. *)
Theorem bcc_not_in_headers_but_in_envelope (c : MessageComposer)
  (others : list (RecipientKind * MailAddress)) (target : bytes) :
  filter (fun it => negb (isBcc it)) others
    = filter (fun it => negb (isBcc it)) (m_recipients c) ->
  writeCommonMessageBeginning env (with_recipients c others) target
    = writeCommonMessageBeginning env c target /\
  rawRecipientAddresses env (with_recipients c others)
    = map (fun it => asSMTPMailbox env (snd it)) others /\
  (forall kind a, In (kind, a) others ->
     In (asSMTPMailbox env a) (rawRecipientAddresses env (with_recipients c others))).
Proof.
  intros Hsame. repeat split.
  - unfold writeCommonMessageBeginning. cbn [with_recipients m_recipients m_from
      m_subject m_timestamp m_messageId m_inReplyTo m_references m_organization
      m_reportTrojitaVersions m_attachments m_mimeBoundary m_text].
    rewrite <- (groupRecipients_without_bcc others), Hsame, groupRecipients_without_bcc.
    reflexivity.
  - intros kind a Hin. unfold rawRecipientAddresses. cbn [with_recipients m_recipients].
    apply (in_map (fun it => asSMTPMailbox env (snd it)) others (kind, a) Hin).
Qed.

End HeaderProperties.

Lemma bcc_not_in_headers_but_in_envelope_witness :
  writeCommonMessageBeginning demoEnv
      (with_recipients demoComposer
         [(ADDRESS_BCC, demoAddress "boss" "z.com"); (ADDRESS_TO, demoAddress "b" "y.com");
          (ADDRESS_BCC, demoAddress "audit" "z.com")]) []
    = writeCommonMessageBeginning demoEnv demoComposer [] /\
  rawRecipientAddresses demoEnv
      (with_recipients demoComposer
         [(ADDRESS_BCC, demoAddress "boss" "z.com"); (ADDRESS_TO, demoAddress "b" "y.com");
          (ADDRESS_BCC, demoAddress "audit" "z.com")])
    = map (fun it => asSMTPMailbox demoEnv (snd it))
        [(ADDRESS_BCC, demoAddress "boss" "z.com"); (ADDRESS_TO, demoAddress "b" "y.com");
         (ADDRESS_BCC, demoAddress "audit" "z.com")] /\
  (forall kind a,
     In (kind, a)
       [(ADDRESS_BCC, demoAddress "boss" "z.com"); (ADDRESS_TO, demoAddress "b" "y.com");
        (ADDRESS_BCC, demoAddress "audit" "z.com")] ->
     In (asSMTPMailbox demoEnv a)
       (rawRecipientAddresses demoEnv
          (with_recipients demoComposer
             [(ADDRESS_BCC, demoAddress "boss" "z.com"); (ADDRESS_TO, demoAddress "b" "y.com");
              (ADDRESS_BCC, demoAddress "audit" "z.com")]))).
Proof.
  apply (@bcc_not_in_headers_but_in_envelope demoEnv demoComposer). reflexivity.
Defined.

(** ** The cached random strings *)

Section RandomStrings.

Variable env : Env.

Lemma with_randomStrings_same c :
  with_randomStrings c (m_messageId c) (m_mimeBoundary c) = c.
Proof. destruct c; reflexivity. Qed.

(** After [ensureRandomStrings] both strings are there. *)
Lemma ensureRandomStrings_set c seed :
  isNull (m_messageId (fst (ensureRandomStrings env c seed))) = false /\
  isNull (m_mimeBoundary (fst (ensureRandomStrings env c seed))) = false.
Proof.
  unfold ensureRandomStrings.
  destruct (m_messageId c) eqn:Hid, (m_mimeBoundary c) eqn:Hb; simpl; auto.
Qed.

(** Once both strings are there, [ensureRandomStrings] draws no UUID and
    changes nothing. *)
Lemma ensureRandomStrings_cached c seed :
  isNull (m_messageId c) = false -> isNull (m_mimeBoundary c) = false ->
  ensureRandomStrings env c seed = (c, seed).
Proof.
  intros Hid Hb. unfold ensureRandomStrings. rewrite Hid, Hb.
  rewrite with_randomStrings_same. reflexivity.
Qed.

Lemma ensureRandomStrings_idempotent c seed seed' :
  ensureRandomStrings env (fst (ensureRandomStrings env c seed)) seed'
    = (fst (ensureRandomStrings env c seed), seed').
Proof.
  destruct (ensureRandomStrings_set c seed). apply ensureRandomStrings_cached; assumption.
Qed.

(** C4: the first call of either serializer leaves a composer [c1] that holds
    both random strings; every later call of either one on [c1], whatever
    UUIDs the process has drawn in between, draws none, leaves [c1] and its
    strings as they are and returns what the first call returned. *)
Theorem randomStrings_generated_once (c : MessageComposer) (seed : nat) (target : bytes) :
  let c1 := fst (ensureRandomStrings env c seed) in
  snd (fst (asRawMessage env c seed target)) = c1 /\
  snd (fst (asCatenateData env c seed)) = c1 /\
  isNull (m_messageId c1) = false /\ isNull (m_mimeBoundary c1) = false /\
  forall seed',
    asRawMessage env c1 seed' target
      = (fst (fst (asRawMessage env c seed target)), c1, seed') /\
    asCatenateData env c1 seed'
      = (fst (fst (asCatenateData env c seed)), c1, seed').
Proof.
  intros c1. unfold asRawMessage, asCatenateData.
  destruct (ensureRandomStrings_set c seed) as [Hid Hb].
  destruct (ensureRandomStrings env c seed) as [c' s'] eqn:He.
  subst c1. cbn [fst snd] in *.
  repeat split; auto; rewrite ensureRandomStrings_cached by assumption; reflexivity.
Qed.

End RandomStrings.

(** ** The two serializers *)

Lemma backKind_snoc pre k buf : backKind (pre ++ [(k, buf)]) = k.
Proof. unfold backKind. rewrite last_last. reflexivity. Qed.

Lemma backBuffer_snoc pre k buf : backBuffer (pre ++ [(k, buf)]) = buf.
Proof. unfold backBuffer. rewrite last_last. reflexivity. Qed.

Lemma setBackBuffer_snoc pre k buf buf' :
  setBackBuffer (pre ++ [(k, buf)]) buf' = pre ++ [(k, buf')].
Proof. unfold setBackBuffer. rewrite removelast_last, backKind_snoc. reflexivity. Qed.

Lemma ensureBackIsText_snoc pre k buf :
  ensureBackIsText (pre ++ [(k, buf)])
    = beforeText pre k buf ++ [(CATENATE_TEXT, textBuffer k buf)].
Proof. unfold ensureBackIsText. rewrite backKind_snoc. destruct k; reflexivity. Qed.

Lemma alternatingKinds_snoc ks k k' :
  alternatingKinds (ks ++ [k]) -> k <> k' -> alternatingKinds (ks ++ [k] ++ [k']).
Proof.
  induction ks as [| a ks IH]; intros H Hk; [simpl; auto |].
  destruct ks as [| b ks'].
  - simpl in *. intuition.
  - change (a <> b /\ alternatingKinds ((b :: ks') ++ [k])) in H.
    change (a <> b /\ alternatingKinds ((b :: ks') ++ [k] ++ [k'])).
    destruct H. split; auto.
Qed.

Lemma alternating_snoc pre k buf k' buf' :
  alternating (pre ++ [(k, buf)]) -> k <> k' ->
  alternating ((pre ++ [(k, buf)]) ++ [(k', buf')]).
Proof.
  unfold alternating. rewrite !map_app. simpl. rewrite <- app_assoc.
  apply alternatingKinds_snoc.
Qed.

Lemma alternating_setBack pre k buf buf' :
  alternating (pre ++ [(k, buf)]) -> alternating (pre ++ [(k, buf')]).
Proof. unfold alternating. rewrite !map_app. auto. Qed.

Lemma extendsFirst_refl t : t <> [] -> extendsFirst t t.
Proof.
  destruct t as [| [k b] t]; [contradiction |]. intros _. split; auto.
  exists []. symmetry. apply app_nil_r.
Qed.

Lemma extendsFirst_trans t1 t2 t3 :
  extendsFirst t1 t2 -> extendsFirst t2 t3 -> extendsFirst t1 t3.
Proof.
  destruct t1 as [| [k1 b1] t1], t2 as [| [k2 b2] t2], t3 as [| [k3 b3] t3];
    simpl; try tauto.
  intros [E1 [m1 H1]] [E2 [m2 H2]]. split; [congruence |].
  exists (m1 ++ m2). subst. symmetry. apply app_assoc.
Qed.

Lemma extendsFirst_setBack pre k buf more :
  extendsFirst (pre ++ [(k, buf)]) (pre ++ [(k, buf ++ more)]).
Proof.
  destruct pre as [| [k0 b0] pre]; simpl.
  - split; eauto.
  - split; auto. exists []. symmetry. apply app_nil_r.
Qed.

Lemma extendsFirst_snoc t f : t <> [] -> extendsFirst t (t ++ [f]).
Proof.
  destruct t as [| [k b] t]; [contradiction |]. intros _. simpl. split; auto.
  exists []. symmetry. apply app_nil_r.
Qed.

Lemma ensureBackIsText_alternating pre k buf :
  alternating (pre ++ [(k, buf)]) ->
  alternating (beforeText pre k buf ++ [(CATENATE_TEXT, textBuffer k buf)]).
Proof.
  intros Halt. destruct k; [exact Halt |].
  apply alternating_snoc; [exact Halt | discriminate].
Qed.

Lemma ensureBackIsText_extendsFirst pre k buf :
  extendsFirst (pre ++ [(k, buf)])
    (beforeText pre k buf ++ [(CATENATE_TEXT, textBuffer k buf)]).
Proof.
  destruct k; [apply extendsFirst_refl; destruct pre; discriminate |].
  apply extendsFirst_snoc. destruct pre; discriminate.
Qed.

Lemma countUrls_app f1 f2 : countUrls (f1 ++ f2) = countUrls f1 + countUrls f2.
Proof. unfold countUrls. rewrite filter_app, length_app. reflexivity. Qed.

Lemma resolveFragments_app f1 :
  forall bodies f2 bs,
    countUrls f1 = length bodies ->
    resolveFragments (f1 ++ f2) (bodies ++ bs)
      = resolveFragments f1 bodies ++ resolveFragments f2 bs.
Proof.
  induction f1 as [| [k b] f1 IH]; intros bodies f2 bs Hcount.
  - destruct bodies; [reflexivity | discriminate].
  - destruct k.
    + simpl. rewrite IH by exact Hcount. apply app_assoc.
    + destruct bodies as [| body bodies]; [discriminate |].
      simpl. rewrite IH by (unfold countUrls in *; simpl in Hcount; lia).
      apply app_assoc.
Qed.

Lemma Resolves_app f1 bodies out1 f2 bs out2 :
  Resolves f1 bodies out1 -> Resolves f2 bs out2 ->
  Resolves (f1 ++ f2) (bodies ++ bs) (out1 ++ out2).
Proof.
  intros [Hc1 Hr1] [Hc2 Hr2]. split.
  - rewrite countUrls_app, length_app. lia.
  - rewrite resolveFragments_app by exact Hc1. congruence.
Qed.

Lemma Resolves_text text : Resolves [(CATENATE_TEXT, text)] [] text.
Proof. split; [reflexivity | simpl; apply app_nil_r]. Qed.

Lemma Resolves_snoc_inv pre k buf bodies out :
  Resolves (pre ++ [(k, buf)]) bodies out ->
  match k with
  | CATENATE_TEXT => exists out0, Resolves pre bodies out0 /\ out = out0 ++ buf
  | CATENATE_URL =>
      exists bodies0 body out0,
        bodies = bodies0 ++ [body] /\ Resolves pre bodies0 out0 /\ out = out0 ++ body
  end.
Proof.
  intros [Hc Hr]. rewrite countUrls_app in Hc. destruct k.
  - change (countUrls [(CATENATE_TEXT, buf)]) with 0 in Hc.
    exists (resolveFragments pre bodies). split; [split; [lia | reflexivity] |].
    rewrite <- Hr. rewrite <- (app_nil_r bodies) at 1.
    rewrite resolveFragments_app by lia. simpl. rewrite app_nil_r. reflexivity.
  - change (countUrls [(CATENATE_URL, buf)]) with 1 in Hc.
    destruct (exists_last (l := bodies)) as (bodies0 & body & Hb).
    { intros E. subst bodies. simpl in Hc. lia. }
    subst bodies. rewrite length_app in Hc. simpl in Hc.
    exists bodies0, body, (resolveFragments pre bodies0).
    split; [reflexivity |]. split; [split; [lia | reflexivity] |].
    rewrite <- Hr. rewrite resolveFragments_app by lia. simpl.
    rewrite app_nil_r. reflexivity.
Qed.

(** Writing to the buffer of the last text fragment. *)
Lemma Resolves_write pre buf bodies out more :
  Resolves (pre ++ [(CATENATE_TEXT, buf)]) bodies out ->
  Resolves (pre ++ [(CATENATE_TEXT, buf ++ more)]) bodies (out ++ more).
Proof.
  intros H. apply Resolves_snoc_inv in H. destruct H as (out0 & H0 & Hout). subst out.
  rewrite <- (app_nil_r bodies), <- app_assoc.
  apply Resolves_app; [exact H0 | apply Resolves_text].
Qed.

Lemma Resolves_ensureBackIsText pre k buf bodies out :
  Resolves (pre ++ [(k, buf)]) bodies out ->
  Resolves (beforeText pre k buf ++ [(CATENATE_TEXT, textBuffer k buf)]) bodies out.
Proof.
  intros H. destruct k; [exact H |]. cbn [beforeText textBuffer].
  rewrite <- (app_nil_r bodies), <- (app_nil_r out).
  apply Resolves_app; [exact H | apply Resolves_text].
Qed.

(** Appending the fragment of a remote body. *)
Lemma Resolves_url fragments bodies out url body :
  Resolves fragments bodies out ->
  Resolves (fragments ++ [(CATENATE_URL, url)]) (bodies ++ [body]) (out ++ body).
Proof.
  intros H. apply Resolves_app; [exact H |]. split; [reflexivity |].
  simpl. apply app_nil_r.
Qed.

Lemma writeMsgIds_app ids :
  forall i charCount target,
    writeMsgIds i ids charCount target = target ++ writeMsgIds i ids charCount [].
Proof.
  induction ids as [| id rest IH]; intros i charCount target.
  - simpl. symmetry. apply app_nil_r.
  - cbn [writeMsgIds]. rewrite IH. symmetry. rewrite IH.
    destruct (negb (i =? 0) && negb (charCount =? 0) && (78 - 3 <? charCount + length id));
      cbn [app]; rewrite <- ?app_assoc; reflexivity.
Qed.

Lemma writeHeaderWithMsgIds_app target headerName messageIds :
  writeHeaderWithMsgIds target headerName messageIds
    = target ++ writeHeaderWithMsgIds [] headerName messageIds.
Proof.
  unfold writeHeaderWithMsgIds. destruct (isEmpty messageIds).
  - symmetry. apply app_nil_r.
  - rewrite writeMsgIds_app. symmetry. rewrite writeMsgIds_app.
    cbn [app]. rewrite <- ?app_assoc. reflexivity.
Qed.

Section SerializerProperties.

Variable env : Env.

Lemma copyEncoded_app cte io :
  forall target, copyEncoded env cte io target = target ++ copyEncoded env cte io [].
Proof.
  induction io as [io IH] using (induction_ltof1 _ (@length byte)).
  intros target. destruct io as [| x r].
  - simp copyEncoded. symmetry. apply app_nil_r.
  - destruct cte; simp copyEncoded; try (simpl; reflexivity).
    rewrite IH.
    2:{ unfold ltof. change base64ChunkSize with 57. rewrite length_skipn. simpl. lia. }
    symmetry. rewrite IH.
    2:{ unfold ltof. change base64ChunkSize with 57. rewrite length_skipn. simpl. lia. }
    rewrite app_nil_l, <- !app_assoc. reflexivity.
Qed.

Lemma writeAttachmentBody_app target attachment :
  writeAttachmentBody env target attachment
    = (fst (writeAttachmentBody env [] attachment), target ++ inlinedBody env attachment).
Proof.
  unfold inlinedBody, writeAttachmentBody.
  destruct (isAvailableLocally env attachment); cbn [negb fst snd].
  - destruct (rawData env attachment); cbn [fst snd].
    + rewrite copyEncoded_app. reflexivity.
    + rewrite app_nil_r. reflexivity.
  - rewrite app_nil_r. reflexivity.
Qed.

Lemma writeAttachmentHeader_app c target attachment :
  writeAttachmentHeader env c target attachment
    = (fst (writeAttachmentHeader env c [] attachment),
       target ++ attachmentHeader env c attachment).
Proof.
  unfold attachmentHeader, writeAttachmentHeader.
  destruct (negb (isAvailableLocally env attachment) && isEmpty (imapUrl env attachment));
    cbn [fst snd].
  - rewrite app_nil_r. reflexivity.
  - destruct (suggestedCTE env attachment); cbn [app]; rewrite <- !app_assoc; reflexivity.
Qed.

(** The loop of [asCatenateData] keeps the fragment list alternating and
    the first fragment in place. *)
Lemma catenateAttachments_shape c attachments :
  forall pre k buf fragments,
    alternating (pre ++ [(k, buf)]) ->
    catenateAttachments env c attachments (pre ++ [(k, buf)]) = (Success, fragments) ->
    alternating fragments /\ extendsFirst (pre ++ [(k, buf)]) fragments /\
    exists pre' k' buf', fragments = pre' ++ [(k', buf')].
Proof.
  induction attachments as [| a rest IH]; intros pre k buf fragments Halt Hrun.
  - simpl in Hrun. inversion Hrun; subst. split; [exact Halt |]. split; eauto.
    apply extendsFirst_refl. destruct pre; discriminate.
  - cbn [catenateAttachments] in Hrun. rewrite ensureBackIsText_snoc in Hrun.
    assert (Halt1 := ensureBackIsText_alternating _ _ _ Halt).
    assert (Hext1 := ensureBackIsText_extendsFirst pre k buf).
    set (pre1 := beforeText pre k buf) in *. set (buf1 := textBuffer k buf) in *.
    rewrite backBuffer_snoc, writeAttachmentHeader_app in Hrun.
    destruct (fst (writeAttachmentHeader env c [] a)); [| discriminate].
    rewrite setBackBuffer_snoc in Hrun.
    destruct (isEmpty (imapUrl env a)).
    + rewrite backBuffer_snoc, writeAttachmentBody_app in Hrun.
      destruct (fst (writeAttachmentBody env [] a)); [| discriminate].
      rewrite setBackBuffer_snoc in Hrun.
      apply IH in Hrun; [| eapply alternating_setBack; exact Halt1].
      destruct Hrun as (Ha & He & Hs). split; [exact Ha |]. split; [| exact Hs].
      eapply extendsFirst_trans; [exact Hext1 |].
      eapply extendsFirst_trans; [| exact He].
      rewrite <- app_assoc. apply extendsFirst_setBack.
    + apply IH in Hrun.
      2:{ apply alternating_snoc; [| discriminate].
          eapply alternating_setBack; exact Halt1. }
      destruct Hrun as (Ha & He & Hs). split; [exact Ha |]. split; [| exact Hs].
      eapply extendsFirst_trans; [exact Hext1 |].
      eapply extendsFirst_trans; [| exact He].
      eapply extendsFirst_trans; [apply extendsFirst_setBack |].
      apply extendsFirst_snoc. destruct pre1; discriminate.
Qed.

(** C10: a successful [asCatenateData] returns a non-empty list that starts
    with a text fragment beginning with the common header block, in which no
    two neighbours have the same kind, and which is that one text fragment
    when there is no attachment. *)
Theorem asCatenateData_fragments (c : MessageComposer) (seed : nat)
  (fragments : list CatenatePair) (c1 : MessageComposer) (seed1 : nat) :
  asCatenateData env c seed = (Success, fragments, c1, seed1) ->
  fragments <> [] /\
  (exists more rest,
     fragments = (CATENATE_TEXT, writeCommonMessageBeginning env c1 [] ++ more) :: rest) /\
  alternating fragments /\
  (m_attachments c = [] ->
   fragments = [(CATENATE_TEXT, writeCommonMessageBeginning env c1 [])]).
Proof.
  unfold asCatenateData. destruct (ensureRandomStrings env c seed) as [c' s'] eqn:He.
  intros Hrun. inversion Hrun as [[Hcat Hc Hs]]. subst c1 seed1. clear Hrun.
  assert (Hatt : m_attachments c' = m_attachments c).
  { unfold ensureRandomStrings in He.
    destruct (isNull (m_messageId c)), (isNull (m_mimeBoundary c));
      inversion He; reflexivity. }
  unfold catenateData in Hcat.
  change (setBackBuffer [(CATENATE_TEXT, [])]
            (writeCommonMessageBeginning env c' (backBuffer [(CATENATE_TEXT, [])])))
    with ([] ++ [(CATENATE_TEXT, writeCommonMessageBeginning env c' [])]) in Hcat.
  rewrite Hatt in Hcat.
  destruct (m_attachments c) as [| a atts] eqn:Hlist.
  - simpl in Hcat. inversion Hcat; subst.
    split; [discriminate |].
    split; [exists [], []; rewrite app_nil_r; reflexivity |].
    split; [exact I | reflexivity].
  - cbn [isEmpty negb] in Hcat.
    destruct (catenateAttachments env c' (a :: atts)
                ([] ++ [(CATENATE_TEXT, writeCommonMessageBeginning env c' [])]))
      as [[| e] target] eqn:Hloop; [| discriminate].
    apply catenateAttachments_shape in Hloop; [| unfold alternating; simpl; exact I].
    destruct Hloop as (Halt & Hext & pre' & k' & buf' & Hshape). subst target.
    rewrite ensureBackIsText_snoc, backBuffer_snoc, setBackBuffer_snoc in Hcat.
    assert (Hfinal : exists pre2 buf2,
               fragments = pre2 ++ [(CATENATE_TEXT, buf2)] /\
               alternating (pre2 ++ [(CATENATE_TEXT, buf2)]) /\
               extendsFirst (pre' ++ [(k', buf')]) (pre2 ++ [(CATENATE_TEXT, buf2)])).
    { inversion Hcat. eexists (beforeText pre' k' buf'), _. split; [reflexivity |].
      split.
      - eapply alternating_setBack. apply ensureBackIsText_alternating. exact Halt.
      - eapply extendsFirst_trans; [apply ensureBackIsText_extendsFirst |].
        apply extendsFirst_setBack. }
    destruct Hfinal as (pre2 & buf2 & Hfr & Halt2 & Hext2).
    assert (Hext3 := extendsFirst_trans _ _ _ Hext Hext2). rewrite <- Hfr in *.
    split; [rewrite Hfr; destruct pre2; discriminate |].
    split; [| split; [exact Halt2 | discriminate]].
    destruct fragments as [| [k0 b0] rest]; [contradiction |].
    simpl in Hext3. destruct Hext3 as [Hk [more Hmore]]. subst k0 b0.
    exists more, rest. reflexivity.
Qed.

End SerializerProperties.

Section Equivalence.

Variable env : Env.

Lemma writeCommonMessageBeginning_app c target :
  writeCommonMessageBeginning env c target
    = target ++ writeCommonMessageBeginning env c [].
Proof.
  unfold writeCommonMessageBeginning.
  destruct (groupRecipients env (m_recipients c)) as [rcptTo rcptCc].
  rewrite (writeHeaderWithMsgIds_app _ (B "References")).
  rewrite (writeHeaderWithMsgIds_app _ (B "In-Reply-To")).
  symmetry.
  rewrite (writeHeaderWithMsgIds_app _ (B "References")).
  rewrite (writeHeaderWithMsgIds_app _ (B "In-Reply-To")).
  destruct (negb (isEmpty (m_organization c))), (m_reportTrojitaVersions c),
    (negb (isEmpty (m_attachments c)));
    cbn [app]; rewrite <- ?app_assoc; reflexivity.
Qed.

(** The two attachment loops write the same bytes: what the fragments stand
    for, with the remote bodies put in, is what the raw writer has written. *)
Lemma catenateAttachments_resolves c attachments :
  forall pre k buf bodies out target0 target' fragments,
    Resolves (pre ++ [(k, buf)]) bodies out ->
    rawAttachments env c attachments (target0 ++ out) = (Success, target') ->
    catenateAttachments env c attachments (pre ++ [(k, buf)]) = (Success, fragments) ->
    exists out' pre' k' buf',
      target' = target0 ++ out' /\ fragments = pre' ++ [(k', buf')] /\
      Resolves fragments (bodies ++ remoteBodies env attachments) out'.
Proof.
  induction attachments as [| a rest IH];
    intros pre k buf bodies out target0 target' fragments Hres Hraw Hcat.
  - simpl in Hraw, Hcat. inversion Hraw; inversion Hcat; subst.
    exists out, pre, k, buf. unfold remoteBodies. simpl. rewrite app_nil_r. auto.
  - cbn [rawAttachments] in Hraw. cbn [catenateAttachments] in Hcat.
    rewrite writeAttachmentHeader_app in Hraw.
    rewrite ensureBackIsText_snoc, backBuffer_snoc, writeAttachmentHeader_app in Hcat.
    apply Resolves_ensureBackIsText in Hres.
    destruct (fst (writeAttachmentHeader env c [] a)); [| discriminate].
    rewrite writeAttachmentBody_app in Hraw.
    destruct (fst (writeAttachmentBody env [] a)) eqn:Hbody; [| discriminate].
    rewrite setBackBuffer_snoc in Hcat.
    apply Resolves_write with (more := attachmentHeader env c a) in Hres.
    rewrite <- !app_assoc in Hraw.
    unfold remoteBodies, remoteAttachments. cbn [filter].
    fold (remoteAttachments env rest). fold (remoteBodies env rest).
    destruct (isEmpty (imapUrl env a)); cbn [negb map].
    + rewrite backBuffer_snoc, writeAttachmentBody_app, Hbody, setBackBuffer_snoc in Hcat.
      apply Resolves_write with (more := inlinedBody env a) in Hres.
      eapply IH; [exact Hres | | exact Hcat].
      rewrite <- !app_assoc. exact Hraw.
    + apply Resolves_url with (url := imapUrl env a) (body := inlinedBody env a) in Hres.
      destruct (IH _ _ _ _ _ target0 target' fragments Hres)
        as (out' & pre' & k' & buf' & H1 & H2 & H3).
      { rewrite <- !app_assoc. exact Hraw. }
      { exact Hcat. }
      exists out', pre', k', buf'. split; [exact H1 |]. split; [exact H2 |].
      rewrite <- app_assoc in H3. exact H3.
Qed.

Lemma remoteUrls_app f1 f2 : remoteUrls (f1 ++ f2) = remoteUrls f1 ++ remoteUrls f2.
Proof. unfold remoteUrls. rewrite filter_app, map_app. reflexivity. Qed.

Lemma remoteUrls_text pre buf : remoteUrls (pre ++ [(CATENATE_TEXT, buf)]) = remoteUrls pre.
Proof. rewrite remoteUrls_app. apply app_nil_r. Qed.

Lemma remoteUrls_ensureBackIsText pre k buf text :
  remoteUrls (beforeText pre k buf ++ [(CATENATE_TEXT, text)])
    = remoteUrls (pre ++ [(k, buf)]).
Proof.
  rewrite remoteUrls_text. destruct k; [| reflexivity].
  symmetry. apply remoteUrls_text.
Qed.

(** The [CATENATE_URL] fragments are, in order, the IMAP URLs of the remote
    attachments. *)
Lemma catenateAttachments_urls c attachments :
  forall pre k buf fragments,
    catenateAttachments env c attachments (pre ++ [(k, buf)]) = (Success, fragments) ->
    remoteUrls fragments
      = remoteUrls (pre ++ [(k, buf)])
          ++ map (imapUrl env) (remoteAttachments env attachments).
Proof.
  induction attachments as [| a rest IH]; intros pre k buf fragments Hcat.
  - simpl in Hcat. inversion Hcat; subst. simpl. symmetry. apply app_nil_r.
  - cbn [catenateAttachments] in Hcat.
    rewrite ensureBackIsText_snoc, backBuffer_snoc, writeAttachmentHeader_app in Hcat.
    destruct (fst (writeAttachmentHeader env c [] a)); [| discriminate].
    rewrite setBackBuffer_snoc in Hcat.
    unfold remoteAttachments. cbn [filter]. fold (remoteAttachments env rest).
    destruct (isEmpty (imapUrl env a)); cbn [negb map].
    + rewrite backBuffer_snoc, writeAttachmentBody_app in Hcat.
      destruct (fst (writeAttachmentBody env [] a)); [| discriminate].
      rewrite setBackBuffer_snoc in Hcat.
      rewrite (IH _ _ _ _ Hcat), remoteUrls_ensureBackIsText. reflexivity.
    + rewrite (IH _ _ _ _ Hcat), remoteUrls_app, remoteUrls_ensureBackIsText.
      rewrite <- app_assoc. reflexivity.
Qed.

Lemma catenateData_urls c fragments :
  catenateData env c = (Success, fragments) ->
  remoteUrls fragments = map (imapUrl env) (remoteAttachments env (m_attachments c)).
Proof.
  unfold catenateData. intros Hcat.
  change (setBackBuffer [(CATENATE_TEXT, [])]
            (writeCommonMessageBeginning env c (backBuffer [(CATENATE_TEXT, [])])))
    with ([] ++ [(CATENATE_TEXT, writeCommonMessageBeginning env c [])]) in Hcat.
  destruct (m_attachments c) as [| a atts] eqn:Hlist.
  - simpl in Hcat. inversion Hcat; subst. reflexivity.
  - cbn [isEmpty negb] in Hcat.
    destruct (catenateAttachments env c (a :: atts)
                ([] ++ [(CATENATE_TEXT, writeCommonMessageBeginning env c [])]))
      as [[| e] f1] eqn:Hc; [| discriminate].
    pose proof (catenateAttachments_urls _ _ _ _ _ Hc) as Hurls.
    destruct (@catenateAttachments_shape env c (a :: atts) [] CATENATE_TEXT
                (writeCommonMessageBeginning env c []) f1 I Hc)
      as (_ & _ & pre' & k' & buf' & ->).
    rewrite ensureBackIsText_snoc, backBuffer_snoc, setBackBuffer_snoc in Hcat.
    apply (f_equal snd) in Hcat. cbn [snd] in Hcat.
    rewrite <- Hcat, remoteUrls_ensureBackIsText. exact Hurls.
Qed.

(** The same for the whole message, on one composer. *)
Lemma catenateData_resolves c target target' fragments :
  rawMessage env c target = (Success, target') ->
  catenateData env c = (Success, fragments) ->
  target' = target ++ resolveFragments fragments (remoteBodies env (m_attachments c)).
Proof.
  unfold rawMessage, catenateData. intros Hraw Hcat.
  change (setBackBuffer [(CATENATE_TEXT, [])]
            (writeCommonMessageBeginning env c (backBuffer [(CATENATE_TEXT, [])])))
    with ([] ++ [(CATENATE_TEXT, writeCommonMessageBeginning env c [])]) in Hcat.
  rewrite writeCommonMessageBeginning_app in Hraw.
  destruct (m_attachments c) as [| a atts] eqn:Hlist.
  - simpl in Hraw, Hcat. inversion Hraw; inversion Hcat; subst.
    simpl. rewrite app_nil_r. reflexivity.
  - cbn [isEmpty negb] in Hraw, Hcat.
    destruct (rawAttachments env c (a :: atts)
                (target ++ writeCommonMessageBeginning env c []))
      as [[| e] t1] eqn:Hr; [| discriminate].
    destruct (catenateAttachments env c (a :: atts)
                ([] ++ [(CATENATE_TEXT, writeCommonMessageBeginning env c [])]))
      as [[| e] f1] eqn:Hc; [| discriminate].
    destruct (@catenateAttachments_resolves c (a :: atts) [] CATENATE_TEXT
                (writeCommonMessageBeginning env c []) []
                (writeCommonMessageBeginning env c []) target t1 f1)
      as (out' & pre' & k' & buf' & H1 & H2 & H3); auto.
    { split; [reflexivity |]. simpl. apply app_nil_r. }
    subst t1 f1. rewrite ensureBackIsText_snoc, backBuffer_snoc, setBackBuffer_snoc in Hcat.
    apply Resolves_ensureBackIsText in H3.
    apply Resolves_write
      with (more := CRLF ++ B "--" ++ bytesOf (m_mimeBoundary c) ++ B "--" ++ CRLF) in H3.
    destruct H3 as [_ H3]. rewrite app_nil_l in H3.
    injection Hraw as Hraw. injection Hcat as Hcat.
    rewrite <- Hraw, <- Hcat.
    apply (eq_trans
             (y := target ++ out' ++ CRLF ++ B "--" ++ bytesOf (m_mimeBoundary c)
                     ++ B "--" ++ CRLF)).
    + symmetry. apply app_assoc.
    + f_equal. symmetry. exact H3.
Qed.

(** C1: when [asRawMessage] and then [asCatenateData] succeed on a composer,
    so that both use the message-id and the boundary cached by the first
    call, the [CATENATE_URL] fragments are, in order, the IMAP URLs of the
    attachments that have one, and the bytes of the fragments in order, with
    each [CATENATE_URL] fragment replaced by the body [asRawMessage] writes
    for its attachment, are the bytes [asRawMessage] has written. *)
Theorem catenate_fragments_reproduce_raw_message (c : MessageComposer) (seed seed' : nat)
  (target target' : bytes) (c1 c2 : MessageComposer) (seed1 seed2 : nat)
  (fragments : list CatenatePair) :
  asRawMessage env c seed target = (Success, target', c1, seed1) ->
  asCatenateData env c1 seed' = (Success, fragments, c2, seed2) ->
  remoteUrls fragments = map (imapUrl env) (remoteAttachments env (m_attachments c1)) /\
  target'
    = target
        ++ resolveFragments fragments
             (map (inlinedBody env) (remoteAttachments env (m_attachments c1))) /\
  m_messageId c2 = m_messageId c1 /\ m_mimeBoundary c2 = m_mimeBoundary c1.
Proof.
  unfold asRawMessage, asCatenateData. intros Hraw Hcat.
  pose proof (ensureRandomStrings_idempotent env c seed seed') as Hidem.
  destruct (ensureRandomStrings env c seed) as [c' s'].
  inversion Hraw as [[Hr Hc Hs]]. subst c1 seed1. cbn [fst] in Hidem.
  rewrite Hidem in Hcat. inversion Hcat as [[Hf Hc2 Hs2]]. subst c2.
  split; [apply catenateData_urls; exact Hf |].
  split; [| split; reflexivity].
  eapply catenateData_resolves; eassumption.
Qed.

End Equivalence.

Lemma asCatenateData_fragments_witness :
  let r := asCatenateData demoEnv demoAttached 0 in
  let fragments := snd (fst (fst r)) in
  let c1 := snd (fst r) in
  fragments <> [] /\
  (exists more rest,
     fragments = (CATENATE_TEXT, writeCommonMessageBeginning demoEnv c1 [] ++ more) :: rest) /\
  alternating fragments /\
  (m_attachments demoAttached = [] ->
   fragments = [(CATENATE_TEXT, writeCommonMessageBeginning demoEnv c1 [])]).
Proof.
  cbv zeta.
  apply (@asCatenateData_fragments demoEnv demoAttached 0 _ _
           (snd (asCatenateData demoEnv demoAttached 0))).
  vm_compute. reflexivity.
Defined.

Lemma catenate_fragments_reproduce_raw_message_witness :
  let r := asRawMessage demoEnv demoAttached 0 [] in
  let c1 := snd (fst r) in
  let q := asCatenateData demoEnv c1 7 in
  let c2 := snd (fst q) in
  remoteUrls (snd (fst (fst q)))
    = map (imapUrl demoEnv) (remoteAttachments demoEnv (m_attachments c1)) /\
  snd (fst (fst r))
    = [] ++ resolveFragments (snd (fst (fst q)))
              (map (inlinedBody demoEnv) (remoteAttachments demoEnv (m_attachments c1))) /\
  m_messageId c2 = m_messageId c1 /\ m_mimeBoundary c2 = m_mimeBoundary c1.
Proof.
  cbv zeta.
  apply (@catenate_fragments_reproduce_raw_message demoEnv demoAttached 0 7 [] _ _ _
           (snd (asRawMessage demoEnv demoAttached 0 []))
           (snd (asCatenateData demoEnv (snd (fst (asRawMessage demoEnv demoAttached 0 []))) 7))).
  - vm_compute. reflexivity.
  - vm_compute. reflexivity.
Defined.

(** ** The data stream *)

Lemma setStatus_failed s st : failed s -> setStatus s st = s.
Proof. unfold failed, setStatus, status. intros H. rewrite H. reflexivity. Qed.

Lemma readBlock_failed n s : failed s -> failed (snd (readBlock n s)).
Proof.
  unfold readBlock. intros H. destruct (n <=? length (device s)); [exact H |].
  cbn [snd]. rewrite setStatus_failed; exact H.
Qed.

Lemma readUInt32_failed s : failed s -> failed (snd (readUInt32 s)).
Proof.
  intros H. unfold readUInt32. pose proof (readBlock_failed 4 H) as H'.
  destruct (readBlock 4 s) as [[bs |] s']; exact H'.
Qed.

Lemma readInt32_failed s : failed s -> failed (snd (readInt32 s)).
Proof.
  intros H. unfold readInt32. pose proof (readUInt32_failed H) as H'.
  destruct (readUInt32 s) as [u s']. exact H'.
Qed.

Lemma readInt32_atEnd s : atEnd s = true -> failed (snd (readInt32 s)).
Proof.
  unfold atEnd, readInt32, readUInt32, readBlock. destruct s as [dev st].
  destruct dev; [| discriminate]. intros _. cbn. unfold failed, setStatus. cbn.
  destruct st; reflexivity.
Qed.

Lemma readQString_failed s : failed s -> failed (snd (readQString s)).
Proof.
  intros H. unfold readQString. pose proof (readUInt32_failed H) as H1.
  destruct (readUInt32 s) as [nbytes s1]. cbn [snd] in H1.
  destruct (nbytes =? 4294967295)%Z; [exact H1 |].
  destruct (0 <? nbytes)%Z; [| exact H1].
  destruct (Z.odd nbytes).
  - cbn [snd]. rewrite setStatus_failed; exact H1.
  - pose proof (readBlock_failed (Z.to_nat nbytes) H1) as H2.
    destruct (readBlock (Z.to_nat nbytes) s1) as [[bs |] s2]; exact H2.
Qed.

Lemma readQByteArray_failed s : failed s -> failed (snd (readQByteArray s)).
Proof.
  intros H. unfold readQByteArray. pose proof (readUInt32_failed H) as H1.
  destruct (readUInt32 s) as [len s1]. cbn [snd] in H1.
  destruct (len =? 4294967295)%Z; [exact H1 |].
  pose proof (readBlock_failed (Z.to_nat len) H1) as H2.
  destruct (readBlock (Z.to_nat len) s1) as [[bs |] s2]; exact H2.
Qed.

(** The error an earlier read has met is put back after the list is read. *)
Lemma readUIntList_failed s : failed s -> failed (snd (readUIntList s)).
Proof.
  intros H. unfold readUIntList.
  destruct (readUInt32 (resetStatus s)) as [n s1].
  destruct (readUIntElements (Z.to_nat n) s1 []) as [l s2].
  unfold failed in H. rewrite H. exact H.
Qed.

(** ** The decoders *)

Section DecoderProperties.

Variable env : Env.
Variable m_model : Model.

Lemma validateDropImapMessage_failed s mailbox uidValidity uids :
  failed s -> validateDropImapMessage m_model s mailbox uidValidity uids = false.
Proof. unfold failed, validateDropImapMessage. intros H. rewrite H. reflexivity. Qed.

Lemma validateDropImapPart_failed s :
  failed s -> fst (fst (validateDropImapPart m_model s)) = false.
Proof.
  intros H. unfold validateDropImapPart.
  pose proof (readQString_failed H) as H1. destruct (readQString s) as [mailbox s1].
  cbn [snd] in H1.
  pose proof (readUInt32_failed H1) as H2. destruct (readUInt32 s1) as [uidValidity s2].
  cbn [snd] in H2.
  pose proof (readUInt32_failed H2) as H3. destruct (readUInt32 s2) as [uid s3].
  cbn [snd] in H3.
  pose proof (readQByteArray_failed H3) as H4. destruct (readQByteArray s3) as [path s4].
  cbn [snd] in H4. unfold failed in H4. rewrite H4. reflexivity.
Qed.

(** No exception leaves the switch: the constructors are called inside
    [try] blocks. *)
Lemma decodeRecord_returns kind s items :
  exists step, decodeRecord env m_model kind s items = Val step.
Proof.
  unfold decodeRecord.
  destruct (kind =? ATTACHMENT_IMAP_MESSAGE env)%Z.
  - destruct (readQString s) as [mailbox s1], (readUInt32 s1) as [uidValidity s2],
      (readUIntList s2) as [uids s3].
    destruct (negb (validateDropImapMessage m_model s3 mailbox uidValidity uids)); eauto.
    destruct (negb (length uids =? 1)); eauto.
    unfold new_ImapMessageAttachmentItem.
    destruct (messageExists m_model mailbox uidValidity (hd 0%Z uids)); cbn; eauto.
  - destruct (kind =? ATTACHMENT_IMAP_PART env)%Z.
    + destruct (validateDropImapPart m_model s) as [[valid s1] ref].
      destruct (negb valid); eauto.
      unfold new_ImapPartAttachmentItem.
      destruct (messageExists m_model (part_mailbox ref) (part_uidValidity ref) (part_uid ref));
        cbn; eauto.
    + destruct (kind =? ATTACHMENT_FILE env)%Z; eauto.
      destruct (readQString s) as [fileName s1]. eauto.
Qed.

Lemma decodeAttachment_returns s items :
  exists step, decodeAttachment env m_model s items = Val step.
Proof.
  unfold decodeAttachment. destruct (readInt32 s) as [kind s1]. apply decodeRecord_returns.
Qed.

Lemma decodeAttachments_returns turns :
  forall s items, exists step, decodeAttachments env m_model turns s items = Val step.
Proof.
  induction turns as [| turns IH]; intros s items; [simpl; eauto |].
  cbn [decodeAttachments]. destruct (decodeAttachment_returns s items) as [step Hstep].
  rewrite Hstep. cbn [bind]. destruct step; eauto.
Qed.

(** Once the stream has met an error, no record is accepted for insertion. *)
Lemma decodeRecord_failed kind s items :
  failed s -> failing (decodeRecord env m_model kind s items).
Proof.
  intros H. unfold decodeRecord.
  destruct (kind =? ATTACHMENT_IMAP_MESSAGE env)%Z.
  - pose proof (readQString_failed H) as H1. destruct (readQString s) as [mailbox s1].
    cbn [snd] in H1.
    pose proof (readUInt32_failed H1) as H2. destruct (readUInt32 s1) as [uidValidity s2].
    cbn [snd] in H2.
    pose proof (readUIntList_failed H2) as H3. destruct (readUIntList s2) as [uids s3].
    cbn [snd] in H3.
    rewrite validateDropImapMessage_failed by exact H3. left. reflexivity.
  - destruct (kind =? ATTACHMENT_IMAP_PART env)%Z.
    + pose proof (validateDropImapPart_failed H) as Hv.
      destruct (validateDropImapPart m_model s) as [[valid s1] ref].
      cbn [fst] in Hv. subst valid. left. reflexivity.
    + destruct (kind =? ATTACHMENT_FILE env)%Z; [| left; reflexivity].
      pose proof (readQString_failed H) as H1. destruct (readQString s) as [fileName s1].
      cbn [snd] in H1. right. eauto.
Qed.

Lemma decodeAttachment_failed s items :
  failed (recordBody s) -> failing (decodeAttachment env m_model s items).
Proof.
  unfold recordBody, decodeAttachment. destruct (readInt32 s) as [kind s1].
  apply decodeRecord_failed.
Qed.

Lemma decodeAttachments_failing turns :
  forall s items,
    failing (decodeAttachment env m_model s items) ->
    failing (decodeAttachments env m_model (S turns) s items).
Proof.
  induction turns as [| turns IH]; intros s items Hf.
  - cbn [decodeAttachments]. destruct Hf as [Hf | (s' & it & Hf & Hs)]; rewrite Hf; cbn.
    + left. reflexivity.
    + right. eauto.
  - cbn [decodeAttachments] in *. destruct Hf as [Hf | (s' & it & Hf & Hs)]; rewrite Hf.
    + left. reflexivity.
    + cbn [bind]. apply IH. apply decodeAttachment_failed. apply readInt32_failed, Hs.
Qed.

Lemma decodeAttachments_failed turns s items :
  failed s -> failing (decodeAttachments env m_model turns s items).
Proof.
  intros H. destruct turns as [| turns].
  - right. exists s, items. split; [reflexivity | exact H].
  - apply decodeAttachments_failing, decodeAttachment_failed, readInt32_failed, H.
Qed.

(** The loop after [j] turns goes on with the [k] turns that are left. *)
Lemma decodeAttachments_split j k :
  forall s items,
    decodeAttachments env m_model (j + k) s items
      = (step <- decodeAttachments env m_model j s items ;;
         match step with
         | Continue s' items' => decodeAttachments env m_model k s' items'
         | ReturnFalse => Val ReturnFalse
         end).
Proof.
  induction j as [| j IH]; intros s items; [reflexivity |].
  cbn [Nat.add decodeAttachments].
  destruct (decodeAttachment env m_model s items) as [[s' items' |] | e]; cbn [bind]; auto.
Qed.

Lemma dropAttachmentList_unfold c stream :
  dropAttachmentList env m_model c stream
    = if atEnd stream then Val (false, c)
      else if negb (Status_isOk (status (afterCount stream))) then Val (false, c)
      else if (declaredCount stream <? 0)%Z then Val (false, c)
      else
        step <- decodeAttachments env m_model (Z.to_nat (declaredCount stream))
                  (afterCount stream) [] ;;
        match step with
        | ReturnFalse => Val (false, c)
        | Continue s items =>
            if negb (CHECK_STREAM_OK_AT_END s) then Val (false, c)
            else
              Val (true,
                   endInsertRows
                     (insertItems
                        (beginInsertRows c (size c) (size c + Z.of_nat (length items) - 1))
                        items))
        end.
Proof.
  unfold dropAttachmentList, afterCount, declaredCount.
  destruct (readInt32 stream) as [num s1]. reflexivity.
Qed.

Lemma CHECK_STREAM_OK_AT_END_failed s : failed s -> CHECK_STREAM_OK_AT_END s = false.
Proof.
  unfold failed, CHECK_STREAM_OK_AT_END. intros H. rewrite H.
  destruct (atEnd s); reflexivity.
Qed.

(** A failing loop makes [dropAttachmentList] return [false] and leave the
    composer alone. *)
Lemma dropAttachmentList_failing c stream :
  failing (decodeAttachments env m_model (Z.to_nat (declaredCount stream))
             (afterCount stream) []) ->
  dropAttachmentList env m_model c stream = Val (false, c).
Proof.
  intros Hf. rewrite dropAttachmentList_unfold.
  destruct (atEnd stream); [reflexivity |].
  destruct (negb (Status_isOk (status (afterCount stream)))); [reflexivity |].
  destruct (declaredCount stream <? 0)%Z; [reflexivity |].
  destruct Hf as [Hf | (s & items & Hf & Hs)]; rewrite Hf; cbn [bind]; [reflexivity |].
  rewrite CHECK_STREAM_OK_AT_END_failed by exact Hs. reflexivity.
Qed.

(** The same when it fails at a turn the loop gets to. *)
Lemma dropAttachmentList_failing_turn c stream turns s items :
  turns < Z.to_nat (declaredCount stream) ->
  standsAt env m_model stream turns s items ->
  failing (decodeAttachment env m_model s items) ->
  dropAttachmentList env m_model c stream = Val (false, c).
Proof.
  intros Hlt Hat Hf. apply dropAttachmentList_failing.
  replace (Z.to_nat (declaredCount stream))
    with (turns + S (Z.to_nat (declaredCount stream) - S turns)) by lia.
  rewrite decodeAttachments_split. unfold standsAt in Hat. rewrite Hat. cbn [bind].
  apply decodeAttachments_failing, Hf.
Qed.

Lemma decodeAttachment_kind s items :
  decodeAttachment env m_model s items
    = decodeRecord env m_model (recordKind s) (recordBody s) items.
Proof.
  unfold decodeAttachment, recordKind, recordBody. destruct (readInt32 s); reflexivity.
Qed.

(** C2: on a payload that is malformed in any of the listed ways (empty or
    with an unreadable count, a negative count, fewer records than the
    count declares, an unknown kind tag, a record that fails its validation,
    a read error of the stream, bytes left after the records)
    [dropAttachmentList] returns [false] and the composer, its attachment
    list included, is as it was. *)
Theorem dropAttachmentList_malformed (c : MessageComposer) (stream : QDataStream) :
  Malformed env m_model stream ->
  dropAttachmentList env m_model c stream = Val (false, c).
Proof.
  intros [Hend | Hcount | Hneg | turns s items Hle Hat Hs | turns s items Hlt Hat Hend
         | turns s items Hlt Hat H1 H2 H3
         | turns s items mailbox uidValidity uids s' Hlt Hat Hk Hread Hbad
         | turns s items Hlt Hat Hk1 Hk2 Hbad | s items Hat Hleft].
  - rewrite dropAttachmentList_unfold, Hend. reflexivity.
  - rewrite dropAttachmentList_unfold, Hcount. destruct (atEnd stream); reflexivity.
  - rewrite dropAttachmentList_unfold. apply Z.ltb_lt in Hneg. rewrite Hneg.
    destruct (atEnd stream), (negb (Status_isOk (status (afterCount stream)))); reflexivity.
  - apply dropAttachmentList_failing.
    replace (Z.to_nat (declaredCount stream))
      with (turns + (Z.to_nat (declaredCount stream) - turns)) by lia.
    rewrite decodeAttachments_split. unfold standsAt in Hat. rewrite Hat. cbn [bind].
    apply decodeAttachments_failed, Hs.
  - eapply dropAttachmentList_failing_turn; try eassumption.
    apply decodeAttachment_failed. apply readInt32_atEnd, Hend.
  - eapply dropAttachmentList_failing_turn; try eassumption.
    rewrite decodeAttachment_kind. unfold decodeRecord.
    apply Z.eqb_neq in H1, H2, H3. rewrite H1, H2, H3. left. reflexivity.
  - eapply dropAttachmentList_failing_turn; try eassumption.
    rewrite decodeAttachment_kind. unfold decodeRecord.
    apply Z.eqb_eq in Hk. rewrite Hk.
    unfold readMessageList in Hread.
    destruct (readQString (recordBody s)) as [mb s1], (readUInt32 s1) as [uv s2],
      (readUIntList s2) as [us s3].
    inversion Hread; subst. left.
    destruct Hbad as [Hbad | Hbad].
    + rewrite Hbad. reflexivity.
    + destruct (negb (validateDropImapMessage m_model s' mailbox uidValidity uids));
        [reflexivity |].
      apply Nat.eqb_neq in Hbad. rewrite Hbad. reflexivity.
  - eapply dropAttachmentList_failing_turn; try eassumption.
    rewrite decodeAttachment_kind. unfold decodeRecord.
    apply Z.eqb_neq in Hk1. apply Z.eqb_eq in Hk2. rewrite Hk1, Hk2.
    destruct (validateDropImapPart m_model (recordBody s)) as [[valid s1] ref].
    cbn [fst] in Hbad. subst valid. left. reflexivity.
  - rewrite dropAttachmentList_unfold. unfold standsAt in Hat. rewrite Hat. cbn [bind].
    unfold CHECK_STREAM_OK_AT_END. rewrite Hleft.
    destruct (atEnd stream), (negb (Status_isOk (status (afterCount stream)))),
      (declaredCount stream <? 0)%Z; reflexivity.
Qed.

Lemma newMessageItems_unknown mailbox uidValidity uid uids :
  In uid uids -> messageExists m_model mailbox uidValidity uid = false ->
  forall items, newMessageItems m_model mailbox uidValidity uids items = Val None.
Proof.
  intros Hin Hgone. induction uids as [| uid0 rest IH]; [contradiction |].
  intros items. cbn [newMessageItems]. unfold new_ImapMessageAttachmentItem.
  destruct (messageExists m_model mailbox uidValidity uid0) eqn:Hthere.
  - cbn [bind try_catch]. apply IH. destruct Hin as [E | Hin]; [| exact Hin].
    subst uid0. congruence.
  - reflexivity.
Qed.

(** C8: when a payload decodes up to a reference to a message that the
    model does not hold any more, the [UnknownMessageIndex] raised by the
    constructor of the attachment is caught where it is raised: the decoder
    returns [false] (it does not raise) and the composer, its attachment list
    included, is as it was.  This holds for the three decoders. *)
Theorem unknown_message_is_a_decode_failure (format : DropFormat) (c : MessageComposer)
  (stream : QDataStream) :
  RefersToUnknownMessage env m_model format stream ->
  dropEncoded env m_model format c stream = Val (false, c).
Proof.
  intros [stream' turns s items mailbox uidValidity uid s' Hlt Hat Hk Hread Hvalid Hgone
         | stream' turns s items s' ref Hlt Hat Hk1 Hk2 Hvalid Hgone
         | stream' mailbox uidValidity uids s' uid Hread Hvalid Hcheck Hin Hgone
         | stream' s' ref Hvalid Hcheck Hgone]; cbn [dropEncoded].
  - eapply dropAttachmentList_failing_turn; try eassumption.
    rewrite decodeAttachment_kind. unfold decodeRecord.
    apply Z.eqb_eq in Hk. rewrite Hk.
    unfold readMessageList in Hread.
    destruct (readQString (recordBody s)) as [mb s1], (readUInt32 s1) as [uv s2],
      (readUIntList s2) as [us s3].
    inversion Hread; subst. rewrite Hvalid. cbn [negb length Nat.eqb hd].
    unfold new_ImapMessageAttachmentItem. rewrite Hgone. left. reflexivity.
  - eapply dropAttachmentList_failing_turn; try eassumption.
    rewrite decodeAttachment_kind. unfold decodeRecord.
    apply Z.eqb_neq in Hk1. apply Z.eqb_eq in Hk2. rewrite Hk1, Hk2, Hvalid.
    cbn [negb]. unfold new_ImapPartAttachmentItem. rewrite Hgone. left. reflexivity.
  - unfold dropImapMessage. destruct (atEnd stream'); [reflexivity |].
    unfold readMessageList in Hread.
    destruct (readQString stream') as [mb s1], (readUInt32 s1) as [uv s2],
      (readUIntList s2) as [us s3].
    inversion Hread; subst. rewrite Hvalid, Hcheck. cbn [negb].
    rewrite (newMessageItems_unknown _ _ _ _ Hin Hgone). reflexivity.
  - unfold dropImapPart. destruct (atEnd stream'); [reflexivity |].
    rewrite Hvalid, Hcheck. cbn [negb]. unfold new_ImapPartAttachmentItem.
    rewrite Hgone. reflexivity.
Qed.

Lemma decodeRecord_message kind s items :
  kind = ATTACHMENT_IMAP_MESSAGE env ->
  decodeRecord env m_model kind s items
    = let '(mailbox, uidValidity, uids, s') := readMessageList s in
      if negb (validateDropImapMessage m_model s' mailbox uidValidity uids)
      then Val ReturnFalse
      else if negb (length uids =? 1) then Val ReturnFalse
      else
        try_catch
          (item <- new_ImapMessageAttachmentItem m_model mailbox uidValidity (hd 0%Z uids) ;;
           Val (Continue s' (items ++ [item])))
          (Val ReturnFalse).
Proof.
  intros ->. unfold decodeRecord, readMessageList. rewrite Z.eqb_refl.
  destruct (readQString s) as [mailbox s1], (readUInt32 s1) as [uidValidity s2],
    (readUIntList s2) as [uids s3]. reflexivity.
Qed.

(** The turn at which a run of the record loop has returned [false]. *)
Lemma decodeAttachments_ReturnFalse turns :
  forall s items,
    decodeAttachments env m_model turns s items = Val ReturnFalse ->
    exists j s' items',
      j < turns /\
      decodeAttachments env m_model j s items = Val (Continue s' items') /\
      decodeAttachment env m_model s' items' = Val ReturnFalse.
Proof.
  induction turns as [| turns IH]; intros s items Hrun; [discriminate |].
  cbn [decodeAttachments] in Hrun.
  destruct (decodeAttachment env m_model s items) as [[s1 items1 |] | e] eqn:Hstep;
    cbn [bind] in Hrun; [| | discriminate].
  - destruct (IH _ _ Hrun) as (j & s' & items' & Hlt & Hj & Hfalse).
    exists (S j), s', items'. split; [lia |]. split; [| exact Hfalse].
    cbn [decodeAttachments]. rewrite Hstep. exact Hj.
  - exists 0, s, items. split; [lia |]. split; [reflexivity | exact Hstep].
Qed.

(** The kinds of payload of above are all there is: whenever
    [dropAttachmentList] returns [false], the payload is malformed in one of
    the listed ways or refers to a message that is not there any more. *)
Lemma dropAttachmentList_false_inv c stream c' :
  dropAttachmentList env m_model c stream = Val (false, c') ->
  Malformed env m_model stream
    \/ RefersToUnknownMessage env m_model xTrojitaAttachmentList stream.
Proof.
  rewrite dropAttachmentList_unfold.
  destruct (atEnd stream) eqn:Hend; [intros _; left; apply Malformed_empty, Hend |].
  destruct (Status_isOk (status (afterCount stream))) eqn:Hok; cbn [negb];
    [| intros _; left; apply Malformed_count_unreadable, Hok].
  destruct (declaredCount stream <? 0)%Z eqn:Hneg;
    [intros _; left; apply Malformed_negative_count, Z.ltb_lt, Hneg |].
  destruct (decodeAttachments env m_model (Z.to_nat (declaredCount stream))
              (afterCount stream) []) as [[s items |] | e] eqn:Hrun; cbn [bind];
    [| | discriminate].
  - destruct (CHECK_STREAM_OK_AT_END s) eqn:Hcheck; cbn [negb]; [discriminate |].
    intros _. left. unfold CHECK_STREAM_OK_AT_END in Hcheck.
    destruct (atEnd s) eqn:Hs.
    + apply (Malformed_read_error (turns := Z.to_nat (declaredCount stream)) (s := s)
               (items := items)); [lia | exact Hrun |].
      unfold failed. destruct (Status_isOk (status s)); [discriminate | reflexivity].
    + apply (Malformed_leftover (s := s) (items := items)); [exact Hrun | exact Hs].
  - intros _. destruct (decodeAttachments_ReturnFalse _ _ _ Hrun)
      as (j & s' & items' & Hlt & Hj & Hfalse).
    rewrite decodeAttachment_kind in Hfalse.
    destruct (recordKind s' =? ATTACHMENT_IMAP_MESSAGE env)%Z eqn:Hk1.
    + apply Z.eqb_eq in Hk1.
      rewrite decodeRecord_message in Hfalse by exact Hk1.
      destruct (readMessageList (recordBody s')) as [[[mailbox uidValidity] uids] s'']
        eqn:Hread.
      destruct (validateDropImapMessage m_model s'' mailbox uidValidity uids) eqn:Hvalid;
        cbn [negb] in Hfalse.
      * destruct (length uids =? 1) eqn:Hone; cbn [negb] in Hfalse.
        -- destruct uids as [| uid [| uid' rest]]; try discriminate.
           cbn [hd] in Hfalse. unfold new_ImapMessageAttachmentItem in Hfalse.
           destruct (messageExists m_model mailbox uidValidity uid) eqn:Hthere;
             [discriminate |].
           right. eapply Unknown_message_in_list; eassumption.
        -- left. eapply Malformed_invalid_message; try eassumption.
           right. apply Nat.eqb_neq, Hone.
      * left. eapply Malformed_invalid_message; try eassumption. left. exact Hvalid.
    + unfold decodeRecord in Hfalse. rewrite Hk1 in Hfalse. apply Z.eqb_neq in Hk1.
      destruct (recordKind s' =? ATTACHMENT_IMAP_PART env)%Z eqn:Hk2.
      * apply Z.eqb_eq in Hk2.
        destruct (validateDropImapPart m_model (recordBody s')) as [[valid s''] ref]
          eqn:Hvalid.
        destruct valid; cbn [negb] in Hfalse.
        -- unfold new_ImapPartAttachmentItem in Hfalse.
           destruct (messageExists m_model (part_mailbox ref) (part_uidValidity ref)
                       (part_uid ref)) eqn:Hthere; [discriminate |].
           right. eapply Unknown_part_in_list; eassumption.
        -- left. eapply Malformed_invalid_part; try eassumption.
           rewrite Hvalid. reflexivity.
      * apply Z.eqb_neq in Hk2.
        destruct (recordKind s' =? ATTACHMENT_FILE env)%Z eqn:Hk3.
        -- destruct (readQString (recordBody s')); discriminate.
        -- apply Z.eqb_neq in Hk3. left. eapply Malformed_unknown_kind; eassumption.
Qed.

End DecoderProperties.

Lemma dropAttachmentList_malformed_witness :
  dropAttachmentList demoEnv demoModel demoAttached (streamOf truncatedPayload)
    = Val (false, demoAttached).
Proof.
  apply dropAttachmentList_malformed.
  apply (Malformed_records_missing (env := demoEnv) (m_model := demoModel)
           (stream := streamOf truncatedPayload) (turns := 2) (s := mkStream [] Ok)
           (items := [new_FileAttachmentItem (QLatin1String "a.txt");
                      new_FileAttachmentItem (QLatin1String "b.txt")])).
  - vm_compute. lia.
  - vm_compute. reflexivity.
  - reflexivity.
Defined.

Lemma unknown_message_is_a_decode_failure_witness :
  dropEncoded demoEnv demoModel xTrojitaAttachmentList demoAttached (streamOf stalePayload)
    = Val (false, demoAttached).
Proof.
  apply unknown_message_is_a_decode_failure.
  apply (Unknown_message_in_list (env := demoEnv) (m_model := demoModel)
           (stream := streamOf stalePayload) (turns := 1)
           (s := mkStream (be32 0 ++ wireQString "INBOX" ++ be32 7 ++ be32 1 ++ be32 500) Ok)
           (items := [new_FileAttachmentItem (QLatin1String "a.txt")])
           (mailbox := QLatin1String "INBOX") (uidValidity := 7%Z) (uid := 500%Z)
           (s' := mkStream [] Ok)).
  - vm_compute. lia.
  - vm_compute. reflexivity.
  - reflexivity.
  - vm_compute. reflexivity.
  - reflexivity.
  - reflexivity.
Defined.

(** ** The attachment list and its observers *)

Ltac view_simpl :=
  cbn [beginInsertRows beginRemoveRows appendAttachment with_view with_attachments
       changes m_attachments m_shouldPreload notifications].

Section ListProperties.

Variable env : Env.
Variable m_model : Model.

Lemma insertItems_spec items :
  forall c,
    m_attachments (insertItems c items)
      = m_attachments c ++ map (fun a => if m_shouldPreload c then preload a else a) items /\
    changes (insertItems c items) = changes c /\
    notifications (insertItems c items) = notifications c.
Proof.
  induction items as [| a rest IH]; intros c.
  - simpl. rewrite app_nil_r. auto.
  - unfold insertItems in *. cbn [fold_left map].
    destruct (IH (appendAttachment c (if m_shouldPreload c then preload a else a)))
      as (Ha & Hc & Hn).
    rewrite Ha, Hc, Hn. cbn. rewrite <- app_assoc. auto.
Qed.

Lemma insertion_bracketed c items (last : Z) :
  last = (size c + Z.of_nat (length items) - 1)%Z ->
  insertedRows c
    (endInsertRows (insertItems (beginInsertRows c (size c) last) items))
    (map (fun a => if m_shouldPreload c then preload a else a) items).
Proof.
  intros ->. set (last := (size c + Z.of_nat (length items) - 1)%Z).
  destruct (insertItems_spec items (beginInsertRows c (size c) last)) as (Ha & Hc & Hn).
  cbn [beginInsertRows with_view m_attachments m_shouldPreload changes notifications]
    in Ha, Hc, Hn.
  unfold endInsertRows. rewrite Hc.
  unfold insertedRows. cbn [with_view m_attachments changes notifications].
  rewrite length_map. fold last.
  split; [exact Ha |]. split; [reflexivity |].
  unfold emit at 1. rewrite Hn. unfold emit, rowCount.
  cbn [with_view m_attachments]. rewrite <- app_assoc. reflexivity.
Qed.

(** [dropAttachmentList] returns; when it returns [false] the composer is
    as it was, and when it returns [true] the observers have seen one
    bracketed insertion. *)
Lemma dropAttachmentList_outcome c stream :
  dropAttachmentList env m_model c stream = Val (false, c) \/
  exists c' items,
    dropAttachmentList env m_model c stream = Val (true, c') /\ insertedRows c c' items.
Proof.
  rewrite dropAttachmentList_unfold.
  destruct (atEnd stream); auto.
  destruct (negb (Status_isOk (status (afterCount stream)))); auto.
  destruct (declaredCount stream <? 0)%Z; auto.
  destruct (decodeAttachments_returns env m_model (Z.to_nat (declaredCount stream))
              (afterCount stream) []) as [[s items |] Hstep]; rewrite Hstep; cbn [bind]; auto.
  destruct (negb (CHECK_STREAM_OK_AT_END s)); auto.
  right. eexists _, _. split; [reflexivity |]. apply insertion_bracketed. reflexivity.
Qed.

Lemma newMessageItems_length mailbox uidValidity uids :
  forall items items',
    newMessageItems m_model mailbox uidValidity uids items = Val (Some items') ->
    length items' = length items + length uids.
Proof.
  induction uids as [| uid rest IH]; intros items items' Hrun.
  - simpl in Hrun. inversion Hrun. simpl. lia.
  - cbn [newMessageItems] in Hrun. unfold new_ImapMessageAttachmentItem in Hrun.
    destruct (messageExists m_model mailbox uidValidity uid); [| discriminate].
    cbn [bind try_catch] in Hrun. rewrite removelast_last in Hrun.
    apply IH in Hrun. rewrite Hrun, !length_app. simpl. lia.
Qed.

Lemma newMessageItems_returns mailbox uidValidity uids :
  forall items, exists r, newMessageItems m_model mailbox uidValidity uids items = Val r.
Proof.
  induction uids as [| uid rest IH]; intros items; [simpl; eauto |].
  cbn [newMessageItems]. unfold new_ImapMessageAttachmentItem.
  destruct (messageExists m_model mailbox uidValidity uid); cbn [bind try_catch]; eauto.
Qed.

(** [dropImapMessage] and [dropImapPart] do the same. *)
Lemma dropImapMessage_outcome c stream :
  dropImapMessage m_model c stream = Val (false, c) \/
  exists c' items,
    dropImapMessage m_model c stream = Val (true, c') /\ insertedRows c c' items.
Proof.
  unfold dropImapMessage. destruct (atEnd stream); auto.
  destruct (readQString stream) as [mailbox s1], (readUInt32 s1) as [uidValidity s2],
    (readUIntList s2) as [uids s3].
  destruct (negb (validateDropImapMessage m_model s3 mailbox uidValidity uids)); auto.
  destruct (negb (CHECK_STREAM_OK_AT_END s3)); auto.
  destruct (newMessageItems_returns mailbox uidValidity uids []) as [[items |] Hrun];
    rewrite Hrun; cbn [bind]; auto.
  right. eexists _, _. split; [reflexivity |]. apply insertion_bracketed.
  apply newMessageItems_length in Hrun. simpl in Hrun. rewrite Hrun. reflexivity.
Qed.

Lemma dropImapPart_outcome c stream :
  dropImapPart m_model c stream = Val (false, c) \/
  exists c' items,
    dropImapPart m_model c stream = Val (true, c') /\ insertedRows c c' items.
Proof.
  unfold dropImapPart. destruct (atEnd stream); auto.
  destruct (validateDropImapPart m_model stream) as [[valid s1] ref].
  destruct (negb valid); auto.
  destruct (negb (CHECK_STREAM_OK_AT_END s1)); auto.
  unfold new_ImapPartAttachmentItem.
  destruct (messageExists m_model (part_mailbox ref) (part_uidValidity ref) (part_uid ref));
    cbn [bind try_catch]; auto.
  right. view_simpl.
  destruct (m_shouldPreload c); eexists _, [_]; (split; [reflexivity |]);
    unfold insertedRows, endInsertRows; view_simpl;
    rewrite ?removelast_last, ?last_last; cbn [length]; rewrite Z.add_simpl_r;
    (split; [reflexivity |]); (split; [reflexivity |]);
    unfold emit, rowCount; view_simpl.
  all: unfold emit, rowCount; rewrite <- app_assoc; reflexivity.
Qed.

(** [removeAttachment] leaves the composer alone for an index that is not
    one of its rows, and brackets the removal otherwise. *)
Lemma removeAttachment_outcome c index :
  removeAttachment c index = c \/
  exists i, row index = Z.of_nat i /\ i < length (m_attachments c) /\
            removedRow c (removeAttachment c index) i.
Proof.
  unfold removeAttachment.
  destruct (negb (isValid index) || negb (column index =? 0)%Z || (row index <? 0)%Z
            || (size c <=? row index)%Z) eqn:Hguard; auto.
  right. apply orb_false_iff in Hguard. destruct Hguard as [Hguard Hsize].
  apply orb_false_iff in Hguard. destruct Hguard as [_ Hneg].
  apply Z.ltb_ge in Hneg. apply Z.leb_gt in Hsize. unfold size in Hsize.
  exists (Z.to_nat (row index)). split; [lia |]. split; [lia |].
  unfold removedRow, endRemoveRows. cbn [beginRemoveRows with_view with_attachments
    changes m_attachments notifications].
  rewrite Z2Nat.id by lia. split; [reflexivity |]. split; [reflexivity |].
  unfold emit, rowCount. view_simpl. unfold emit, rowCount.
  rewrite <- app_assoc. reflexivity.
Qed.

(** C9: [addFileAttachment] returns whether the file attachment it has built
    can be read locally; if not, the attachment list is what it was, and if
    so, it is what it was with that one item (preloaded if the composer
    preloads) at its end. *)
Theorem addFileAttachment_result (c : MessageComposer) (path : QString) :
  let attachment := new_FileAttachmentItem path in
  let r := addFileAttachment env c path in
  fst r = isAvailableLocally env attachment /\
  m_attachments (snd r)
    = if isAvailableLocally env attachment
      then m_attachments c ++ [if m_shouldPreload c then preload attachment else attachment]
      else m_attachments c.
Proof.
  cbv zeta. unfold addFileAttachment.
  destruct (isAvailableLocally env (new_FileAttachmentItem path)); cbn [negb fst snd].
  - split; [reflexivity |]. unfold endInsertRows. cbn. reflexivity.
  - split; reflexivity.
Qed.

(** On the path where the file cannot be read, [beginInsertRows] has been
    called and [endInsertRows] is not: the observers have the announcement
    only, and the change stays open. *)
Lemma addFileAttachment_unreadable c path :
  isAvailableLocally env (new_FileAttachmentItem path) = false ->
  addFileAttachment env c path = (false, beginInsertRows c (size c) (size c)).
Proof. intros H. unfold addFileAttachment. rewrite H. reflexivity. Qed.

Lemma addFileAttachment_readable c path :
  isAvailableLocally env (new_FileAttachmentItem path) = true ->
  fst (addFileAttachment env c path) = true /\
  insertedRows c (snd (addFileAttachment env c path))
    [if m_shouldPreload c then preload (new_FileAttachmentItem path)
     else new_FileAttachmentItem path].
Proof.
  intros H. unfold addFileAttachment. rewrite H. cbn [negb fst snd]. split; [reflexivity |].
  unfold insertedRows, endInsertRows. cbn. rewrite Z.add_simpl_r.
  split; [reflexivity |]. split; [reflexivity |].
  unfold emit. rewrite <- app_assoc. reflexivity.
Qed.

End ListProperties.

(** C3 fails on [addFileAttachment]: for a file that cannot be read (here
    the one with the empty name) the observers of a composer with three
    attachments get [rowsAboutToBeInserted(3, 3)] and nothing after it, no
    row is inserted, and the change stays on the stack of open changes. *)
Theorem addFileAttachment_unreadable_leaves_insertion_open :
  addFileAttachment demoEnv demoAttached []
    = (false,
       with_view demoAttached [(3%Z, 3%Z)]
         [mkNotification (rowsAboutToBeInserted 3 3) 3]) /\
  isAvailableLocally demoEnv (new_FileAttachmentItem []) = false.
Proof. split; reflexivity. Qed.

(** * Further properties of the composer *)

(** ** When the serializers succeed, and what they write *)

Section SerializerOutcome.

Variable env : Env.

Lemma writeAttachmentHeader_succeeds c a :
  succeeded (fst (writeAttachmentHeader env c [] a))
    = isAvailableLocally env a || negb (isEmpty (imapUrl env a)).
Proof.
  unfold writeAttachmentHeader.
  destruct (isAvailableLocally env a), (isEmpty (imapUrl env a)); reflexivity.
Qed.

Lemma writeAttachmentBody_succeeds a :
  succeeded (fst (writeAttachmentBody env [] a)) = serializable env a.
Proof.
  unfold writeAttachmentBody, serializable.
  destruct (isAvailableLocally env a); [| reflexivity].
  destruct (rawData env a); reflexivity.
Qed.

Lemma writeAttachmentBody_failure a e :
  fst (writeAttachmentBody env [] a) = Failure e -> e = serializationError env a.
Proof.
  unfold writeAttachmentBody, serializationError.
  destruct (isAvailableLocally env a); cbn [negb].
  - destruct (rawData env a); cbn [fst]; [discriminate | congruence].
  - cbn [fst]. congruence.
Qed.

Lemma writeAttachmentHeader_failure c a e :
  fst (writeAttachmentHeader env c [] a) = Failure e ->
  e = serializationError env a /\ isAvailableLocally env a = false.
Proof.
  unfold writeAttachmentHeader, serializationError.
  destruct (isAvailableLocally env a); cbn [negb andb].
  - destruct (suggestedCTE env a); discriminate.
  - destruct (isEmpty (imapUrl env a)); cbn [fst].
    + split; congruence.
    + destruct (suggestedCTE env a); discriminate.
Qed.

Lemma inlinedBody_failure a :
  serializable env a = false -> inlinedBody env a = [].
Proof.
  unfold serializable, inlinedBody, writeAttachmentBody.
  destruct (isAvailableLocally env a); [| reflexivity].
  destruct (rawData env a); [discriminate | reflexivity].
Qed.

Lemma attachmentHeader_failure c a :
  isAvailableLocally env a || negb (isEmpty (imapUrl env a)) = false ->
  attachmentHeader env c a = [].
Proof.
  unfold attachmentHeader, writeAttachmentHeader.
  destruct (isAvailableLocally env a), (isEmpty (imapUrl env a)); try discriminate.
  reflexivity.
Qed.

(** The attachment loop of [asRawMessage] over attachments that can all be
    written. *)
Lemma rawAttachments_all c attachments :
  forall target,
    forallb (serializable env) attachments = true ->
    rawAttachments env c attachments target
      = (Success, target ++ concat (map (attachmentPart env c) attachments)).
Proof.
  induction attachments as [| a rest IH]; intros target Hall.
  - simpl. rewrite app_nil_r. reflexivity.
  - cbn [forallb] in Hall. apply andb_true_iff in Hall. destruct Hall as [Ha Hrest].
    cbn [rawAttachments]. rewrite writeAttachmentHeader_app.
    pose proof (writeAttachmentHeader_succeeds c a) as Hh.
    pose proof (writeAttachmentBody_succeeds a) as Hb. rewrite Ha in Hb.
    unfold serializable in Ha. apply andb_true_iff in Ha. destruct Ha as [Hav _].
    rewrite Hav in Hh. cbn [orb] in Hh.
    destruct (fst (writeAttachmentHeader env c [] a)); [| discriminate].
    rewrite writeAttachmentBody_app.
    destruct (fst (writeAttachmentBody env [] a)); [| discriminate].
    rewrite IH by exact Hrest. cbn [map concat]. unfold attachmentPart at 2.
    rewrite <- !app_assoc. reflexivity.
Qed.

(** The loop stops at the first attachment that cannot be written. *)
Lemma rawAttachments_first_failure c good a rest :
  forall target,
    forallb (serializable env) good = true ->
    serializable env a = false ->
    rawAttachments env c (good ++ a :: rest) target
      = (Failure (serializationError env a),
         target ++ concat (map (attachmentPart env c) good) ++ attachmentHeader env c a).
Proof.
  induction good as [| g good IH]; intros target Hall Hbad.
  - cbn [app rawAttachments map concat]. rewrite writeAttachmentHeader_app.
    destruct (fst (writeAttachmentHeader env c [] a)) as [| e] eqn:Hh.
    + rewrite writeAttachmentBody_app.
      pose proof (writeAttachmentBody_succeeds a) as Hb. rewrite Hbad in Hb.
      destruct (fst (writeAttachmentBody env [] a)) as [| e] eqn:Hbody; [discriminate |].
      apply writeAttachmentBody_failure in Hbody. subst e.
      rewrite inlinedBody_failure by exact Hbad. rewrite app_nil_r. reflexivity.
    + apply writeAttachmentHeader_failure in Hh. destruct Hh as [-> _]. reflexivity.
  - cbn [forallb] in Hall. apply andb_true_iff in Hall. destruct Hall as [Hg Hgood].
    change ((g :: good) ++ a :: rest) with (g :: (good ++ a :: rest)).
    cbn [rawAttachments]. rewrite writeAttachmentHeader_app.
    pose proof (writeAttachmentHeader_succeeds c g) as Hh.
    pose proof (writeAttachmentBody_succeeds g) as Hb. rewrite Hg in Hb.
    unfold serializable in Hg. apply andb_true_iff in Hg. destruct Hg as [Hav _].
    rewrite Hav in Hh. cbn [orb] in Hh.
    destruct (fst (writeAttachmentHeader env c [] g)); [| discriminate].
    rewrite writeAttachmentBody_app.
    destruct (fst (writeAttachmentBody env [] g)); [| discriminate].
    rewrite IH by assumption. cbn [map concat]. unfold attachmentPart at 2.
    rewrite <- !app_assoc. reflexivity.
Qed.

(** A list of attachments, cut at the first one that cannot be written. *)
Lemma first_unserializable attachments :
  forallb (serializable env) attachments = false ->
  exists good a rest,
    attachments = good ++ a :: rest /\
    forallb (serializable env) good = true /\ serializable env a = false.
Proof.
  induction attachments as [| x l IH]; [discriminate |].
  cbn [forallb]. destruct (serializable env x) eqn:Hx; cbn [andb].
  - intros H. destruct (IH H) as (good & a & rest & -> & Hgood & Ha).
    exists (x :: good), a, rest. repeat split; auto. cbn [forallb]. rewrite Hx. exact Hgood.
  - intros _. exists [], x, l. auto.
Qed.

Lemma ensureRandomStrings_attachments c seed :
  m_attachments (fst (ensureRandomStrings env c seed)) = m_attachments c.
Proof.
  unfold ensureRandomStrings.
  destruct (isNull (m_messageId c)), (isNull (m_mimeBoundary c)); reflexivity.
Qed.

Lemma not_ready_not_serializable attachments :
  forallb (isAvailableLocally env) attachments = false ->
  forallb (serializable env) attachments = false.
Proof.
  induction attachments as [| a l IH]; [discriminate |].
  cbn [forallb]. unfold serializable at 1.
  destruct (isAvailableLocally env a); cbn [andb]; [| reflexivity].
  intros H. rewrite (IH H). apply andb_false_r.
Qed.

Lemma serializable_catenable attachments :
  forallb (serializable env) attachments = true ->
  forallb (catenable env) attachments = true.
Proof.
  induction attachments as [| a l IH]; [reflexivity |].
  cbn [forallb]. intros H. apply andb_true_iff in H. destruct H as [Ha Hl].
  unfold catenable. rewrite Ha, orb_true_r. exact (IH Hl).
Qed.

Lemma asRawMessage_succeeded c seed target :
  succeeded (fst (fst (fst (asRawMessage env c seed target))))
    = forallb (serializable env) (m_attachments c).
Proof.
  unfold asRawMessage.
  pose proof (ensureRandomStrings_attachments c seed) as Hatt.
  destruct (ensureRandomStrings env c seed) as [c1 seed1]. cbn [fst] in *.
  unfold rawMessage. rewrite Hatt.
  destruct (m_attachments c) as [| a l] eqn:Hl; [reflexivity |].
  cbn [isEmpty negb].
  destruct (forallb (serializable env) (a :: l)) eqn:Hall.
  - rewrite rawAttachments_all by exact Hall. reflexivity.
  - destruct (first_unserializable _ Hall) as (good & x & rest & -> & Hgood & Hx).
    rewrite rawAttachments_first_failure by assumption. reflexivity.
Qed.

(** X1: [asRawMessage] succeeds exactly when every attachment is available
    locally and its data source opens; so whenever it succeeds,
    [isReadyForSerialization] has said yes. *)
Theorem asRawMessage_succeeds_iff (c : MessageComposer) (seed : nat) (target : bytes) :
  succeeded (fst (fst (fst (asRawMessage env c seed target))))
    = forallb (serializable env) (m_attachments c) /\
  implb (succeeded (fst (fst (fst (asRawMessage env c seed target)))))
    (isReadyForSerialization env c) = true.
Proof.
  split; [apply asRawMessage_succeeded |].
  rewrite asRawMessage_succeeded. unfold isReadyForSerialization.
  destruct (forallb (isAvailableLocally env) (m_attachments c)) eqn:Hready.
  - apply implb_true_r.
  - rewrite not_ready_not_serializable by exact Hready. reflexivity.
Qed.

(** X2: a raw message that has been written is the bytes that were in the
    target, the common beginning, the MIME part of each attachment in the
    order of the list, and, if there is an attachment, the closing
    boundary. *)
Theorem asRawMessage_layout (c : MessageComposer) (seed : nat) (target target' : bytes)
  (c1 : MessageComposer) (seed1 : nat) :
  asRawMessage env c seed target = (Success, target', c1, seed1) ->
  target'
    = target ++ writeCommonMessageBeginning env c1 []
        ++ concat (map (attachmentPart env c1) (m_attachments c))
        ++ (if isEmpty (m_attachments c) then [] else closingBoundary c1).
Proof.
  unfold asRawMessage.
  pose proof (ensureRandomStrings_attachments c seed) as Hatt.
  destruct (ensureRandomStrings env c seed) as [c' s']. cbn [fst] in Hatt.
  intros Hrun. inversion Hrun as [[Hraw Hc Hs]]. subst c1 seed1. clear Hrun.
  unfold rawMessage in Hraw. rewrite Hatt in Hraw.
  rewrite writeCommonMessageBeginning_app in Hraw.
  destruct (m_attachments c) as [| a l] eqn:Hl.
  - cbn [isEmpty negb] in Hraw. apply (f_equal snd) in Hraw. cbn [snd] in Hraw.
    rewrite <- Hraw. cbn [map concat isEmpty]. rewrite !app_nil_r. reflexivity.
  - cbn [isEmpty negb] in Hraw.
    destruct (forallb (serializable env) (a :: l)) eqn:Hall.
    + rewrite rawAttachments_all in Hraw by exact Hall.
      apply (f_equal snd) in Hraw. cbn [snd] in Hraw. rewrite <- Hraw.
      unfold closingBoundary. rewrite <- !app_assoc. reflexivity.
    + destruct (first_unserializable _ Hall) as (good & x & rest & E & Hgood & Hx).
      rewrite E in Hraw. rewrite rawAttachments_first_failure in Hraw by assumption.
      discriminate.
Qed.

(** X3: [asRawMessage] fails at the first attachment that cannot be written
    and names it: "not available" if it is not at hand, "disappeared" if its
    data source does not open.  What was written before stays in the target:
    the common beginning, the parts of the attachments before it, and the
    header of the failing attachment itself unless that one has neither
    local data nor an IMAP URL. *)
Theorem asRawMessage_first_failure (c : MessageComposer) (seed : nat) (target : bytes)
  (good : list AttachmentItem) (a : AttachmentItem) (rest : list AttachmentItem) :
  m_attachments c = good ++ a :: rest ->
  forallb (serializable env) good = true ->
  serializable env a = false ->
  let c1 := fst (ensureRandomStrings env c seed) in
  fst (fst (asRawMessage env c seed target))
    = (Failure (if isAvailableLocally env a then AttachmentDisappeared (caption env a)
                else AttachmentNotAvailable (caption env a)),
       target ++ writeCommonMessageBeginning env c1 []
         ++ concat (map (attachmentPart env c1) good)
         ++ (if isAvailableLocally env a || negb (isEmpty (imapUrl env a))
             then attachmentHeader env c1 a else [])).
Proof.
  intros Hl Hgood Ha. cbv zeta. unfold asRawMessage.
  pose proof (ensureRandomStrings_attachments c seed) as Hatt.
  destruct (ensureRandomStrings env c seed) as [c' s']. cbn [fst] in *.
  unfold rawMessage. rewrite Hatt, Hl.
  replace (negb (isEmpty (good ++ a :: rest))) with true by (destruct good; reflexivity).
  rewrite writeCommonMessageBeginning_app.
  rewrite rawAttachments_first_failure by assumption.
  fold (serializationError env a).
  destruct (isAvailableLocally env a || negb (isEmpty (imapUrl env a))) eqn:Hh.
  - rewrite <- !app_assoc. reflexivity.
  - rewrite attachmentHeader_failure by exact Hh. rewrite <- !app_assoc. reflexivity.
Qed.

(** The attachment loop of [asCatenateData] succeeds on what can be
    referred to or inlined. *)
Lemma catenateAttachments_succeeds c attachments :
  forall pre k buf,
    succeeded (fst (catenateAttachments env c attachments (pre ++ [(k, buf)])))
      = forallb (catenable env) attachments.
Proof.
  induction attachments as [| a rest IH]; intros pre k buf; [reflexivity |].
  cbn [catenateAttachments forallb].
  rewrite ensureBackIsText_snoc, backBuffer_snoc, writeAttachmentHeader_app.
  pose proof (writeAttachmentHeader_succeeds c a) as Hh.
  pose proof (writeAttachmentBody_succeeds a) as Hb.
  unfold catenable, serializable in *.
  destruct (fst (writeAttachmentHeader env c [] a)); cbn [succeeded] in Hh.
  - rewrite setBackBuffer_snoc.
    destruct (isEmpty (imapUrl env a)); cbn [negb orb].
    + rewrite backBuffer_snoc, writeAttachmentBody_app.
      destruct (fst (writeAttachmentBody env [] a)); cbn [succeeded] in Hb.
      * rewrite setBackBuffer_snoc, IH, <- Hb. reflexivity.
      * rewrite <- Hb. reflexivity.
    + rewrite IH. reflexivity.
  - destruct (isAvailableLocally env a); [discriminate |].
    destruct (isEmpty (imapUrl env a)); [reflexivity | discriminate].
Qed.

(** X4: [asCatenateData] succeeds exactly when every attachment has an IMAP
    URL or else is available locally with a data source that opens; so it
    succeeds whenever [asRawMessage] does, and also on attachments that are
    not at hand but can be referred to. *)
Theorem asCatenateData_succeeds_iff (c : MessageComposer) (seed : nat) (target : bytes) :
  succeeded (fst (fst (fst (asCatenateData env c seed))))
    = forallb (catenable env) (m_attachments c) /\
  implb (succeeded (fst (fst (fst (asRawMessage env c seed target)))))
    (succeeded (fst (fst (fst (asCatenateData env c seed))))) = true.
Proof.
  assert (Hmain : succeeded (fst (fst (fst (asCatenateData env c seed))))
                  = forallb (catenable env) (m_attachments c)).
  { unfold asCatenateData.
    pose proof (ensureRandomStrings_attachments c seed) as Hatt.
    destruct (ensureRandomStrings env c seed) as [c1 seed1]. cbn [fst] in *.
    unfold catenateData. rewrite Hatt.
    change (setBackBuffer [(CATENATE_TEXT, [])]
              (writeCommonMessageBeginning env c1 (backBuffer [(CATENATE_TEXT, [])])))
      with ([] ++ [(CATENATE_TEXT, writeCommonMessageBeginning env c1 [])]).
    destruct (m_attachments c) as [| a l] eqn:Hl; [reflexivity |].
    cbn [isEmpty negb].
    rewrite <- (catenateAttachments_succeeds c1 (a :: l) []
                  CATENATE_TEXT (writeCommonMessageBeginning env c1 [])).
    destruct (catenateAttachments env c1 (a :: l)
                ([] ++ [(CATENATE_TEXT, writeCommonMessageBeginning env c1 [])]))
      as [[| e] t]; reflexivity. }
  split; [exact Hmain |].
  rewrite Hmain, asRawMessage_succeeded.
  destruct (forallb (serializable env) (m_attachments c)) eqn:Hall; [| reflexivity].
  rewrite serializable_catenable by exact Hall. reflexivity.
Qed.

End SerializerOutcome.

Lemma asRawMessage_layout_witness :
  let r := asRawMessage demoEnv demoAttached 0 [] in
  let c1 := snd (fst r) in
  snd (fst (fst r))
    = [] ++ writeCommonMessageBeginning demoEnv c1 []
        ++ concat (map (attachmentPart demoEnv c1) (m_attachments demoAttached))
        ++ (if isEmpty (m_attachments demoAttached) then [] else closingBoundary c1).
Proof.
  cbv zeta.
  apply (@asRawMessage_layout demoEnv demoAttached 0 [] _ _
           (snd (asRawMessage demoEnv demoAttached 0 []))).
  vm_compute. reflexivity.
Defined.

Lemma asRawMessage_first_failure_witness :
  let c1 := fst (ensureRandomStrings demoEnv demoBroken 0) in
  fst (fst (asRawMessage demoEnv demoBroken 0 []))
    = (Failure (if isAvailableLocally demoEnv (new_FileAttachmentItem [])
                then AttachmentDisappeared (caption demoEnv (new_FileAttachmentItem []))
                else AttachmentNotAvailable (caption demoEnv (new_FileAttachmentItem []))),
       [] ++ writeCommonMessageBeginning demoEnv c1 []
         ++ concat (map (attachmentPart demoEnv c1) [demoFile])
         ++ (if isAvailableLocally demoEnv (new_FileAttachmentItem [])
                || negb (isEmpty (imapUrl demoEnv (new_FileAttachmentItem [])))
             then attachmentHeader demoEnv c1 (new_FileAttachmentItem []) else [])).
Proof.
  apply (@asRawMessage_first_failure demoEnv demoBroken 0 [] [demoFile]
           (new_FileAttachmentItem []) [demoMessage]); reflexivity.
Defined.

(** ** Attachment bodies *)

Lemma b64digit_not_CR n : b64digit n <> CR.
Proof.
  unfold b64digit.
  destruct (nth_in_or_default (N.to_nat n) b64alphabet b64pad) as [Hin | Hd].
  - assert (Hall : forallb (fun b => negb (Byte.eqb b CR)) b64alphabet = true)
      by reflexivity.
    rewrite forallb_forall in Hall. specialize (Hall _ Hin).
    intros E. rewrite E in Hall. discriminate.
  - rewrite Hd. discriminate.
Qed.

Lemma toBase64_no_CR s : ~ In CR (toBase64 s).
Proof.
  induction s as [| x | x y | x y z r IH] using list_ind3.
  - intros [].
  - cbn [toBase64]. intros [H | [H | [H | [H | []]]]];
      solve [eapply b64digit_not_CR; eauto | discriminate].
  - cbn [toBase64]. intros [H | [H | [H | [H | []]]]];
      solve [eapply b64digit_not_CR; eauto | discriminate].
  - cbn [toBase64]. intros [H | [H | [H | [H | H]]]];
      solve [eapply b64digit_not_CR; eauto | exact (IH H)].
Qed.

Lemma lines_no_CR s : ~ In CR s -> lines s = [s].
Proof.
  induction s as [| x | x y r IHr IHyr] using list_ind2; intros H.
  - reflexivity.
  - reflexivity.
  - rewrite lines_cons2. unfold isCRLF.
    destruct (Byte.eqb x CR) eqn:E.
    + apply Byte.byte_dec_bl in E. exfalso. apply H. left. exact E.
    + cbn [andb]. rewrite IHyr; [reflexivity |]. intros Hin. apply H. right. exact Hin.
Qed.

Lemma lines_terminated ls :
  Forall (fun l => ~ In CR l) ls -> lines (terminated ls) = ls ++ [[]].
Proof.
  induction 1 as [| l rest Hl Hrest IH]; [reflexivity |].
  unfold terminated in *. cbn [map concat]. rewrite <- app_assoc.
  change (l ++ CRLF ++ concat (map (fun l0 : list byte => l0 ++ CRLF) rest))
    with (l ++ CR :: LF :: concat (map (fun l0 : list byte => l0 ++ CRLF) rest)).
  rewrite lines_app_CRLF, IH, lines_no_CR by exact Hl. reflexivity.
Qed.

Lemma removelast_map {A B} (f : A -> B) l : removelast (map f l) = map f (removelast l).
Proof.
  induction l as [| a l IH]; [reflexivity |].
  destruct l as [| b l']; [reflexivity |].
  change (removelast (map f (a :: b :: l'))) with (f a :: removelast (map f (b :: l'))).
  rewrite IH. reflexivity.
Qed.

Lemma wellChunked_count n chunks :
  0 < n -> wellChunked n chunks ->
  length chunks = (length (concat chunks) + (n - 1)) / n /\
  Forall (fun ch => length ch = n) (removelast chunks).
Proof.
  intros Hn. induction chunks as [| ch rest IH]; intros Hwf.
  - split; [| constructor]. simpl. symmetry. apply Nat.div_small. lia.
  - destruct rest as [| ch' rest'].
    + cbn [wellChunked] in Hwf. split; [| constructor].
      cbn [concat length]. rewrite app_nil_r.
      apply Nat.div_unique with (r := length ch - 1); lia.
    + destruct Hwf as [Hlen Hwf]. destruct (IH Hwf) as [Hcount Hfull].
      split.
      * change (length (ch :: ch' :: rest')) with (S (length (ch' :: rest'))).
        rewrite Hcount.
        change (concat (ch :: ch' :: rest')) with (ch ++ concat (ch' :: rest')).
        rewrite (length_app ch), Hlen.
        replace (n + length (concat (ch' :: rest')) + (n - 1))
          with (1 * n + (length (concat (ch' :: rest')) + (n - 1))) by lia.
        rewrite Nat.div_add_l by lia. reflexivity.
      * change (removelast (ch :: ch' :: rest')) with (ch :: removelast (ch' :: rest')).
        constructor; assumption.
Qed.

Section BodyEncodings.

Variable env : Env.

(** X5: the body of a Base64 attachment is made of one line for each 57
    bytes of data or part thereof: the data is cut into chunks of exactly 57
    bytes, but for the last, which holds the 1 to 57 bytes that are left, and
    each line is the Base64 of its chunk and nothing else.  Every line but
    the last has exactly 76 characters and the last has at most 76; every
    line is followed by a line break, and nothing follows the last. *)
Theorem base64_body_lines (attachment : AttachmentItem) (data : bytes) :
  suggestedCTE env attachment = Base64 ->
  isAvailableLocally env attachment = true ->
  rawData env attachment = Some data ->
  exists chunks,
    concat chunks = data /\
    wellChunked 57 chunks /\
    length chunks = (length data + 56) / 57 /\
    lines (inlinedBody env attachment) = map toBase64 chunks ++ [[]] /\
    Forall (fun l => length l = 76) (removelast (map toBase64 chunks)) /\
    Forall (fun l => length l <= 76) (map toBase64 chunks).
Proof.
  intros Hcte Havail Hdata.
  destruct (copyEncoded_Base64 env data []) as (chunks & Hcat & _ & Hwf & Heq).
  change base64ChunkSize with 57 in Hwf.
  destruct (@wellChunked_count 57 chunks) as [Hcount Hfull]; [lia | exact Hwf |].
  exists chunks. split; [exact Hcat |]. split; [exact Hwf |].
  split; [rewrite <- Hcat; exact Hcount |]. split; [| split].
  3: { apply Forall_map. eapply Forall_impl; [| exact (@wellChunked_bound 57 chunks Hwf)].
       cbn beta. intros ch Hlen. apply toBase64_chunk_length. exact Hlen. }
  - unfold inlinedBody, writeAttachmentBody. rewrite Havail, Hdata, Hcte. cbn [negb snd].
    rewrite Heq. cbn [app].
    replace (concat (map base64Line chunks)) with (terminated (map toBase64 chunks))
      by (unfold terminated; rewrite map_map; reflexivity).
    apply lines_terminated. apply Forall_map, Forall_forall. intros ch _.
    apply toBase64_no_CR.
  - rewrite removelast_map. apply Forall_map.
    eapply Forall_impl; [| exact Hfull]. cbn beta. intros ch Hlen.
    rewrite toBase64_length, Hlen. reflexivity.
Qed.

(** X6: with the 7bit, 8bit and binary encodings the body is the data, byte
    for byte; with quoted-printable it is the encoding of the whole data,
    and the encoder is not called at all for data of no bytes. *)
Theorem unencoded_body (target : bytes) (attachment : AttachmentItem) (data : bytes) :
  isAvailableLocally env attachment = true ->
  rawData env attachment = Some data ->
  suggestedCTE env attachment <> Base64 ->
  writeAttachmentBody env target attachment
    = (Success,
       target ++ match suggestedCTE env attachment with
                 | QuotedPrintable =>
                     if isEmpty data then [] else quotedPrintableEncode env data
                 | _ => data
                 end).
Proof.
  intros Havail Hdata Hcte. unfold writeAttachmentBody. rewrite Havail, Hdata. cbn [negb].
  f_equal. destruct data as [| x r].
  - simp copyEncoded.
    destruct (suggestedCTE env attachment); symmetry; apply app_nil_r.
  - destruct (suggestedCTE env attachment); [contradiction | | | |];
      simp copyEncoded; reflexivity.
Qed.

End BodyEncodings.

Lemma base64_body_lines_witness :
  exists chunks,
    concat chunks = B "report.pdf" ++ repeat "x"%byte 60 /\
    wellChunked 57 chunks /\
    length chunks = (length (B "report.pdf" ++ repeat "x"%byte 60) + 56) / 57 /\
    lines (inlinedBody demoEnv demoFile) = map toBase64 chunks ++ [[]] /\
    Forall (fun l => length l = 76) (removelast (map toBase64 chunks)) /\
    Forall (fun l => length l <= 76) (map toBase64 chunks).
Proof.
  apply (@base64_body_lines demoEnv demoFile); reflexivity.
Defined.

Lemma unencoded_body_witness :
  writeAttachmentBody demoEnv [] demoMessage
    = (Success,
       [] ++ match suggestedCTE demoEnv demoMessage with
             | QuotedPrintable =>
                 if isEmpty (B "message in INBOX") then []
                 else quotedPrintableEncode demoEnv (B "message in INBOX")
             | _ => B "message in INBOX"
             end).
Proof.
  apply (@unencoded_body demoEnv [] demoMessage); [reflexivity | reflexivity | discriminate].
Defined.

(** ** The recipient headers *)

Section RecipientHeaders.

Variable env : Env.

Lemma groupRecipients_acc rs :
  forall rcptTo rcptCc,
    fold_left
      (fun (acc : list bytes * list bytes) (it : RecipientKind * MailAddress) =>
         let (rcptTo, rcptCc) := acc in
         match fst it with
         | ADDRESS_TO => (rcptTo ++ [asMailHeader env (snd it)], rcptCc)
         | ADDRESS_CC => (rcptTo, rcptCc ++ [asMailHeader env (snd it)])
         | ADDRESS_BCC => (rcptTo, rcptCc)
         | ADDRESS_FROM | ADDRESS_SENDER | ADDRESS_REPLY_TO => (rcptTo, rcptCc)
         end)
      rs (rcptTo, rcptCc)
    = (rcptTo ++ addressesOf env ADDRESS_TO rs, rcptCc ++ addressesOf env ADDRESS_CC rs).
Proof.
  induction rs as [| [kind a] rs IH]; intros rcptTo rcptCc.
  - unfold addressesOf. simpl. rewrite !app_nil_r. reflexivity.
  - cbn [fold_left fst snd]. unfold addressesOf in *.
    destruct kind; rewrite IH; cbn [filter fst snd RecipientKind_eqb map];
      rewrite <- ?app_assoc; reflexivity.
Qed.

Lemma joinAddresses addresses :
  forall out a,
    fold_left (fun out x => out ++ x ++ B "," ++ CRLF ++ B " ")
      (firstn (length addresses) (a :: addresses)) out
      ++ last (a :: addresses) [] ++ CRLF
    = out ++ a ++ concat (map (fun x => B "," ++ CRLF ++ B " " ++ x) addresses) ++ CRLF.
Proof.
  induction addresses as [| b rest IH]; intros out a.
  - reflexivity.
  - change (firstn (length (b :: rest)) (a :: b :: rest))
      with (a :: firstn (length rest) (b :: rest)).
    change (last (a :: b :: rest) []) with (last (b :: rest) []).
    cbn [fold_left]. rewrite IH. cbn [map concat]. rewrite <- !app_assoc. reflexivity.
Qed.

(** X7: the recipients are grouped by kind, each group in the order of the
    list: the To and the Cc addresses are the header forms of the recipients
    of that kind and no others; a group that is not empty is written as one
    header, the addresses separated by a comma and a folding line break, and
    an empty group as nothing. *)
Theorem recipients_grouped_in_order (rs : list (RecipientKind * MailAddress))
  (prefix : bytes) (addresses : list bytes) (out : bytes) :
  groupRecipients env rs = (addressesOf env ADDRESS_TO rs, addressesOf env ADDRESS_CC rs) /\
  processListOfRecipientsIntoHeader prefix addresses out
    = out ++ addressHeader prefix addresses.
Proof.
  split.
  - unfold groupRecipients. apply (groupRecipients_acc rs [] []).
  - unfold processListOfRecipientsIntoHeader, addressHeader.
    destruct addresses as [| a rest]; cbn [isEmpty negb].
    + symmetry. apply app_nil_r.
    + replace (length (a :: rest) - 1) with (length rest) by (simpl; lia).
      etransitivity; [exact (joinAddresses rest (out ++ prefix) a) |].
      rewrite <- !app_assoc. reflexivity.
Qed.

End RecipientHeaders.

(** ** Folding of the message-id headers *)

(** X8: a header of message-ids is written as lines that each hold whole
    ids: the first starts with the header name and the colon, and every
    further one starts with the blank before its first id, which makes it a
    continuation line.  The ids keep their order, a line with two or more
    ids never exceeds 78 characters, and a line break is only put where the
    next id would have taken the line over 78 characters. *)
Theorem writeHeaderWithMsgIds_folding (target headerName id0 : bytes) (ids : list bytes) :
  exists g groups,
    g ++ concat groups = id0 :: ids /\
    writeHeaderWithMsgIds target headerName (id0 :: ids)
      = target ++ terminated (idLine (headerName ++ B ":") g :: map (idLine []) groups) /\
    fitsOrSingle (headerName ++ B ":") g /\
    Forall (fitsOrSingle []) groups /\
    breaksNeeded (idLine (headerName ++ B ":") g) groups.
Proof.
  destruct (@writeMsgIds_groups ids 1 (headerName ++ B ":") [id0] target)
    as (g & groups & Hcat & [more Hg] & Heq & Hfit & Hall & Hbreaks);
    [lia | discriminate |].
  exists g, groups. split; [exact Hcat |]. split; [| split; [| split]].
  - unfold writeHeaderWithMsgIds. cbn [isEmpty writeMsgIds Nat.eqb negb andb].
    rewrite <- Heq. unfold idLine. cbn [map concat].
    rewrite app_nil_r, !length_app, bracketed_length.
    unfold bracketed. rewrite <- !app_assoc. reflexivity.
  - split; [subst g; discriminate | apply Hfit; right; reflexivity].
  - exact Hall.
  - exact Hbreaks.
Qed.

(** ** The random strings *)

Lemma remove_byte_gone c s : ~ In c (remove_byte c s).
Proof.
  unfold remove_byte. intros H. apply filter_In in H. destruct H as [_ H].
  assert (E : Byte.eqb c c = true) by (apply Byte.byte_dec_lb; reflexivity).
  rewrite E in H. discriminate.
Qed.

Lemma remove_byte_keeps_out c d s : ~ In c s -> ~ In c (remove_byte d s).
Proof. unfold remove_byte. intros H Hin. apply filter_In in Hin. tauto. Qed.

(** X9: on a composer that has neither string yet, [ensureRandomStrings]
    draws two UUIDs, one for each string.  The message-id is the first one
    without its braces, an at sign and a domain that is never empty: the host
    of the sender, or localhost if the sender has none.  The boundary is
    [trojita=_] and the second UUID without its braces. *)
Theorem fresh_random_strings (env : Env) (c : MessageComposer) (seed : nat) :
  m_messageId c = None -> m_mimeBoundary c = None ->
  let domain :=
    if isEmpty (toUtf8 env (host (m_from c))) then B "localhost"
    else toUtf8 env (host (m_from c)) in
  let c1 := fst (ensureRandomStrings env c seed) in
  snd (ensureRandomStrings env c seed) = seed + 2 /\
  m_messageId c1 = Some (bareUuid env seed ++ B "@" ++ domain) /\
  m_mimeBoundary c1 = Some (B "trojita=_" ++ bareUuid env (seed + 1)) /\
  domain <> [] /\
  (forall draw, ~ In "{"%byte (bareUuid env draw) /\ ~ In "}"%byte (bareUuid env draw)).
Proof.
  intros Hid Hb. cbv zeta. unfold ensureRandomStrings. rewrite Hid, Hb. cbn [isNull fst snd].
  cbn [with_randomStrings m_messageId m_mimeBoundary].
  replace (S seed) with (seed + 1) by lia. replace (S (seed + 1)) with (seed + 2) by lia.
  split; [reflexivity |]. split; [reflexivity |]. split; [reflexivity |]. split.
  - destruct (toUtf8 env (host (m_from c))); discriminate.
  - intros draw. unfold bareUuid. split.
    + apply remove_byte_keeps_out, remove_byte_gone.
    + apply remove_byte_gone.
Qed.

Lemma fresh_random_strings_witness :
  let domain :=
    if isEmpty (toUtf8 demoEnv (host (m_from demoComposer))) then B "localhost"
    else toUtf8 demoEnv (host (m_from demoComposer)) in
  let c1 := fst (ensureRandomStrings demoEnv demoComposer 5) in
  snd (ensureRandomStrings demoEnv demoComposer 5) = 5 + 2 /\
  m_messageId c1 = Some (bareUuid demoEnv 5 ++ B "@" ++ domain) /\
  m_mimeBoundary c1 = Some (B "trojita=_" ++ bareUuid demoEnv (5 + 1)) /\
  domain <> [] /\
  (forall draw, ~ In "{"%byte (bareUuid demoEnv draw) /\ ~ In "}"%byte (bareUuid demoEnv draw)).
Proof.
  apply (@fresh_random_strings demoEnv demoComposer 5); reflexivity.
Defined.

(** ** What the decoders accept *)

Section AcceptedDrops.

Variable env : Env.
Variable m_model : Model.

Lemma validateDropImapMessage_true s mailbox uidValidity uids :
  validateDropImapMessage m_model s mailbox uidValidity uids = true ->
  Status_isOk (status s) = true /\ findMailboxByName m_model mailbox = true /\
  uids <> [] /\ (uidValidity =? 0)%Z = false.
Proof.
  unfold validateDropImapMessage.
  destruct (Status_isOk (status s)); cbn [negb]; [| discriminate].
  destruct (findMailboxByName m_model mailbox); cbn [negb]; [| discriminate].
  destruct uids as [| u us]; cbn [length Nat.ltb Nat.leb]; [discriminate |].
  destruct (uidValidity =? 0)%Z; [discriminate |].
  intros _. repeat split; auto. discriminate.
Qed.

Lemma validateDropImapPart_true s s' ref :
  validateDropImapPart m_model s = (true, s', ref) ->
  Status_isOk (status s') = true /\ findMailboxByName m_model (part_mailbox ref) = true /\
  (part_uidValidity ref =? 0)%Z = false /\ (part_uid ref =? 0)%Z = false /\
  isEmpty (part_trojitaPath ref) = false.
Proof.
  unfold validateDropImapPart.
  destruct (readQString s) as [mailbox s1], (readUInt32 s1) as [uidValidity s2],
    (readUInt32 s2) as [uid s3], (readQByteArray s3) as [path s4].
  destruct (Status_isOk (status s4)) eqn:Hok; cbn [negb]; [| discriminate].
  destruct (findMailboxByName m_model mailbox) eqn:Hmb; cbn [negb]; [| discriminate].
  destruct (uidValidity =? 0)%Z eqn:Huv; cbn [orb]; [discriminate |].
  destruct (uid =? 0)%Z eqn:Huid; cbn [orb]; [discriminate |].
  destruct (isEmpty path) eqn:Hpath; [discriminate |].
  intros H. inversion H; subst. cbn. auto.
Qed.

(** The construction loop of [dropImapMessage] over UIDs the model holds. *)
Lemma newMessageItems_all mailbox uidValidity uids :
  forall items,
    forallb (messageExists m_model mailbox uidValidity) uids = true ->
    newMessageItems m_model mailbox uidValidity uids items
      = Val (Some (items ++ map (droppedMessage mailbox uidValidity false) uids)).
Proof.
  induction uids as [| uid rest IH]; intros items Hall.
  - simpl. rewrite app_nil_r. reflexivity.
  - cbn [forallb] in Hall. apply andb_true_iff in Hall. destruct Hall as [Huid Hrest].
    cbn [newMessageItems]. unfold new_ImapMessageAttachmentItem. rewrite Huid.
    cbn [bind try_catch]. rewrite removelast_last, last_last.
    rewrite IH by exact Hrest. cbn [map]. rewrite <- app_assoc. reflexivity.
Qed.

(** The same when the model does not hold one of them. *)
Lemma newMessageItems_some_unknown mailbox uidValidity uids :
  forall items,
    forallb (messageExists m_model mailbox uidValidity) uids = false ->
    newMessageItems m_model mailbox uidValidity uids items = Val None.
Proof.
  induction uids as [| uid rest IH]; intros items Hall; [discriminate |].
  cbn [forallb] in Hall. cbn [newMessageItems]. unfold new_ImapMessageAttachmentItem.
  destruct (messageExists m_model mailbox uidValidity uid); cbn [andb] in Hall.
  - cbn [bind try_catch]. apply IH, Hall.
  - reflexivity.
Qed.

Lemma map_preload_dropped mailbox uidValidity (flag : bool) uids :
  map (fun a => if flag then preload a else a) (map (droppedMessage mailbox uidValidity false) uids)
    = map (droppedMessage mailbox uidValidity flag) uids.
Proof. rewrite map_map. apply map_ext. intros uid. destruct flag; reflexivity. Qed.

(** X10: [dropImapMessage] accepts a payload exactly when it is not empty,
    the mailbox it names is known, its UIDVALIDITY is not zero, it lists at
    least one UID, nothing follows the list, the stream has met no error and
    the model holds every message listed.  It then appends, in one bracketed
    insertion, one attachment for each UID in the order of the list, each one
    marked inline; otherwise the composer is as it was. *)
Theorem dropImapMessage_result (c : MessageComposer) (stream : QDataStream)
  (mailbox : QString) (uidValidity : Z) (uids : list Z) (s' : QDataStream) :
  readMessageList stream = (mailbox, uidValidity, uids, s') ->
  let accepted :=
    negb (atEnd stream) && validateDropImapMessage m_model s' mailbox uidValidity uids
      && CHECK_STREAM_OK_AT_END s'
      && forallb (messageExists m_model mailbox uidValidity) uids in
  exists c',
    dropImapMessage m_model c stream = Val (accepted, c') /\
    if accepted
    then insertedRows c c' (map (droppedMessage mailbox uidValidity (m_shouldPreload c)) uids)
    else c' = c.
Proof.
  intros Hread. cbv zeta. unfold dropImapMessage. unfold readMessageList in Hread.
  destruct (atEnd stream); cbn [negb andb]; [exists c; split; reflexivity |].
  destruct (readQString stream) as [mb s1], (readUInt32 s1) as [uv s2],
    (readUIntList s2) as [us s3].
  inversion Hread; subst mb uv us s3. clear Hread.
  destruct (validateDropImapMessage m_model s' mailbox uidValidity uids);
    cbn [negb andb]; [| exists c; split; reflexivity].
  destruct (CHECK_STREAM_OK_AT_END s'); cbn [negb andb]; [| exists c; split; reflexivity].
  destruct (forallb (messageExists m_model mailbox uidValidity) uids) eqn:Hall.
  - rewrite newMessageItems_all by exact Hall. cbn [bind app].
    eexists. split; [reflexivity |].
    rewrite <- (map_preload_dropped mailbox uidValidity (m_shouldPreload c) uids).
    apply (@insertion_bracketed c (map (droppedMessage mailbox uidValidity false) uids)).
    rewrite length_map. reflexivity.
  - rewrite newMessageItems_some_unknown by exact Hall. cbn [bind].
    exists c. split; reflexivity.
Qed.

Lemma referenceKnown_preload a :
  referenceKnown m_model (preload a) = referenceKnown m_model a.
Proof. reflexivity. Qed.

(** A record that is decoded adds an attachment the model knows. *)
Lemma decodeRecord_known kind s items s' items' :
  decodeRecord env m_model kind s items = Val (Continue s' items') ->
  forallb (referenceKnown m_model) items = true ->
  forallb (referenceKnown m_model) items' = true.
Proof.
  unfold decodeRecord. intros Hrun Hknown.
  destruct (kind =? ATTACHMENT_IMAP_MESSAGE env)%Z.
  - destruct (readQString s) as [mailbox s1], (readUInt32 s1) as [uidValidity s2],
      (readUIntList s2) as [uids s3].
    destruct (validateDropImapMessage m_model s3 mailbox uidValidity uids) eqn:Hvalid;
      cbn [negb] in Hrun; [| discriminate].
    destruct (length uids =? 1); cbn [negb] in Hrun; [| discriminate].
    unfold new_ImapMessageAttachmentItem in Hrun.
    destruct (messageExists m_model mailbox uidValidity (hd 0%Z uids)) eqn:Hthere;
      cbn [bind try_catch] in Hrun; [| discriminate].
    inversion Hrun; subst. rewrite forallb_app, Hknown. cbn [forallb andb].
    apply validateDropImapMessage_true in Hvalid. destruct Hvalid as (_ & Hmb & _ & Huv).
    unfold referenceKnown. cbn [source]. rewrite Hmb, Huv, Hthere. reflexivity.
  - destruct (kind =? ATTACHMENT_IMAP_PART env)%Z.
    + destruct (validateDropImapPart m_model s) as [[valid s1] ref] eqn:Hvalid.
      destruct valid; cbn [negb] in Hrun; [| discriminate].
      unfold new_ImapPartAttachmentItem in Hrun.
      destruct (messageExists m_model (part_mailbox ref) (part_uidValidity ref) (part_uid ref))
        eqn:Hthere; cbn [bind try_catch] in Hrun; [| discriminate].
      inversion Hrun; subst. rewrite forallb_app, Hknown. cbn [forallb andb].
      apply validateDropImapPart_true in Hvalid.
      destruct Hvalid as (_ & Hmb & Huv & Huid & Hpath).
      unfold referenceKnown. cbn [source]. rewrite Hmb, Huv, Huid, Hpath, Hthere. reflexivity.
    + destruct (kind =? ATTACHMENT_FILE env)%Z; [| discriminate].
      destruct (readQString s) as [fileName s1]. inversion Hrun; subst.
      rewrite forallb_app, Hknown. reflexivity.
Qed.

Lemma decodeAttachments_known turns :
  forall s items s' items',
    decodeAttachments env m_model turns s items = Val (Continue s' items') ->
    forallb (referenceKnown m_model) items = true ->
    forallb (referenceKnown m_model) items' = true.
Proof.
  induction turns as [| turns IH]; intros s items s' items' Hrun Hknown.
  - simpl in Hrun. inversion Hrun; subst. exact Hknown.
  - cbn [decodeAttachments] in Hrun.
    destruct (decodeAttachment env m_model s items) as [[s1 items1 |] | e] eqn:Hstep;
      cbn [bind] in Hrun; try discriminate.
    rewrite decodeAttachment_kind in Hstep.
    eapply IH; [exact Hrun |]. eapply decodeRecord_known; eassumption.
Qed.

Lemma forallb_map_preload (flag : bool) items :
  forallb (referenceKnown m_model) (map (fun a => if flag then preload a else a) items)
    = forallb (referenceKnown m_model) items.
Proof.
  induction items as [| a l IH]; [reflexivity |].
  cbn [map forallb]. rewrite IH. destruct flag; reflexivity.
Qed.

(** X11: whatever a decoder appends refers to something the model knows at
    the time of the drop: an attachment list, a message list or a part
    reference is only accepted if every message or part in it is in a
    mailbox the model finds, under a UIDVALIDITY that is not zero, and the
    model holds the message.  Files are accepted as they come: the decoders
    do not look whether they can be read. *)
Theorem accepted_drops_are_known (format : DropFormat) (c c' : MessageComposer)
  (stream : QDataStream) :
  dropEncoded env m_model format c stream = Val (true, c') ->
  exists items,
    m_attachments c' = m_attachments c ++ items /\
    forallb (referenceKnown m_model) items = true.
Proof.
  destruct format; cbn [dropEncoded].
  - rewrite dropAttachmentList_unfold.
    destruct (atEnd stream); [discriminate |].
    destruct (negb (Status_isOk (status (afterCount stream)))); [discriminate |].
    destruct (declaredCount stream <? 0)%Z; [discriminate |].
    destruct (decodeAttachments env m_model (Z.to_nat (declaredCount stream))
                (afterCount stream) []) as [[s items |] | e] eqn:Hrun;
      cbn [bind]; try discriminate.
    destruct (negb (CHECK_STREAM_OK_AT_END s)); [discriminate |].
    intros H. inversion H as [Hc]. clear H.
    destruct (@insertion_bracketed c items (size c + Z.of_nat (length items) - 1) eq_refl)
      as (Ha & _ & _).
    eexists. split; [exact Ha |].
    rewrite forallb_map_preload. eapply decodeAttachments_known; [exact Hrun | reflexivity].
  - unfold dropImapMessage. destruct (atEnd stream); [discriminate |].
    destruct (readQString stream) as [mailbox s1], (readUInt32 s1) as [uidValidity s2],
      (readUIntList s2) as [uids s3].
    destruct (validateDropImapMessage m_model s3 mailbox uidValidity uids) eqn:Hvalid;
      cbn [negb]; [| discriminate].
    destruct (negb (CHECK_STREAM_OK_AT_END s3)); [discriminate |].
    destruct (forallb (messageExists m_model mailbox uidValidity) uids) eqn:Hall.
    2: { rewrite newMessageItems_some_unknown by exact Hall. discriminate. }
    rewrite newMessageItems_all by exact Hall. cbn [bind app].
    intros H. injection H as Hc.
    destruct (@insertion_bracketed c (map (droppedMessage mailbox uidValidity false) uids)
                (size c + Z.of_nat (length uids) - 1)) as (Ha & _ & _);
      [rewrite length_map; reflexivity |].
    rewrite Hc in Ha. eexists. split; [exact Ha |].
    rewrite forallb_map_preload.
    apply validateDropImapMessage_true in Hvalid. destruct Hvalid as (_ & Hmb & _ & Huv).
    clear - Hmb Huv Hall. induction uids as [| uid rest IH]; [reflexivity |].
    cbn [forallb] in Hall. apply andb_true_iff in Hall. destruct Hall as [Huid Hrest].
    cbn [map forallb]. rewrite (IH Hrest), andb_true_r.
    unfold referenceKnown, droppedMessage. cbn [source]. rewrite Hmb, Huv, Huid. reflexivity.
  - unfold dropImapPart. destruct (atEnd stream); [discriminate |].
    destruct (validateDropImapPart m_model stream) as [[valid s1] ref] eqn:Hvalid.
    destruct valid; cbn [negb]; [| discriminate].
    destruct (negb (CHECK_STREAM_OK_AT_END s1)); [discriminate |].
    unfold new_ImapPartAttachmentItem.
    destruct (messageExists m_model (part_mailbox ref) (part_uidValidity ref) (part_uid ref))
      eqn:Hthere; cbn [bind try_catch]; [| discriminate].
    apply validateDropImapPart_true in Hvalid.
    destruct Hvalid as (_ & Hmb & Huv & Huid & Hpath).
    intros H. inversion H as [Hc]. clear H.
    unfold endInsertRows. view_simpl.
    destruct (m_shouldPreload c); view_simpl; rewrite ?removelast_last, ?last_last;
      (eexists; split; [reflexivity |]); cbn [forallb];
      unfold referenceKnown; cbn [source preload];
      rewrite Hmb, Huv, Huid, Hpath, Hthere; reflexivity.
Qed.

End AcceptedDrops.

Lemma dropImapMessage_result_witness :
  exists c',
    dropImapMessage demoModel demoComposer (streamOf messagesPayload) = Val (true, c') /\
    insertedRows demoComposer c'
      (map (droppedMessage (QLatin1String "INBOX") 7 false) [42; 7]%Z).
Proof.
  apply (@dropImapMessage_result demoModel demoComposer (streamOf messagesPayload)
           (QLatin1String "INBOX") 7%Z [42; 7]%Z (mkStream [] Ok)).
  vm_compute. reflexivity.
Defined.

Lemma accepted_drops_are_known_witness :
  exists c' items,
    dropEncoded demoEnv demoModel xTrojitaAttachmentList demoAttached (streamOf goodPayload)
      = Val (true, c') /\
    m_attachments c' = m_attachments demoAttached ++ items /\
    forallb (referenceKnown demoModel) items = true.
Proof.
  assert (H : exists c',
             dropEncoded demoEnv demoModel xTrojitaAttachmentList demoAttached
               (streamOf goodPayload) = Val (true, c'))
    by (eexists; vm_compute; reflexivity).
  destruct H as [c' H]. exists c'.
  destruct (@accepted_drops_are_known demoEnv demoModel _ _ _ _ H) as [items Hitems].
  exists items. split; [exact H | exact Hitems].
Defined.

(** ** Payloads are read to their exact end *)

Lemma intact_not_failed {s} : intact s -> failed s -> False.
Proof. unfold intact, failed. congruence. Qed.

Lemma intact_back {s s'} : (failed s -> failed s') -> intact s' -> intact s.
Proof.
  unfold intact, failed. intros H Hok.
  destruct (Status_isOk (status s)); [reflexivity |].
  rewrite (H eq_refl) in Hok. discriminate.
Qed.

Lemma setStatus_error s st : Status_isOk st = false -> failed (setStatus s st).
Proof.
  unfold failed, setStatus, status. intros H.
  destruct (Status_isOk (q_status s)) eqn:E; [exact H | exact E].
Qed.

Lemma readBlock_short {n s s'} : readBlock n s = (None, s') -> failed s'.
Proof.
  unfold readBlock. destruct (n <=? length (device s)); [discriminate |].
  intros H. inversion H. apply setStatus_error. reflexivity.
Qed.

Lemma readBlock_more {n s bs s'} rest :
  readBlock n s = (Some bs, s') -> readBlock n (more s rest) = (Some bs, more s' rest).
Proof.
  unfold readBlock, more. cbn [device q_status].
  destruct (n <=? length (device s)) eqn:E; [| discriminate].
  apply Nat.leb_le in E. intros H. inversion H; subst. clear H.
  assert (E' : (n <=? length (device s ++ rest)) = true)
    by (apply Nat.leb_le; rewrite length_app; lia).
  rewrite E'. cbn [device q_status].
  rewrite firstn_app, skipn_app.
  replace (n - length (device s)) with 0 by lia.
  cbn [firstn skipn]. rewrite app_nil_r. reflexivity.
Qed.

Lemma readBlock_status {n s bs s'} : readBlock n s = (Some bs, s') -> status s' = status s.
Proof.
  unfold readBlock. destruct (n <=? length (device s)); [| discriminate].
  intros H. inversion H. reflexivity.
Qed.

Lemma readUInt32_more {s v s'} rest :
  readUInt32 s = (v, s') -> intact s' -> readUInt32 (more s rest) = (v, more s' rest).
Proof.
  unfold readUInt32. destruct (readBlock 4 s) as [[bs |] s1] eqn:E; intros H Hok.
  - inversion H; subst. rewrite (readBlock_more rest E). reflexivity.
  - inversion H; subst. destruct (intact_not_failed Hok (readBlock_short E)).
Qed.

Lemma readInt32_more {s v s'} rest :
  readInt32 s = (v, s') -> intact s' -> readInt32 (more s rest) = (v, more s' rest).
Proof.
  unfold readInt32. destruct (readUInt32 s) as [u s1] eqn:E. intros H Hok.
  inversion H; subst. rewrite (readUInt32_more rest E Hok). reflexivity.
Qed.

Lemma readUInt32_intact {s v s'} : readUInt32 s = (v, s') -> intact s' -> intact s.
Proof.
  intros H. apply intact_back. intros Hf. pose proof (readUInt32_failed Hf) as H'.
  rewrite H in H'. exact H'.
Qed.

Lemma readQString_more {s v s'} rest :
  readQString s = (v, s') -> intact s' -> readQString (more s rest) = (v, more s' rest).
Proof.
  unfold readQString. destruct (readUInt32 s) as [nbytes s1] eqn:E1. intros H Hok.
  destruct (nbytes =? 4294967295)%Z eqn:C1.
  { inversion H; subst. rewrite (readUInt32_more rest E1 Hok), C1. reflexivity. }
  destruct (0 <? nbytes)%Z eqn:C2.
  2: { inversion H; subst. rewrite (readUInt32_more rest E1 Hok), C1, C2. reflexivity. }
  destruct (Z.odd nbytes) eqn:C3.
  { inversion H; subst.
    destruct (intact_not_failed Hok (setStatus_error s1 ReadCorruptData eq_refl)). }
  destruct (readBlock (Z.to_nat nbytes) s1) as [[bs |] s2] eqn:E2.
  - inversion H; subst.
    assert (Hok1 : intact s1)
      by (unfold intact; rewrite <- (readBlock_status E2); exact Hok).
    rewrite (readUInt32_more rest E1 Hok1), C1, C2, C3, (readBlock_more rest E2).
    reflexivity.
  - inversion H; subst. destruct (intact_not_failed Hok (readBlock_short E2)).
Qed.

Lemma readQByteArray_more {s v s'} rest :
  readQByteArray s = (v, s') -> intact s' ->
  readQByteArray (more s rest) = (v, more s' rest).
Proof.
  unfold readQByteArray. destruct (readUInt32 s) as [len s1] eqn:E1. intros H Hok.
  destruct (len =? 4294967295)%Z eqn:C1.
  { inversion H; subst. rewrite (readUInt32_more rest E1 Hok), C1. reflexivity. }
  destruct (readBlock (Z.to_nat len) s1) as [[bs |] s2] eqn:E2.
  - inversion H; subst.
    assert (Hok1 : intact s1)
      by (unfold intact; rewrite <- (readBlock_status E2); exact Hok).
    rewrite (readUInt32_more rest E1 Hok1), C1, (readBlock_more rest E2). reflexivity.
  - inversion H; subst. destruct (intact_not_failed Hok (readBlock_short E2)).
Qed.

Lemma readUIntElements_more rest n :
  forall s acc l s',
    readUIntElements n s acc = (l, s') -> intact s' ->
    readUIntElements n (more s rest) acc = (l, more s' rest) /\ intact s.
Proof.
  induction n as [| n IH]; intros s acc l s' H Hok.
  - simpl in H. inversion H; subst. split; [reflexivity | exact Hok].
  - cbn [readUIntElements] in H |- *. destruct (readUInt32 s) as [t s1] eqn:E1.
    destruct (Status_isOk (status s1)) eqn:Hok1.
    + destruct (IH _ _ _ _ H Hok) as [Hrun _].
      rewrite (readUInt32_more rest E1 Hok1).
      change (status (more s1 rest)) with (status s1). rewrite Hok1.
      split; [exact Hrun | exact (readUInt32_intact E1 Hok1)].
    + inversion H; subst. destruct (intact_not_failed Hok Hok1).
Qed.

Lemma readUIntList_more {s v s'} rest :
  readUIntList s = (v, s') -> intact s' ->
  readUIntList (more s rest) = (v, more s' rest) /\ intact s.
Proof.
  unfold readUIntList. change (status (more s rest)) with (status s).
  change (resetStatus (more s rest)) with (more (resetStatus s) rest).
  destruct (readUInt32 (resetStatus s)) as [n s1] eqn:E1.
  destruct (readUIntElements (Z.to_nat n) s1 []) as [l s2] eqn:E2.
  intros H Hok. destruct (Status_isOk (status s)) eqn:Hold.
  - inversion H; subst.
    destruct (@readUIntElements_more rest _ _ _ _ _ E2 Hok) as [Hrun Hok1].
    rewrite (readUInt32_more rest E1 Hok1), Hrun. split; [reflexivity | exact Hold].
  - inversion H; subst. unfold intact, status in Hok, Hold. cbn [q_status] in Hok.
    congruence.
Qed.

Lemma readQString_intact {s v s'} : readQString s = (v, s') -> intact s' -> intact s.
Proof.
  intros H. apply intact_back. intros Hf. pose proof (readQString_failed Hf) as H'.
  rewrite H in H'. exact H'.
Qed.

Lemma readQByteArray_intact {s v s'} : readQByteArray s = (v, s') -> intact s' -> intact s.
Proof.
  intros H. apply intact_back. intros Hf. pose proof (readQByteArray_failed Hf) as H'.
  rewrite H in H'. exact H'.
Qed.

Lemma readInt32_intact {s v s'} : readInt32 s = (v, s') -> intact s' -> intact s.
Proof.
  intros H. apply intact_back. intros Hf. pose proof (readInt32_failed Hf) as H'.
  rewrite H in H'. exact H'.
Qed.

Section ExactPayloads.

Variable env : Env.
Variable m_model : Model.

Lemma readMessageList_more s mailbox uidValidity uids s' rest :
  readMessageList s = (mailbox, uidValidity, uids, s') -> intact s' ->
  readMessageList (more s rest) = (mailbox, uidValidity, uids, more s' rest).
Proof.
  unfold readMessageList.
  destruct (readQString s) as [mb s1] eqn:E1, (readUInt32 s1) as [uv s2] eqn:E2,
    (readUIntList s2) as [us s3] eqn:E3.
  intros H Hok. inversion H; subst. clear H.
  destruct (readUIntList_more rest E3 Hok) as [Hrun3 Hok2].
  pose proof (readUInt32_intact E2 Hok2) as Hok1.
  rewrite (readQString_more rest E1 Hok1), (readUInt32_more rest E2 Hok2), Hrun3.
  reflexivity.
Qed.

Lemma validateDropImapPart_more {s s' ref} rest :
  validateDropImapPart m_model s = (true, s', ref) ->
  validateDropImapPart m_model (more s rest) = (true, more s' rest, ref).
Proof.
  intros H. pose proof (@validateDropImapPart_true m_model _ _ _ H) as (Hok & _).
  revert H. unfold validateDropImapPart.
  destruct (readQString s) as [mailbox s1] eqn:E1, (readUInt32 s1) as [uidValidity s2] eqn:E2,
    (readUInt32 s2) as [uid s3] eqn:E3, (readQByteArray s3) as [path s4] eqn:E4.
  intros H.
  assert (s4 = s') as ->.
  { destruct (negb (Status_isOk (status s4))); [inversion H; reflexivity |].
    destruct (negb (findMailboxByName m_model mailbox)); [inversion H; reflexivity |].
    destruct ((uidValidity =? 0)%Z || (uid =? 0)%Z || isEmpty path);
      inversion H; reflexivity. }
  pose proof (readQByteArray_intact E4 Hok) as Hok3.
  pose proof (readUInt32_intact E3 Hok3) as Hok2.
  pose proof (readUInt32_intact E2 Hok2) as Hok1.
  rewrite (readQString_more rest E1 Hok1), (readUInt32_more rest E2 Hok2),
    (readUInt32_more rest E3 Hok3), (readQByteArray_more rest E4 Hok).
  change (status (more s' rest)) with (status s').
  destruct (negb (Status_isOk (status s'))); [discriminate |].
  destruct (negb (findMailboxByName m_model mailbox)); [discriminate |].
  destruct ((uidValidity =? 0)%Z || (uid =? 0)%Z || isEmpty path); [discriminate |].
  inversion H; subst. reflexivity.
Qed.

Lemma decodeRecord_more {kind s items s' items'} rest :
  decodeRecord env m_model kind s items = Val (Continue s' items') -> intact s' ->
  decodeRecord env m_model kind (more s rest) items = Val (Continue (more s' rest) items').
Proof.
  unfold decodeRecord. intros Hrun Hok.
  destruct (kind =? ATTACHMENT_IMAP_MESSAGE env)%Z.
  - pose proof (@readMessageList_more s) as Hlist. unfold readMessageList in Hlist.
    destruct (readQString s) as [mailbox s1], (readUInt32 s1) as [uidValidity s2],
      (readUIntList s2) as [uids s3].
    assert (s3 = s') as ->.
    { destruct (negb (validateDropImapMessage m_model s3 mailbox uidValidity uids));
        [discriminate |].
      destruct (negb (length uids =? 1)); [discriminate |].
      unfold new_ImapMessageAttachmentItem in Hrun.
      destruct (messageExists m_model mailbox uidValidity (hd 0%Z uids));
        cbn [bind try_catch] in Hrun; [| discriminate].
      inversion Hrun. reflexivity. }
    specialize (Hlist _ _ _ _ rest eq_refl Hok).
    destruct (readQString (more s rest)) as [mailbox' t1],
      (readUInt32 t1) as [uidValidity' t2], (readUIntList t2) as [uids' t3].
    inversion Hlist; subst.
    change (validateDropImapMessage m_model (more s' rest) mailbox uidValidity uids)
      with (validateDropImapMessage m_model s' mailbox uidValidity uids).
    destruct (negb (validateDropImapMessage m_model s' mailbox uidValidity uids));
      [discriminate |].
    destruct (negb (length uids =? 1)); [discriminate |].
    unfold new_ImapMessageAttachmentItem in Hrun |- *.
    destruct (messageExists m_model mailbox uidValidity (hd 0%Z uids));
      cbn [bind try_catch] in Hrun |- *; [| discriminate].
    inversion Hrun; subst. reflexivity.
  - destruct (kind =? ATTACHMENT_IMAP_PART env)%Z.
    + destruct (validateDropImapPart m_model s) as [[valid s1] ref] eqn:Hvalid.
      destruct valid; cbn [negb] in Hrun; [| discriminate].
      rewrite (validateDropImapPart_more rest Hvalid). cbn [negb].
      unfold new_ImapPartAttachmentItem in Hrun |- *.
      destruct (messageExists m_model (part_mailbox ref) (part_uidValidity ref) (part_uid ref));
        cbn [bind try_catch] in Hrun |- *; [| discriminate].
      inversion Hrun; subst. reflexivity.
    + destruct (kind =? ATTACHMENT_FILE env)%Z; [| discriminate].
      destruct (readQString s) as [fileName s1] eqn:E.
      inversion Hrun; subst. rewrite (readQString_more rest E Hok). reflexivity.
Qed.

Lemma decodeAttachments_more rest turns :
  forall s items s' items',
    decodeAttachments env m_model turns s items = Val (Continue s' items') -> intact s' ->
    decodeAttachments env m_model turns (more s rest) items
      = Val (Continue (more s' rest) items').
Proof.
  induction turns as [| turns IH]; intros s items s' items' Hrun Hok.
  - simpl in Hrun |- *. inversion Hrun; subst. reflexivity.
  - cbn [decodeAttachments] in Hrun |- *.
    destruct (decodeAttachment env m_model s items) as [[s1 items1 |] | e] eqn:Hstep;
      cbn [bind] in Hrun; try discriminate.
    assert (Hok1 : intact s1).
    { apply (@intact_back s1 s'); [| exact Hok]. intros Hf.
      destruct (@decodeAttachments_failed env m_model turns s1 items1 Hf)
        as [Hr | (s2 & items2 & Hr & Hf2)]; rewrite Hr in Hrun.
      - discriminate.
      - inversion Hrun; subst. exact Hf2. }
    unfold decodeAttachment in Hstep |- *.
    destruct (readInt32 s) as [kind s0] eqn:E.
    assert (Hok0 : intact s0).
    { apply (@intact_back s0 s1); [| exact Hok1]. intros Hf.
      destruct (@decodeRecord_failed env m_model kind s0 items Hf)
        as [Hr | (s2 & items2 & Hr & Hf2)]; rewrite Hr in Hstep.
      - discriminate.
      - inversion Hstep; subst. exact Hf2. }
    rewrite (readInt32_more rest E Hok0), (decodeRecord_more rest Hstep Hok1). cbn [bind].
    apply IH; assumption.
Qed.

Lemma CHECK_STREAM_OK_AT_END_true {s} :
  CHECK_STREAM_OK_AT_END s = true -> device s = [] /\ intact s.
Proof.
  unfold CHECK_STREAM_OK_AT_END, atEnd, intact.
  destruct (device s); cbn [isEmpty negb]; [| discriminate].
  destruct (Status_isOk (status s)); [auto | discriminate].
Qed.

Lemma CHECK_STREAM_OK_AT_END_more {s rest} :
  rest <> [] -> CHECK_STREAM_OK_AT_END s = true ->
  CHECK_STREAM_OK_AT_END (more s rest) = false.
Proof.
  intros Hrest H. apply CHECK_STREAM_OK_AT_END_true in H. destruct H as [Hdev _].
  unfold CHECK_STREAM_OK_AT_END, atEnd, more. cbn [device]. rewrite Hdev.
  destruct rest; [contradiction | reflexivity].
Qed.

Lemma atEnd_more {s} rest : atEnd s = false -> atEnd (more s rest) = false.
Proof. unfold atEnd, more. cbn [device]. destruct (device s); [discriminate | reflexivity]. Qed.

(** What a decoder has accepted it refuses once more bytes follow. *)
Lemma accepted_then_longer_refused {format c c' s rest} :
  rest <> [] ->
  dropEncoded env m_model format c s = Val (true, c') ->
  dropEncoded env m_model format c (more s rest) = Val (false, c).
Proof.
  intros Hrest. destruct format; cbn [dropEncoded].
  - rewrite !dropAttachmentList_unfold. unfold declaredCount, afterCount.
    destruct (atEnd s) eqn:Hend; [discriminate |]. rewrite (atEnd_more rest Hend).
    destruct (readInt32 s) as [num s0] eqn:E. cbn [fst snd].
    destruct (Status_isOk (status s0)) eqn:Hok0; cbn [negb]; [| discriminate].
    rewrite (readInt32_more rest E Hok0). cbn [fst snd].
    change (status (more s0 rest)) with (status s0). rewrite Hok0. cbn [negb].
    destruct (num <? 0)%Z; [discriminate |].
    destruct (decodeAttachments env m_model (Z.to_nat num) s0 []) as [[s1 items |] | e] eqn:Hrun;
      cbn [bind]; try discriminate.
    destruct (CHECK_STREAM_OK_AT_END s1) eqn:Hcheck; cbn [negb]; [| discriminate].
    intros _. pose proof (CHECK_STREAM_OK_AT_END_true Hcheck) as [_ Hok1].
    rewrite (@decodeAttachments_more rest _ _ _ _ _ Hrun Hok1). cbn [bind].
    rewrite (CHECK_STREAM_OK_AT_END_more Hrest Hcheck). reflexivity.
  - pose proof (@readMessageList_more s) as Hlist. unfold readMessageList in Hlist.
    unfold dropImapMessage.
    destruct (atEnd s) eqn:Hend; [discriminate |]. rewrite (atEnd_more rest Hend).
    destruct (readQString s) as [mailbox s1], (readUInt32 s1) as [uidValidity s2],
      (readUIntList s2) as [uids s3].
    destruct (validateDropImapMessage m_model s3 mailbox uidValidity uids) eqn:Hvalid;
      cbn [negb]; [| discriminate].
    destruct (CHECK_STREAM_OK_AT_END s3) eqn:Hcheck; cbn [negb]; [| discriminate].
    intros _. pose proof (CHECK_STREAM_OK_AT_END_true Hcheck) as [_ Hok].
    specialize (Hlist _ _ _ _ rest eq_refl Hok).
    destruct (readQString (more s rest)) as [mailbox' t1],
      (readUInt32 t1) as [uidValidity' t2], (readUIntList t2) as [uids' t3].
    inversion Hlist; subst.
    change (validateDropImapMessage m_model (more s3 rest) mailbox uidValidity uids)
      with (validateDropImapMessage m_model s3 mailbox uidValidity uids).
    rewrite Hvalid. cbn [negb].
    rewrite (CHECK_STREAM_OK_AT_END_more Hrest Hcheck). reflexivity.
  - unfold dropImapPart.
    destruct (atEnd s) eqn:Hend; [discriminate |]. rewrite (atEnd_more rest Hend).
    destruct (validateDropImapPart m_model s) as [[valid s1] ref] eqn:Hvalid.
    destruct valid; cbn [negb]; [| discriminate].
    rewrite (validateDropImapPart_more rest Hvalid). cbn [negb].
    destruct (CHECK_STREAM_OK_AT_END s1) eqn:Hcheck; cbn [negb]; [| discriminate].
    intros _. rewrite (CHECK_STREAM_OK_AT_END_more Hrest Hcheck). reflexivity.
Qed.

Lemma dropEncoded_outcome format c s :
  dropEncoded env m_model format c s = Val (false, c) \/
  exists c', dropEncoded env m_model format c s = Val (true, c').
Proof.
  destruct format; cbn [dropEncoded].
  - destruct (@dropAttachmentList_outcome env m_model c s) as [H | (c' & items & H & _)]; eauto.
  - destruct (@dropImapMessage_outcome m_model c s) as [H | (c' & items & H & _)]; eauto.
  - destruct (@dropImapPart_outcome m_model c s) as [H | (c' & items & H & _)]; eauto.
Qed.

(** X12: the three decoders take a payload only as a whole.  If one of them
    accepts a payload, it refuses, with the composer unchanged, the same
    payload followed by any further bytes, and it refuses every payload that
    stops short of it: nothing dropped twice in one buffer, and no truncated
    buffer, is ever taken for a valid drop. *)
Theorem accepted_payload_is_exact (format : DropFormat) (c c' : MessageComposer)
  (s : QDataStream) :
  dropEncoded env m_model format c s = Val (true, c') ->
  (forall rest, rest <> [] ->
     dropEncoded env m_model format c (more s rest) = Val (false, c)) /\
  (forall s0 rest, rest <> [] -> s = more s0 rest ->
     dropEncoded env m_model format c s0 = Val (false, c)).
Proof.
  intros Hacc. split.
  - intros rest Hrest. exact (accepted_then_longer_refused Hrest Hacc).
  - intros s0 rest Hrest ->.
    destruct (dropEncoded_outcome format c s0) as [H | [c0 H]]; [exact H |].
    rewrite (accepted_then_longer_refused Hrest H) in Hacc. discriminate.
Qed.

End ExactPayloads.

Lemma accepted_payload_is_exact_witness :
  (forall rest, rest <> [] ->
     dropEncoded demoEnv demoModel xTrojitaAttachmentList demoAttached
       (more (streamOf goodPayload) rest) = Val (false, demoAttached)) /\
  (forall s0 rest, rest <> [] -> streamOf goodPayload = more s0 rest ->
     dropEncoded demoEnv demoModel xTrojitaAttachmentList demoAttached s0
       = Val (false, demoAttached)).
Proof.
  assert (H : exists c',
             dropEncoded demoEnv demoModel xTrojitaAttachmentList demoAttached
               (streamOf goodPayload) = Val (true, c'))
    by (eexists; vm_compute; reflexivity).
  destruct H as [c' H].
  exact (@accepted_payload_is_exact demoEnv demoModel _ _ _ _ H).
Defined.

(** ** Drops as a whole *)

Section Drops.

Variable env : Env.

(** One call of [addFileAttachment]: a readable file is appended and the open
    changes are what they were; for a file that cannot be read the list is
    what it was and one more change is open. *)
Lemma addFileAttachment_step c path :
  let r := addFileAttachment env c path in
  m_shouldPreload (snd r) = m_shouldPreload c /\
  fst r = isAvailableLocally env (new_FileAttachmentItem path) /\
  m_attachments (snd r)
    = m_attachments c
        ++ (if isAvailableLocally env (new_FileAttachmentItem path)
            then [mkAttachmentItem (FileAttachment path) CDN_ATTACHMENT (m_shouldPreload c)]
            else []) /\
  changes (snd r)
    = (if isAvailableLocally env (new_FileAttachmentItem path) then []
       else [(size c, size c)]) ++ changes c.
Proof.
  cbv zeta. unfold addFileAttachment.
  destruct (isAvailableLocally env (new_FileAttachmentItem path)); cbn [negb fst snd].
  - unfold endInsertRows. view_simpl.
    destruct (m_shouldPreload c); repeat split; reflexivity.
  - view_simpl. rewrite app_nil_r. repeat split; reflexivity.
Qed.

Lemma dropUrls_spec us :
  forall c attached,
    let r := dropUrls env c us attached in
    fst r = (attached || existsb (attachable env) us) /\
    m_shouldPreload (snd r) = m_shouldPreload c /\
    m_attachments (snd r)
      = m_attachments c ++ map (droppedFile (m_shouldPreload c)) (filter (attachable env) us) /\
    exists opened,
      changes (snd r) = opened ++ changes c /\
      length opened = length (filter (givenUp env) us).
Proof.
  induction us as [| url rest IH]; intros c attached; cbv zeta.
  - cbn [dropUrls fst snd existsb filter map]. rewrite orb_false_r, app_nil_r.
    repeat split. exists []. split; reflexivity.
  - cbn [dropUrls existsb filter]. unfold attachable at 1 3, givenUp at 1.
    destruct (url_isLocalFile url); cbn [andb].
    + destruct (addFileAttachment_step c (url_path url)) as (Hp & Hr & Ha & Hc).
      destruct (addFileAttachment env c (url_path url)) as [added c1].
      cbn [fst snd] in Hp, Hr, Ha, Hc.
      destruct (IH c1 (added || attached)) as (Hr' & Hp' & Ha' & opened & Hc' & Hlen).
      rewrite Hr', Hp', Ha', Hc', Hp, Ha, Hc, Hr. clear IH Hr' Hp' Ha' Hc' Hp Ha Hc Hr.
      destruct (isAvailableLocally env (new_FileAttachmentItem (url_path url)));
        cbn [negb orb map length app].
      * split; [destruct attached; reflexivity |]. split; [reflexivity |]. split.
        { rewrite <- app_assoc. reflexivity. }
        exists opened. split; [reflexivity | exact Hlen].
      * split; [destruct attached; reflexivity |]. split; [reflexivity |]. split.
        { rewrite app_nil_r. reflexivity. }
        exists (opened ++ [(size c, size c)]). split.
        { rewrite <- app_assoc. reflexivity. }
        rewrite length_app, Hlen. simpl. lia.
    + apply IH.
Qed.

(** X13: a drop of URLs alone (no Trojita format in the data, an action
    that is not ignored, a column that is not positive, a model at hand)
    tries every local file, in the order of the URLs, and skips the others.
    It returns whether at least one file could be read; the files that
    could are appended in order as attachments, preloaded if the composer
    preloads; and for every local file that could not be read one insertion
    is left open, as [addFileAttachment] leaves it. *)
Theorem dropMimeData_urls (model : Model) (c : MessageComposer) (us : list QUrl)
  (action : DropAction) (column : Z) :
  isIgnoreAction action = false -> (column <= 0)%Z ->
  exists c' opened,
    dropMimeData env (Some model) c (urlsOnly us) action column
      = Val (existsb (attachable env) us, c') /\
    m_attachments c'
      = m_attachments c ++ map (droppedFile (m_shouldPreload c)) (filter (attachable env) us) /\
    changes c' = opened ++ changes c /\
    length opened = length (filter (givenUp env) us).
Proof.
  intros Haction Hcolumn. unfold dropMimeData. rewrite Haction.
  assert (Hc : (0 <? column)%Z = false) by (apply Z.ltb_ge; exact Hcolumn).
  rewrite Hc. cbn [urlsOnly formatData urls]. unfold hasUrls. cbn [urls].
  destruct us as [| url rest]; cbn [isEmpty negb].
  - exists c, []. repeat split. cbn. rewrite app_nil_r. reflexivity.
  - destruct (dropUrls_spec (url :: rest) c false) as (Hr & _ & Ha & opened & Hch & Hlen).
    cbn [orb] in Hr.
    exists (snd (dropUrls env c (url :: rest) false)), opened.
    split; [| split; [exact Ha | split; [exact Hch | exact Hlen]]].
    rewrite <- Hr. destruct (dropUrls env c (url :: rest) false). reflexivity.
Qed.

(** X14: [dropMimeData] never raises and never removes, replaces or
    reorders an attachment: whatever is dropped, and whether it returns
    true or false, the attachment list afterwards is the one before with
    zero or more attachments after it, and when it returns false nothing
    has been added. *)
Theorem dropMimeData_appends (m_model : option Model) (c : MessageComposer)
  (data : QMimeData) (action : DropAction) (column : Z) :
  exists accepted c' added,
    dropMimeData env m_model c data action column = Val (accepted, c') /\
    m_attachments c' = m_attachments c ++ added /\
    (accepted || isEmpty added) = true.
Proof.
  assert (Hsame : forall b, exists accepted c' added,
             Val (b, c) = Val (accepted, c') /\
             m_attachments c' = m_attachments c ++ added /\
             (accepted || isEmpty added) = true).
  { intros b. exists b, c, []. rewrite app_nil_r, orb_true_r. auto. }
  assert (Hout : forall r : exc (bool * MessageComposer),
             (r = Val (false, c) \/
              exists c' items, r = Val (true, c') /\ insertedRows c c' items) ->
             exists accepted c' added,
               r = Val (accepted, c') /\
               m_attachments c' = m_attachments c ++ added /\
               (accepted || isEmpty added) = true).
  { intros r [-> | (c' & items & -> & Hi & _)]; [apply Hsame |].
    exists true, c', items. auto. }
  unfold dropMimeData.
  destruct (isIgnoreAction action); [apply Hsame |].
  destruct (0 <? column)%Z; [apply Hsame |].
  destruct m_model as [model |]; [| apply Hsame].
  destruct (formatData data xTrojitaAttachmentList) as [encoded |].
  { apply Hout, dropAttachmentList_outcome. }
  destruct (formatData data xTrojitaMessageList) as [encoded |].
  { apply Hout, dropImapMessage_outcome. }
  destruct (formatData data xTrojitaImapPart) as [encoded |].
  { apply Hout, dropImapPart_outcome. }
  destruct (hasUrls data); [| apply Hsame].
  destruct (dropUrls_spec (urls data) c false) as (Hr & _ & Ha & _).
  cbn [orb] in Hr.
  destruct (dropUrls env c (urls data) false) as [attached c']. cbn [fst snd] in Hr, Ha.
  exists attached, c', (map (droppedFile (m_shouldPreload c)) (filter (attachable env) (urls data))).
  split; [reflexivity |]. split; [exact Ha |].
  rewrite Hr. clear. induction (urls data) as [| url rest IH]; [reflexivity |].
  cbn [existsb filter]. destruct (attachable env url); [reflexivity | exact IH].
Qed.

End Drops.

Lemma dropMimeData_urls_witness :
  exists c' opened,
    dropMimeData demoEnv (Some demoModel) demoAttached (urlsOnly demoUrls) CopyAction (-1)
      = Val (existsb (attachable demoEnv) demoUrls, c') /\
    m_attachments c'
      = m_attachments demoAttached
          ++ map (droppedFile (m_shouldPreload demoAttached))
               (filter (attachable demoEnv) demoUrls) /\
    changes c' = opened ++ changes demoAttached /\
    length opened = length (filter (givenUp demoEnv) demoUrls).
Proof.
  apply (@dropMimeData_urls demoEnv demoModel demoAttached demoUrls CopyAction (-1)%Z).
  - reflexivity.
  - lia.
Defined.

(** ** The declared count, and rows that come and go *)

Section Rows.

Variable env : Env.
Variable m_model : Model.

Lemma decodeRecord_one_more kind s items s' items' :
  decodeRecord env m_model kind s items = Val (Continue s' items') ->
  length items' = S (length items).
Proof.
  unfold decodeRecord. intros Hrun.
  destruct (kind =? ATTACHMENT_IMAP_MESSAGE env)%Z.
  - destruct (readQString s) as [mailbox s1], (readUInt32 s1) as [uidValidity s2],
      (readUIntList s2) as [uids s3].
    destruct (negb (validateDropImapMessage m_model s3 mailbox uidValidity uids));
      [discriminate |].
    destruct (negb (length uids =? 1)); [discriminate |].
    unfold new_ImapMessageAttachmentItem in Hrun.
    destruct (messageExists m_model mailbox uidValidity (hd 0%Z uids));
      cbn [bind try_catch] in Hrun; [| discriminate].
    inversion Hrun. rewrite length_app. simpl. lia.
  - destruct (kind =? ATTACHMENT_IMAP_PART env)%Z.
    + destruct (validateDropImapPart m_model s) as [[valid s1] ref].
      destruct (negb valid); [discriminate |].
      unfold new_ImapPartAttachmentItem in Hrun.
      destruct (messageExists m_model (part_mailbox ref) (part_uidValidity ref) (part_uid ref));
        cbn [bind try_catch] in Hrun; [| discriminate].
      inversion Hrun. rewrite length_app. simpl. lia.
    + destruct (kind =? ATTACHMENT_FILE env)%Z; [| discriminate].
      destruct (readQString s) as [fileName s1].
      inversion Hrun. rewrite length_app. simpl. lia.
Qed.

Lemma decodeAttachments_count turns :
  forall s items s' items',
    decodeAttachments env m_model turns s items = Val (Continue s' items') ->
    length items' = length items + turns.
Proof.
  induction turns as [| turns IH]; intros s items s' items' Hrun.
  - simpl in Hrun. inversion Hrun. lia.
  - cbn [decodeAttachments] in Hrun.
    destruct (decodeAttachment env m_model s items) as [[s1 items1 |] | e] eqn:Hstep;
      cbn [bind] in Hrun; try discriminate.
    rewrite decodeAttachment_kind in Hstep. apply decodeRecord_one_more in Hstep.
    apply IH in Hrun. lia.
Qed.

(** X15: when [dropAttachmentList] accepts a list it inserts exactly as many
    attachments as the list declares, in one bracketed insertion.  The
    count may be zero: a list that declares no attachment is accepted too,
    and the observers are then told of an insertion of the rows from the
    old row count to the one before it, with nothing inserted. *)
Theorem dropAttachmentList_count (c c' : MessageComposer) (stream : QDataStream) :
  dropAttachmentList env m_model c stream = Val (true, c') ->
  exists items,
    insertedRows c c' items /\
    Z.of_nat (length items) = declaredCount stream /\
    signals c'
      = signals c ++ [rowsAboutToBeInserted (size c) (size c + declaredCount stream - 1);
                      rowsInserted (size c) (size c + declaredCount stream - 1)].
Proof.
  rewrite dropAttachmentList_unfold.
  destruct (atEnd stream); [discriminate |].
  destruct (negb (Status_isOk (status (afterCount stream)))); [discriminate |].
  destruct (declaredCount stream <? 0)%Z eqn:Hneg; [discriminate |].
  apply Z.ltb_ge in Hneg.
  destruct (decodeAttachments env m_model (Z.to_nat (declaredCount stream))
              (afterCount stream) []) as [[s items |] | e] eqn:Hrun;
    cbn [bind]; try discriminate.
  destruct (negb (CHECK_STREAM_OK_AT_END s)); [discriminate |].
  intros H. injection H as Hc.
  pose proof (@insertion_bracketed c items (size c + Z.of_nat (length items) - 1) eq_refl)
    as Hrows.
  rewrite Hc in Hrows.
  apply decodeAttachments_count in Hrun. cbn [length] in Hrun.
  exists (map (fun a => if m_shouldPreload c then preload a else a) items).
  split; [exact Hrows |].
  assert (Hlen : Z.of_nat (length (map (fun a => if m_shouldPreload c then preload a else a)
                                       items)) = declaredCount stream)
    by (rewrite length_map, Hrun; lia).
  split; [exact Hlen |].
  destruct Hrows as (_ & _ & Hn). unfold signals. rewrite Hn, map_app, Hlen. reflexivity.
Qed.

Lemma takeAt_middle {A} (before : list A) a after :
  takeAt (before ++ a :: after) (length before) = before ++ after.
Proof.
  unfold takeAt. rewrite firstn_app, Nat.sub_diag, firstn_all. cbn [firstn].
  rewrite app_nil_r. f_equal.
  rewrite skipn_app. replace (S (length before) - length before) with 1 by lia.
  rewrite skipn_all2 by lia. reflexivity.
Qed.

(** A valid index of a row that exists gets that row removed. *)
Lemma removeAttachment_in_range c index :
  isValid index = true -> column index = 0%Z ->
  (0 <= row index < size c)%Z ->
  removedRow c (removeAttachment c index) (Z.to_nat (row index)).
Proof.
  intros Hvalid Hcolumn Hrow. unfold removeAttachment.
  rewrite Hvalid, Hcolumn. cbn [negb orb Z.eqb].
  assert (Hguard : ((row index <? 0)%Z || (size c <=? row index)%Z) = false).
  { apply orb_false_iff. split; [apply Z.ltb_ge; lia | apply Z.leb_gt; lia]. }
  rewrite Hguard.
  unfold removedRow, endRemoveRows. cbn [beginRemoveRows with_view with_attachments
    changes m_attachments notifications].
  rewrite Z2Nat.id by lia. split; [reflexivity |]. split; [reflexivity |].
  unfold emit, rowCount. view_simpl. unfold emit, rowCount.
  rewrite <- app_assoc. reflexivity.
Qed.

(** X16: [removeAttachment] with a valid index in column zero takes out the
    attachment of that row and no other: the attachments before it and
    after it stay, in their order, and the removal is bracketed by its two
    signals, which name that row. *)
Theorem removeAttachment_exact (c : MessageComposer) (before after : list AttachmentItem)
  (a : AttachmentItem) (index : QModelIndex) :
  m_attachments c = before ++ a :: after ->
  isValid index = true -> column index = 0%Z -> row index = Z.of_nat (length before) ->
  m_attachments (removeAttachment c index) = before ++ after /\
  removedRow c (removeAttachment c index) (length before).
Proof.
  intros Hlist Hvalid Hcolumn Hrow.
  assert (Hin : (0 <= row index < size c)%Z)
    by (unfold size; rewrite Hrow, Hlist, length_app; simpl; lia).
  pose proof (removeAttachment_in_range c index Hvalid Hcolumn Hin) as Hrem.
  rewrite Hrow, Nat2Z.id in Hrem.
  split; [| exact Hrem]. destruct Hrem as (Ha & _). rewrite Ha, Hlist.
  apply takeAt_middle.
Qed.

(** X17: removing the row that [addFileAttachment] has just added for a file
    that can be read gives back the attachment list as it was and leaves no
    change open; the observers have seen the row announced, inserted,
    announced for removal and removed, in this order. *)
Theorem add_then_remove (c : MessageComposer) (path : QString) :
  isAvailableLocally env (new_FileAttachmentItem path) = true ->
  let c1 := snd (addFileAttachment env c path) in
  let c2 := removeAttachment c1 (mkIndex true (size c) 0) in
  m_attachments c2 = m_attachments c /\
  changes c2 = changes c /\
  signals c2
    = signals c ++ [rowsAboutToBeInserted (size c) (size c); rowsInserted (size c) (size c);
                    rowsAboutToBeRemoved (size c) (size c); rowsRemoved (size c) (size c)].
Proof.
  intros Hread. cbv zeta.
  destruct (@addFileAttachment_readable env c path Hread) as (_ & Ha & Hc & Hn).
  set (c1 := snd (addFileAttachment env c path)) in *.
  assert (Hin : (0 <= row (mkIndex true (size c) 0) < size c1)%Z).
  { cbn [row]. unfold size. rewrite Ha, length_app. simpl. lia. }
  assert (Hvalid : isValid (mkIndex true (size c) 0) = true).
  { unfold isValid. cbn [row column hasModel]. rewrite andb_true_r.
    apply andb_true_iff. split; [apply Z.leb_le; unfold size; lia | reflexivity]. }
  destruct (@removeAttachment_in_range c1 (mkIndex true (size c) 0) Hvalid eq_refl Hin)
    as (Ha2 & Hc2 & Hn2).
  cbn [row] in Ha2, Hn2.
  replace (Z.to_nat (size c)) with (length (m_attachments c)) in Ha2, Hn2
    by (unfold size; rewrite Nat2Z.id; reflexivity).
  change (Z.of_nat (length (m_attachments c))) with (size c) in Hn2.
  split; [rewrite Ha2, Ha, takeAt_middle; apply app_nil_r |].
  split; [rewrite Hc2; exact Hc |].
  unfold signals. rewrite Hn2, Hn, !map_app. cbn [map signal length].
  rewrite Z.add_simpl_r, <- app_assoc. reflexivity.
Qed.

End Rows.

Lemma dropAttachmentList_count_witness :
  exists c' items,
    dropAttachmentList demoEnv demoModel demoAttached (streamOf emptyListPayload)
      = Val (true, c') /\
    insertedRows demoAttached c' items /\
    Z.of_nat (length items) = 0%Z /\
    signals c' = signals demoAttached ++ [rowsAboutToBeInserted 3 2; rowsInserted 3 2].
Proof.
  assert (H : exists c',
             dropAttachmentList demoEnv demoModel demoAttached (streamOf emptyListPayload)
               = Val (true, c'))
    by (eexists; vm_compute; reflexivity).
  destruct H as [c' H]. exists c'.
  destruct (@dropAttachmentList_count demoEnv demoModel _ _ _ H) as (items & Hrows & Hlen & Hs).
  exists items. split; [exact H |]. split; [exact Hrows |]. split; [exact Hlen | exact Hs].
Defined.

Lemma removeAttachment_exact_witness :
  m_attachments (removeAttachment demoAttached (mkIndex true 1 0)) = [demoFile] ++ [demoPart] /\
  removedRow demoAttached (removeAttachment demoAttached (mkIndex true 1 0)) 1.
Proof.
  apply (@removeAttachment_exact demoAttached [demoFile] [demoPart] demoMessage
           (mkIndex true 1 0)); reflexivity.
Defined.

Lemma add_then_remove_witness :
  let c1 := snd (addFileAttachment demoEnv demoAttached (QLatin1String "a.txt")) in
  let c2 := removeAttachment c1 (mkIndex true (size demoAttached) 0) in
  m_attachments c2 = m_attachments demoAttached /\
  changes c2 = changes demoAttached /\
  signals c2
    = signals demoAttached
        ++ [rowsAboutToBeInserted (size demoAttached) (size demoAttached);
            rowsInserted (size demoAttached) (size demoAttached);
            rowsAboutToBeRemoved (size demoAttached) (size demoAttached);
            rowsRemoved (size demoAttached) (size demoAttached)].
Proof.
  apply (@add_then_remove demoEnv demoAttached (QLatin1String "a.txt")). reflexivity.
Defined.

(** ** The text edit *)



(** X19: data that holds the URL of at least one local file is taken by the
    text edit itself: [canInsertFromMimeData] says yes without asking
    [QTextEdit], and [insertFromMimeData] emits [urlsAdded] once, with all
    the URLs of the data, local or not, and inserts nothing.  Data without
    such a URL is left to [QTextEdit] in both functions. *)
Theorem local_files_are_taken (QTextEdit_canInsertFromMimeData : QMimeData -> bool)
  (source : QMimeData) :
  insertFromMimeData source
    = (if existsb url_isLocalFile (urls source) then emit_urlsAdded (urls source)
       else QTextEdit_insertFromMimeData) /\
  canInsertFromMimeData QTextEdit_canInsertFromMimeData source
    = (existsb url_isLocalFile (urls source) || QTextEdit_canInsertFromMimeData source).
Proof.
  unfold insertFromMimeData, canInsertFromMimeData. split.
  - assert (Hloop : forall all left,
               insertFromUrls all left
                 = if existsb url_isLocalFile left then emit_urlsAdded all
                   else QTextEdit_insertFromMimeData).
    { intros all left. induction left as [| url rest IH]; [reflexivity |].
      cbn [insertFromUrls existsb]. destruct (url_isLocalFile url); [reflexivity | exact IH]. }
    apply Hloop.
  - induction (urls source) as [| url rest IH]; [reflexivity |].
    cbn [canInsertFromUrls existsb]. destruct (url_isLocalFile url); [reflexivity | exact IH].
Qed.

(** ** Dragging attachments out and dropping them again *)

Lemma byte_of_N_to_N (x : Z) :
  (0 <= x < 256)%Z ->
  Z.of_N (Byte.to_N (match Byte.of_N (Z.to_N x) with Some b => b | None => x00 end)) = x.
Proof.
  intros Hx. destruct (Byte.of_N (Z.to_N x)) as [b |] eqn:E.
  - apply Byte.to_of_N in E. rewrite E. lia.
  - apply Byte.of_N_None_iff in E. lia.
Qed.

Lemma be_decode_be32 (n : Z) : (0 <= n < 4294967296)%Z -> be_decode (be32 n) = n.
Proof.
  intros Hn. unfold be32, be_decode. cbn [map fold_left].
  rewrite !byte_of_N_to_N by (apply Z.mod_pos_bound; lia).
  change (256 ^ 3)%Z with 16777216%Z. change (256 ^ 2)%Z with 65536%Z.
  change (256 ^ 1)%Z with 256%Z. change (256 ^ 0)%Z with 1%Z.
  Z.to_euclidean_division_equations. lia.
Qed.

Lemma readInt32_be32 (n : Z) rest :
  (0 <= n < 2147483648)%Z ->
  readInt32 (mkStream (be32 n ++ rest) Ok) = (n, mkStream rest Ok).
Proof.
  intros Hn. unfold readInt32, readUInt32, readBlock.
  change (device (mkStream (be32 n ++ rest) Ok)) with (be32 n ++ rest).
  change (4 <=? length (be32 n ++ rest)) with true. cbv iota.
  change (firstn 4 (be32 n ++ rest)) with (be32 n).
  change (skipn 4 (be32 n ++ rest)) with rest.
  rewrite be_decode_be32 by lia.
  assert (H : (n <? 2147483648)%Z = true) by (apply Z.ltb_lt; lia).
  rewrite H. reflexivity.
Qed.

Section DragAndDrop.

Variable env : Env.
Variable m_model : Model.
Variable asDroppableMimeData : AttachmentItem -> bytes.

(** A record is decoded the same whatever has been decoded before it. *)
Lemma decodeRecord_after kind s s' a items :
  decodeRecord env m_model kind s [] = Val (Continue s' [a]) ->
  decodeRecord env m_model kind s items = Val (Continue s' (items ++ [a])).
Proof.
  unfold decodeRecord.
  destruct (kind =? ATTACHMENT_IMAP_MESSAGE env)%Z.
  - destruct (readQString s) as [mailbox s1], (readUInt32 s1) as [uidValidity s2],
      (readUIntList s2) as [uids s3].
    destruct (negb (validateDropImapMessage m_model s3 mailbox uidValidity uids));
      [discriminate |].
    destruct (negb (length uids =? 1)); [discriminate |].
    unfold new_ImapMessageAttachmentItem.
    destruct (messageExists m_model mailbox uidValidity (hd 0%Z uids));
      cbn [bind try_catch app]; [| discriminate].
    intros H. inversion H; subst. reflexivity.
  - destruct (kind =? ATTACHMENT_IMAP_PART env)%Z.
    + destruct (validateDropImapPart m_model s) as [[valid s1] ref].
      destruct (negb valid); [discriminate |].
      unfold new_ImapPartAttachmentItem.
      destruct (messageExists m_model (part_mailbox ref) (part_uidValidity ref) (part_uid ref));
        cbn [bind try_catch app]; [| discriminate].
      intros H. inversion H; subst. reflexivity.
    + destruct (kind =? ATTACHMENT_FILE env)%Z; [| discriminate].
      destruct (readQString s) as [fileName s1]. cbn [app].
      intros H. inversion H; subst. reflexivity.
Qed.

(** The record of an attachment that reads back is read the same in front
    of other records and after other attachments. *)
Lemma readsBack_in_a_list a rest items :
  readsBack env m_model asDroppableMimeData a ->
  exists a',
    decodeAttachment env m_model (mkStream (asDroppableMimeData a ++ rest) Ok) items
      = Val (Continue (mkStream rest Ok) (items ++ [a'])) /\
    source a' = source a.
Proof.
  intros (a' & Hrun & Hsource). exists a'. split; [| exact Hsource].
  assert (Hok : intact (mkStream [] Ok)) by reflexivity.
  pose proof (@decodeAttachments_more env m_model rest 1
                (streamOf (asDroppableMimeData a)) [] (mkStream [] Ok) [a']) as Hmore.
  cbn [decodeAttachments] in Hmore. rewrite Hrun in Hmore. cbn [bind] in Hmore.
  specialize (Hmore eq_refl Hok).
  change (more (streamOf (asDroppableMimeData a)) rest)
    with (mkStream (asDroppableMimeData a ++ rest) Ok) in Hmore.
  change (more (mkStream [] Ok) rest) with (mkStream rest Ok) in Hmore.
  rewrite decodeAttachment_kind in Hmore |- *.
  destruct (decodeRecord env m_model
              (recordKind (mkStream (asDroppableMimeData a ++ rest) Ok))
              (recordBody (mkStream (asDroppableMimeData a ++ rest) Ok)) [])
    as [[s1 items1 |] | e] eqn:Hrec; cbn [bind] in Hmore; try discriminate.
  inversion Hmore; subst. apply decodeRecord_after. exact Hrec.
Qed.

Lemma decodeAttachments_readBack dragged :
  Forall (readsBack env m_model asDroppableMimeData) dragged ->
  forall rest items,
  exists decoded,
    decodeAttachments env m_model (length dragged)
      (mkStream (concat (map asDroppableMimeData dragged) ++ rest) Ok) items
      = Val (Continue (mkStream rest Ok) (items ++ decoded)) /\
    map source decoded = map source dragged.
Proof.
  induction 1 as [| a dragged Ha _ IH]; intros rest items.
  - exists []. cbn. rewrite app_nil_r. split; reflexivity.
  - cbn [length map concat decodeAttachments]. rewrite <- app_assoc.
    destruct (readsBack_in_a_list (concat (map asDroppableMimeData dragged) ++ rest) items Ha)
      as (a' & Hrun & Hsource).
    rewrite Hrun. cbn [bind].
    destruct (IH rest (items ++ [a'])) as (decoded & Hrest & Hsources).
    exists (a' :: decoded). split.
    + rewrite Hrest, <- app_assoc. reflexivity.
    + cbn [map]. rewrite Hsource, Hsources. reflexivity.
Qed.

(** X20: what [mimeData] makes of a selection, [dropAttachmentList] takes
    back.  If every selected attachment writes a record that the decoder
    reads back on its own as an attachment of the same source, then the
    data of any selection that is not empty is accepted by any composer
    over the same model, and what is appended there are attachments of the
    same sources as the selected ones, as many and in the same order: the
    count that [mimeData] writes and the end of its data are where
    [dropAttachmentList] looks for them. *)
Theorem mimeData_then_drop (c target : MessageComposer) (indexes : list DraggedIndex)
  (encodedData : bytes) :
  mimeData asDroppableMimeData c indexes = Some encodedData ->
  Forall (readsBack env m_model asDroppableMimeData) (selectedItems c indexes) ->
  (Z.of_nat (length (selectedItems c indexes)) < 2147483648)%Z ->
  exists target' added,
    dropAttachmentList env m_model target (streamOf encodedData) = Val (true, target') /\
    m_attachments target' = m_attachments target ++ added /\
    map source added = map source (selectedItems c indexes).
Proof.
  unfold mimeData. intros Hdata Hback Hsize.
  destruct (isEmpty (selectedItems c indexes)); [discriminate |].
  set (dragged := selectedItems c indexes) in *.
  assert (encodedData = be32 (Z.of_nat (length dragged))
                          ++ concat (map asDroppableMimeData dragged)) as ->
    by (injection Hdata as H; symmetry; exact H).
  clear Hdata.
  assert (Hcount : readInt32 (streamOf (be32 (Z.of_nat (length dragged))
                                        ++ concat (map asDroppableMimeData dragged)))
                   = (Z.of_nat (length dragged),
                      mkStream (concat (map asDroppableMimeData dragged)) Ok))
    by (apply readInt32_be32; lia).
  rewrite dropAttachmentList_unfold. unfold declaredCount, afterCount. rewrite Hcount.
  cbn [fst snd]. change (atEnd (streamOf (be32 (Z.of_nat (length dragged))
                                        ++ concat (map asDroppableMimeData dragged))))
    with false. cbv iota. cbn [status q_status Status_isOk negb].
  assert (Hneg : (Z.of_nat (length dragged) <? 0)%Z = false) by (apply Z.ltb_ge; lia).
  rewrite Hneg, Nat2Z.id.
  destruct (decodeAttachments_readBack Hback [] []) as (decoded & Hrun & Hsources).
  rewrite app_nil_r in Hrun. rewrite Hrun. cbn [bind app].
  change (CHECK_STREAM_OK_AT_END (mkStream [] Ok)) with true. cbn [negb].
  destruct (@insertion_bracketed target decoded
              (size target + Z.of_nat (length decoded) - 1) eq_refl) as (Ha & _ & _).
  eexists _, _. split; [reflexivity |]. split; [exact Ha |].
  rewrite map_map, <- Hsources. apply map_ext. intros a.
  destruct (m_shouldPreload target); reflexivity.
Qed.

End DragAndDrop.

Lemma mimeData_then_drop_witness :
  exists target' added,
    dropAttachmentList demoEnv demoModel demoComposer
      (streamOf (be32 2 ++ demoDroppableMimeData demoPart ++ demoDroppableMimeData demoFile))
      = Val (true, target') /\
    m_attachments target' = m_attachments demoComposer ++ added /\
    map source added = map source (selectedItems demoAttached demoDragged).
Proof.
  apply (@mimeData_then_drop demoEnv demoModel demoDroppableMimeData demoAttached
           demoComposer demoDragged).
  - vm_compute. reflexivity.
  - repeat constructor.
    + eexists. split; [vm_compute; reflexivity | reflexivity].
    + eexists. split; [vm_compute; reflexivity | reflexivity].
  - vm_compute. reflexivity.
Defined.

(** ** The row test of 2012 *)

Lemma skipsRow_2012_spec (row size : Z) :
  (0 <= size)%Z ->
  skipsRow_2012 row size = ((size =? 0)%Z || ((size =? 1)%Z && (row <? 0)%Z)).
Proof.
  intros Hsize. unfold skipsRow_2012, int_of_bool.
  rewrite Z.geb_leb.
  destruct (row <? 0)%Z eqn:Hrow; rewrite Z.gtb_ltb.
  - apply Z.ltb_lt in Hrow.
    assert (H : (row <? 1)%Z = true) by (apply Z.ltb_lt; lia). rewrite H.
    destruct (size =? 0)%Z eqn:E0; [apply Z.eqb_eq in E0; subst; reflexivity |].
    destruct (size =? 1)%Z eqn:E1; [apply Z.eqb_eq in E1; subst; reflexivity |].
    apply Z.eqb_neq in E0, E1. apply Z.leb_gt. lia.
  - apply Z.ltb_ge in Hrow.
    assert (H : (row <? 0)%Z = false) by (apply Z.ltb_ge; lia). rewrite H.
    destruct (size =? 0)%Z eqn:E0; [apply Z.eqb_eq in E0; subst; reflexivity |].
    apply Z.eqb_neq in E0. rewrite andb_false_r. apply Z.leb_gt. lia.
Qed.

(** X21: the row test in the [mimeData] of 2012 is not a range test.  On a
    composer with two attachments or more it lets every row through: the
    attachment list is indexed with the row of every index that passes the
    first test, whether the row is in range or past the end.  (A valid
    index has no negative row, so the first test has dropped those; the
    revision of 2014 has the range test in its place, see [selectedItems].) *)
Theorem mimeData_2012_row_test (c : MessageComposer) (indexes : list DraggedIndex) :
  (2 <= size c)%Z ->
  accessedRows_2012 c indexes
    = map (fun index => row (modelIndex index))
        (filter (fun index => negb (skipsIndex index)) indexes) /\
  Forall (fun r => (0 <= r)%Z) (accessedRows_2012 c indexes).
Proof.
  intros Hsize.
  assert (Hrows : accessedRows_2012 c indexes
                  = map (fun index => row (modelIndex index))
                      (filter (fun index => negb (skipsIndex index)) indexes)).
  { unfold accessedRows_2012.
    induction indexes as [| index rest IH]; [reflexivity |].
    cbn [flat_map filter]. rewrite IH.
    destruct (skipsIndex index); cbn [negb app]; [reflexivity |].
    rewrite skipsRow_2012_spec by lia.
    assert (H0 : (size c =? 0)%Z = false) by (apply Z.eqb_neq; lia).
    assert (H1 : (size c =? 1)%Z = false) by (apply Z.eqb_neq; lia).
    rewrite H0, H1. reflexivity. }
  split; [exact Hrows |].
  rewrite Hrows. apply Forall_map, Forall_forall. intros index Hin.
  apply filter_In in Hin. destruct Hin as [_ Hpass].
  apply negb_true_iff in Hpass. unfold skipsIndex in Hpass.
  apply orb_false_iff in Hpass. destruct Hpass as [Hpass _].
  apply orb_false_iff in Hpass. destruct Hpass as [Hpass _].
  apply orb_false_iff in Hpass. destruct Hpass as [_ Hvalid].
  apply negb_false_iff in Hvalid. unfold isValid in Hvalid.
  apply andb_true_iff in Hvalid. destruct Hvalid as [Hvalid _].
  apply andb_true_iff in Hvalid. destruct Hvalid as [Hrow _].
  apply Z.leb_le. exact Hrow.
Qed.

Lemma mimeData_2012_row_test_witness :
  accessedRows_2012 demoAttached demoDragged = [2; 7; 0]%Z /\
  Forall (fun r => (0 <= r)%Z) (accessedRows_2012 demoAttached demoDragged).
Proof.
  apply (@mimeData_2012_row_test demoAttached demoDragged). vm_compute. discriminate.
Defined.
